(** * Link resolution, message rewriting and agent streaming

    A shallow embedding of [chat.py] (file inventory scan, fuzzy link
    resolver, markdown link extractor, message rewriter, turn controller)
    and of the streaming part of [src/azure.py], followed by the properties
    of these functions.

    Conventions of the embedding.
    - A Python [str] is the list of its Unicode code points ([list N]).
    - A Python call that may raise returns an [outcome]; [Exception] values
      are represented by their message text.  Only [Exception] subclasses are
      modelled (the [except Exception] clauses of the source catch nothing
      else).
    - The operating system and the hosted agent service are inputs: a
      [FileSystem] answers the three queries the scanner performs, a
      [Service] gives the result of each remote call.
    - [pathlib] is modelled in its POSIX flavour (CPython 3.8 to 3.12),
      [thefuzz.process.extractOne] in its version built on [rapidfuzz]
      (0.20 and later): the choice is selected on the unrounded score of
      an arbitrary scorer, and the score is rounded when it is reported. *)

From Stdlib Require Import String Ascii.
From Stdlib Require Import List NArith ZArith Bool Lia Arith.
From Stdlib Require DecimalString DecimalNat.
From Stdlib Require Import QArith Qround Lqa.
Import ListNotations.

Close Scope Q_scope.

Set Implicit Arguments.

(* ================================================================== *)
(** * Python strings *)
(* ================================================================== *)

Module PyStr.

Definition char := N.
Definition str := list char.

(** A string literal of the source (ASCII only). *)
Definition lit (s : string) : str := map N_of_ascii (list_ascii_of_string s).

(** Characters that the source names. *)
Definition c_lbracket : char := 91%N.   (* [ *)
Definition c_rbracket : char := 93%N.   (* ] *)
Definition c_lparen   : char := 40%N.   (* ( *)
Definition c_rparen   : char := 41%N.   (* ) *)
Definition c_dot      : char := 46%N.   (* . *)
Definition c_slash    : char := 47%N.   (* / *)
Definition c_percent  : char := 37%N.   (* % *)
Definition c_dquote   : char := 34%N.   (* the double quote *)
Definition c_squote   : char := 39%N.   (* ' *)
Definition c_amp      : char := 38%N.   (* & *)
Definition c_lt       : char := 60%N.   (* < *)
Definition c_gt       : char := 62%N.   (* > *)
Definition c_newline  : char := 10%N.

Fixpoint str_eqb (a b : str) : bool :=
  match a, b with
  | [], [] => true
  | x :: a', y :: b' => N.eqb x y && str_eqb a' b'
  | _, _ => false
  end.

(** [c in s] *)
Definition contains (c : char) (s : str) : bool := existsb (N.eqb c) s.

(** [s.startswith(prefix)] *)
Fixpoint startswith (prefix s : str) : bool :=
  match prefix, s with
  | [], _ => true
  | p :: prefix', c :: s' => N.eqb p c && startswith prefix' s'
  | _ :: _, [] => false
  end.

(** [s.replace(old, new, 1)]: the leftmost occurrence of [old] is replaced,
    a string without occurrence is returned as it is. *)
Fixpoint replace_first (old new s : str) {struct s} : str :=
  if startswith old s then new ++ skipn (length old) s
  else match s with
       | [] => []
       | c :: s' => c :: replace_first old new s'
       end.

(** [s.replace(c, new)] for a one-character [c]: every occurrence. *)
Definition replace_char (c : char) (new : str) (s : str) : str :=
  flat_map (fun x => if N.eqb x c then new else [x]) s.

(** [s.split(sep)] for a one-character separator. *)
Fixpoint split_on (sep : char) (s : str) : list str :=
  match s with
  | [] => [[]]
  | c :: s' =>
      if N.eqb c sep then [] :: split_on sep s'
      else match split_on sep s' with
           | [] => [[c]]
           | w :: ws => (c :: w) :: ws
           end
  end.

(** [sep.join(parts)] *)
Fixpoint join (sep : str) (parts : list str) : str :=
  match parts with
  | [] => []
  | [p] => p
  | p :: ps => p ++ sep ++ join sep ps
  end.

(** [s.rfind(c)] for a one-character [c]; [None] stands for -1. *)
Fixpoint rfind (c : char) (s : str) : option nat :=
  match s with
  | [] => None
  | x :: s' =>
      match rfind c s' with
      | Some i => Some (S i)
      | None => if N.eqb x c then Some 0 else None
      end
  end.

(** [str(n)] for a non-negative [int]. *)
Definition str_of_nat (n : nat) : str :=
  lit (DecimalString.NilEmpty.string_of_uint (Nat.to_uint n)).

(** The longest prefix whose characters satisfy [p], and the rest. *)
Fixpoint span (p : char -> bool) (s : str) : str * str :=
  match s with
  | [] => ([], [])
  | c :: s' =>
      if p c then let (a, b) := span p s' in (c :: a, b)
      else ([], s)
  end.

End PyStr.
Import PyStr.

(* ================================================================== *)
(** * [html.escape] *)
(* ================================================================== *)

Module Html.

(** [html.escape(s)] with the default [quote=True]: five successive
    [replace] passes, the ampersand first. *)
Definition escape (s : str) : str :=
  let s := replace_char c_amp (lit "&amp;") s in
  let s := replace_char c_lt (lit "&lt;") s in
  let s := replace_char c_gt (lit "&gt;") s in
  let s := replace_char c_dquote (lit "&quot;") s in
  let s := replace_char c_squote (lit "&#x27;") s in
  s.

End Html.

(* ================================================================== *)
(** * The regular expression of [extract_markdown_links] *)
(* ================================================================== *)

Module Re.

(** One attempt of the pattern [\[([^\]]+)\]\(([^)]+)\)] at the head of
    [s].  Both groups are greedy runs of a character class that excludes the
    very character the pattern requires next, so the only way to match is to
    take each run in full: a shorter run would be followed by a character of
    the class, never by the required delimiter.  The result is the two
    groups and the length of the whole match. *)
Definition match_link (s : str) : option (str * str * nat) :=
  match s with
  | c :: s1 =>
      if N.eqb c c_lbracket then
        let (link_text, s2) := span (fun x => negb (N.eqb x c_rbracket)) s1 in
        match link_text, s2 with
        | _ :: _, rb :: lp :: s3 =>
            if N.eqb rb c_rbracket && N.eqb lp c_lparen then
              let (url, s4) := span (fun x => negb (N.eqb x c_rparen)) s3 in
              match url, s4 with
              | _ :: _, _ :: _ =>
                  Some (link_text, url, 4 + length link_text + length url)%nat
              | _, _ => None
              end
            else None
        | _, _ => None
        end
      else None
  | [] => None
  end.

(** [re.findall(pattern, text)]: matches are searched from left to right
    and do not overlap; [skip] is the number of characters still covered by
    the previous match. *)
Fixpoint findall_from (skip : nat) (text : str) : list (str * str) :=
  match text with
  | [] => []
  | _ :: rest =>
      match skip with
      | S k => findall_from k rest
      | O =>
          match match_link text with
          | Some (link_text, url, n) =>
              (link_text, url) :: findall_from (n - 1) rest
          | None => findall_from 0 rest
          end
      end
  end.

Definition findall (text : str) : list (str * str) := findall_from 0 text.

End Re.

(* ================================================================== *)
(** * [pathlib] (pure paths, POSIX flavour) *)
(* ================================================================== *)

Module PathLib.

(** A parsed path: its root (empty, one slash or two) and the components
    after it. *)
Record PurePath := mkPath { root : str; tail : list str }.

(** [posixpath.splitroot]: exactly two leading slashes are kept as a root
    of their own, any other number collapses to one. *)
Definition splitroot (p : str) : str * str :=
  match p with
  | a :: p1 =>
      if N.eqb a c_slash then
        match p1 with
        | b :: p2 =>
            if N.eqb b c_slash then
              match p2 with
              | c :: _ =>
                  if N.eqb c c_slash then ([c_slash], p1)
                  else ([c_slash; c_slash], p2)
              | [] => ([c_slash; c_slash], p2)
              end
            else ([c_slash], p1)
        | [] => ([c_slash], p1)
        end
      else ([], p)
  | [] => ([], p)
  end.

Definition is_component (x : str) : bool :=
  negb (str_eqb x []) && negb (str_eqb x [c_dot]).

(** [Path(p)]: empty components and single dots are dropped. *)
Definition Path (p : str) : PurePath :=
  match p with
  | [] => mkPath [] []
  | _ =>
      let (r, rel) := splitroot p in
      mkPath r (filter is_component (split_on c_slash rel))
  end.

(** [path.name]: the last component, the empty string when there is none. *)
Definition name (p : PurePath) : str := last (tail p) [].

(** [path.stem]: the name without its last suffix; a leading or a trailing
    dot does not start a suffix. *)
Definition stem (p : PurePath) : str :=
  let n := name p in
  match rfind c_dot n with
  | Some i => if (0 <? i)%nat && (i <? length n - 1)%nat then firstn i n else n
  | None => n
  end.

(** [str(path)] *)
Definition to_str (p : PurePath) : str :=
  match root p, tail p with
  | [], [] => [c_dot]
  | r, t => r ++ join [c_slash] t
  end.

End PathLib.

(* ================================================================== *)
(** * [urllib.parse.unquote] *)
(* ================================================================== *)

Module UrlLib.

Definition hex_val (c : char) : option N :=
  if (48 <=? c)%N && (c <=? 57)%N then Some (c - 48)%N
  else if (65 <=? c)%N && (c <=? 70)%N then Some (c - 55)%N
  else if (97 <=? c)%N && (c <=? 102)%N then Some (c - 87)%N
  else None.

(** The input is cut into runs of ASCII characters, which are
    percent-decoded to bytes, and the other characters, which are kept. *)
Inductive item := Byte (b : N) | Wide (c : char).

(** [unquote_to_bytes] on the ASCII runs: a percent sign followed by two
    hexadecimal digits is one byte, any other percent sign stays. *)
Fixpoint unquote_items (s : str) : list item :=
  match s with
  | [] => []
  | c :: rest =>
      if (c <? 128)%N then
        if N.eqb c c_percent then
          match rest with
          | h :: l :: rest' =>
              match hex_val h, hex_val l with
              | Some a, Some b => Byte (16 * a + b) :: unquote_items rest'
              | _, _ => Byte c :: unquote_items rest
              end
          | _ => Byte c :: unquote_items rest
          end
        else Byte c :: unquote_items rest
      else Wide c :: unquote_items rest
  end.

Definition replacement : char := 65533%N.   (* U+FFFD *)

Definition in_range (lo hi : N) (i : item) : option N :=
  match i with
  | Byte b => if (lo <=? b)%N && (b <=? hi)%N then Some (b mod 64)%N else None
  | Wide _ => None
  end.

(** [bytes.decode('utf-8', 'replace')] run by run: every maximal ill-formed
    prefix of a sequence becomes one U+FFFD. *)
Fixpoint utf8_decode (l : list item) : str :=
  match l with
  | [] => []
  | Wide c :: r => c :: utf8_decode r
  | Byte b0 :: r =>
      if (b0 <? 128)%N then b0 :: utf8_decode r
      else if (194 <=? b0)%N && (b0 <=? 223)%N then
        match r with
        | i1 :: r1 =>
            match in_range 128 191 i1 with
            | Some x1 => ((b0 - 192) * 64 + x1)%N :: utf8_decode r1
            | None => replacement :: utf8_decode r
            end
        | [] => replacement :: utf8_decode r
        end
      else if (224 <=? b0)%N && (b0 <=? 239)%N then
        let lo := if N.eqb b0 224 then 160%N else 128%N in
        let hi := if N.eqb b0 237 then 159%N else 191%N in
        match r with
        | i1 :: r1 =>
            match in_range lo hi i1 with
            | Some x1 =>
                match r1 with
                | i2 :: r2 =>
                    match in_range 128 191 i2 with
                    | Some x2 =>
                        (((b0 - 224) * 64 + x1) * 64 + x2)%N :: utf8_decode r2
                    | None => replacement :: utf8_decode r1
                    end
                | [] => replacement :: utf8_decode r1
                end
            | None => replacement :: utf8_decode r
            end
        | [] => replacement :: utf8_decode r
        end
      else if (240 <=? b0)%N && (b0 <=? 244)%N then
        let lo := if N.eqb b0 240 then 144%N else 128%N in
        let hi := if N.eqb b0 244 then 143%N else 191%N in
        match r with
        | i1 :: r1 =>
            match in_range lo hi i1 with
            | Some x1 =>
                match r1 with
                | i2 :: r2 =>
                    match in_range 128 191 i2 with
                    | Some x2 =>
                        match r2 with
                        | i3 :: r3 =>
                            match in_range 128 191 i3 with
                            | Some x3 =>
                                ((((b0 - 240) * 64 + x1) * 64 + x2) * 64 + x3)%N
                                  :: utf8_decode r3
                            | None => replacement :: utf8_decode r2
                            end
                        | [] => replacement :: utf8_decode r2
                        end
                    | None => replacement :: utf8_decode r1
                    end
                | [] => replacement :: utf8_decode r1
                end
            | None => replacement :: utf8_decode r
            end
        | [] => replacement :: utf8_decode r
        end
      else replacement :: utf8_decode r
  end.

(** [unquote(string)]: a string without percent sign is returned as it
    is. *)
Definition unquote (s : str) : str :=
  if negb (contains c_percent s) then s
  else utf8_decode (unquote_items s).

End UrlLib.

(* ================================================================== *)
(** * Calls that may raise *)
(* ================================================================== *)

Inductive outcome (A : Type) : Type :=
| Returns (a : A)
| Raises (e : str).
Arguments Returns {A} a.
Arguments Raises {A} e.

Module PathOps.
Import PathLib.

Fixpoint strip_prefix (other parts : list str) : option (list str) :=
  match other, parts with
  | [], _ => Some parts
  | o :: other', p :: parts' =>
      if str_eqb o p then strip_prefix other' parts' else None
  | _ :: _, [] => None
  end.

(** [self.relative_to(other)]: [ValueError] unless [other] is a leading
    part of [self]; a rooted path is never relative to a path without
    root. *)
Definition relative_to (self other : PurePath) : outcome PurePath :=
  if str_eqb (root self) (root other) then
    match strip_prefix (tail other) (tail self) with
    | Some rest => Returns (mkPath [] rest)
    | None => Raises (lit "ValueError")
    end
  else Raises (lit "ValueError").

End PathOps.

(* ================================================================== *)
(** * The file system seen by the scanner *)
(* ================================================================== *)

Module Fs.
Import PathLib.

(** The answers of the operating system to the three queries of
    [scan_files_directory].  [fs_rglob] lists the path strings the
    recursive walk yields, in its order, and the error that interrupts it,
    if any. *)
Record FileSystem := mkFs {
  fs_exists  : PurePath -> outcome bool;
  fs_rglob   : PurePath -> list str * option str;
  fs_is_file : PurePath -> outcome bool
}.

(** Computations that read the file system and may raise.  The file system
    is threaded through, so that a write would show in the final state. *)
Definition IO (A : Type) : Type := FileSystem -> outcome A * FileSystem.

Definition ret {A} (a : A) : IO A := fun fs => (Returns a, fs).
Definition raise {A} (e : str) : IO A := fun fs => (Raises e, fs).
Definition bind {A B} (c : IO A) (k : A -> IO B) : IO B :=
  fun fs =>
    match c fs with
    | (Returns a, fs') => k a fs'
    | (Raises e, fs') => (Raises e, fs')
    end.
(** [try: c except Exception as e: handler e] *)
Definition try_except {A} (c : IO A) (handler : str -> IO A) : IO A :=
  fun fs =>
    match c fs with
    | (Returns a, fs') => (Returns a, fs')
    | (Raises e, fs') => handler e fs'
    end.
Definition lift {A} (o : outcome A) : IO A := fun fs => (o, fs).

Definition path_exists (p : PurePath) : IO bool :=
  fun fs => (fs_exists fs p, fs).
Definition path_is_file (p : PurePath) : IO bool :=
  fun fs => (fs_is_file fs p, fs).
Definition path_rglob (p : PurePath) : IO (list str * option str) :=
  fun fs => (Returns (fs_rglob fs p), fs).

End Fs.

Declare Scope io_scope.
Delimit Scope io_scope with io.
Notation "x <- c ;; k" := (Fs.bind c (fun x => k))
  (at level 61, c at next level, right associativity) : io_scope.

(* ================================================================== *)
(** * [thefuzz.process.extractOne] *)
(* ================================================================== *)

Module Fuzz.

(** [int(round(x))] on a float: the nearest integer, and the even one of
    the two when [x] lies half-way. *)
Definition py_round (x : Q) : Z :=
  let f := Qfloor x in
  match Qcompare (x - inject_Z f) (1 # 2) with
  | Lt => f
  | Gt => (f + 1)%Z
  | Eq => if Z.even f then f else (f + 1)%Z
  end.

Section Scorer.

(** The similarity scorer between the query and a choice (processor and
    weighted ratio of the library) as [rapidfuzz] computes it: a float on
    the scale 0 to 100, not rounded. *)
Variable score : str -> str -> Q.

(** The scored choices, in the order of the choices; with the cutoff 0 a
    choice is passed over only if its score is negative. *)
Definition scored_choices (query : str) (choices : list str)
  : list (str * Q) :=
  filter (fun p => Qle_bool 0 (snd p))
         (map (fun c => (c, score query c)) choices).

(** The loop of [rapidfuzz.process.extractOne]: a later choice replaces
    the current best only when its score is strictly greater.  (The loop
    also stops at the first choice that scores 100; no score of the
    library is greater, so that the result is the same.) *)
Fixpoint max_by_score (best : str * Q) (l : list (str * Q)) : str * Q :=
  match l with
  | [] => best
  | x :: l' =>
      match Qcompare (snd best) (snd x) with
      | Lt => max_by_score x l'
      | _ => max_by_score best l'
      end
  end.

Definition rapidfuzz_extractOne (query : str) (choices : list str)
  : option (str * Q) :=
  match scored_choices query choices with
  | [] => None
  | x :: l => Some (max_by_score x l)
  end.

(** [thefuzz.process.extractOne]: the result of [rapidfuzz], with its
    score rounded. *)
Definition extractOne (query : str) (choices : list str)
  : option (str * Z) :=
  match rapidfuzz_extractOne query choices with
  | None => None
  | Some (choice, s) => Some (choice, py_round s)
  end.

(** The score the library reports for a choice. *)
Definition reported (query choice : str) : Z := py_round (score query choice).

End Scorer.
End Fuzz.

(* ================================================================== *)
(** * [chat.py] *)
(* ================================================================== *)

Module Chat.
Import PathLib.

Record FileRecord := mkFile {
  path : str;
  name_without_ext : str;
  full_name : str
}.

Definition Inventory := list FileRecord.

Local Open Scope io_scope.

(** The loop of [scan_files_directory] over the entries of the walk. *)
Fixpoint scan_entries (entries : list str) (all_files : Inventory)
  : Fs.IO Inventory :=
  match entries with
  | [] => Fs.ret all_files
  | entry :: rest =>
      let file_path := Path entry in
      is_file <- Fs.path_is_file file_path ;;
      if is_file : bool then
        relative_path <- Fs.lift (PathOps.relative_to file_path (Path [c_dot])) ;;
        scan_entries rest
          (all_files ++ [mkFile (to_str relative_path)
                                (stem file_path)
                                (name file_path)])
      else scan_entries rest all_files
  end.

(** [scan_files_directory(files_directory)]; [None] is the absent
    inventory. *)
Definition scan_files_directory (files_directory : str)
  : Fs.IO (option Inventory) :=
  Fs.try_except
    (let files_dir := Path files_directory in
     found <- Fs.path_exists files_dir ;;
     if negb found then Fs.ret None
     else
       walk <- Fs.path_rglob files_dir ;;
       all_files <- scan_entries (fst walk) [] ;;
       match snd walk with
       | Some e => Fs.raise e
       | None =>
           match all_files with
           | [] => Fs.ret None
           | _ :: _ => Fs.ret (Some all_files)
           end
       end)
    (fun _ => Fs.ret None).

Definition default_files_directory : str := lit "public/files/".

(** [names_for_matching.index(x)] *)
Fixpoint index_of (x : str) (names : list str) : option nat :=
  match names with
  | [] => None
  | n :: names' =>
      if str_eqb n x then Some 0%nat
      else match index_of x names' with
           | Some i => Some (S i)
           | None => None
           end
  end.

Record LinkInfo := mkLink {
  filename : str;
  url : str;
  original_link : str;
  text : str;
  fuzzy_matched : bool
}.

Section Scorer.

Variable score : str -> str -> Q.

(** [find_best_match(filename, file_list)].  A [ValueError] of [index] or an
    [IndexError] of the subscript would be caught by the [except] clause,
    which returns [None]. *)
Definition find_best_match (filename : str) (file_list : option Inventory)
  : option str :=
  match file_list with
  | None => None
  | Some [] => None
  | Some files =>
      let target_name := stem (Path filename) in
      let names_for_matching := map name_without_ext files in
      match Fuzz.extractOne score target_name names_for_matching with
      | Some best_match =>
          if (60 <? snd best_match)%Z then
            match index_of (fst best_match) names_for_matching with
            | Some matched_index =>
                match nth_error files matched_index with
                | Some matched_file => Some (path matched_file)
                | None => None
                end
            | None => None
            end
          else None
      | None => None
      end
  end.

(** [find_closest_file(filename, files_directory)] *)
Definition find_closest_file (filename files_directory : str)
  : Fs.IO (option str) :=
  file_list <- scan_files_directory files_directory ;;
  Fs.ret (find_best_match filename file_list).

Definition is_external (url : str) : bool :=
  startswith (lit "http://") url || startswith (lit "https://") url.

(** [f"[{link_text}]({url})"] *)
Definition markdown_of (link_text url : str) : str :=
  [c_lbracket] ++ link_text ++ [c_rbracket; c_lparen] ++ url ++ [c_rparen].

(** The name derived from the link, before it is decoded. *)
Definition candidate_filename (link_text url : str) : str :=
  let filename := match url with
                  | [] => link_text
                  | _ => name (Path url)
                  end in
  if str_eqb filename [] || negb (contains c_dot filename) then link_text
  else filename.

(** [filename.split('.')[0]] *)
Definition first_segment (filename : str) : str :=
  hd [] (split_on c_dot filename).

(** The body of the loop of [extract_markdown_links] for one match that is
    not skipped. *)
Definition link_info (file_list : option Inventory) (link_text url : str)
  : LinkInfo :=
  let filename := UrlLib.unquote (candidate_filename link_text url) in
  let matched_filepath := find_best_match filename file_list in
  let final_url :=
    match matched_filepath with
    | Some ((_ :: _) as p) => lit "/gradio_api/file=" ++ p
    | _ => url
    end in
  mkLink (first_segment filename)
         final_url
         (markdown_of link_text url)
         link_text
         (match matched_filepath with Some _ => true | None => false end).

Fixpoint links_of_matches (file_list : option Inventory)
         (matches : list (str * str)) : list LinkInfo :=
  match matches with
  | [] => []
  | (link_text, url) :: rest =>
      if is_external url then links_of_matches file_list rest
      else link_info file_list link_text url
             :: links_of_matches file_list rest
  end.

(** [extract_markdown_links(text)] *)
Definition extract_markdown_links (text : str) : Fs.IO (list LinkInfo) :=
  match Re.findall text with
  | [] => Fs.ret []
  | matches =>
      file_list <- scan_files_directory default_files_directory ;;
      Fs.ret (links_of_matches file_list matches)
  end.

(** ** The rewrite step of [bot] *)

(** [f"source-card-{i}"] *)
Definition anchor_id (i : nat) : str := lit "source-card-" ++ str_of_nat i.

Definition anchor_link (i : nat) (link_text : str) : str :=
  lit "<a href=" ++ [c_dquote] ++ lit "#" ++ anchor_id i ++ [c_dquote]
  ++ lit " onclick=" ++ [c_dquote]
  ++ lit "document.getElementById('" ++ anchor_id i
  ++ lit "').scrollIntoView({behavior: 'smooth'}); return false;"
  ++ [c_dquote] ++ lit ">" ++ Html.escape link_text ++ lit "</a>".

(** The first loop: [i] is the index [enumerate] has reached. *)
Fixpoint replace_links (i : nat) (links_info : list LinkInfo)
         (updated_message : str) : str :=
  match links_info with
  | [] => updated_message
  | link :: rest =>
      replace_links (S i) rest
        (replace_first (original_link link)
                       (anchor_link i (text link)) updated_message)
  end.

(** The four characters of the icon as the source file has them. *)
Definition card_icon : str := [240; 376; 8220; 8222]%N.

Definition attr (s : string) : str := [c_dquote] ++ lit s ++ [c_dquote].

Definition card_html (i : nat) (link : LinkInfo) : str :=
  lit "<div class=" ++ attr "source-card" ++ lit " id="
  ++ [c_dquote] ++ anchor_id i ++ [c_dquote] ++ lit ">"
  ++ lit "<div class=" ++ attr "card-icon" ++ lit ">" ++ card_icon
  ++ lit "</div><div class=" ++ attr "card-title" ++ lit ">"
  ++ Html.escape (filename link)
  ++ lit "</div><a href=" ++ [c_dquote] ++ Html.escape (url link)
  ++ [c_dquote] ++ lit " class=" ++ attr "card-link"
  ++ lit " target=" ++ attr "_blank" ++ lit ">Download</a></div>".

(** The second loop, with its accumulator [cards_components]. *)
Fixpoint build_cards (i : nat) (links_info : list LinkInfo)
         (cards_components : list str) : list str :=
  match links_info with
  | [] => cards_components
  | link :: rest =>
      build_cards (S i) rest (cards_components ++ [card_html i link])
  end.

Definition cards_container (cards_components : list str) : str :=
  [c_newline; c_newline] ++ lit "<div class="
  ++ attr "source-cards-container" ++ lit ">"
  ++ concat cards_components ++ lit "</div>".

(** The new content of the assistant entry (the body of
    [if links_info:]). *)
Definition rewrite_message (final_message : str)
           (links_info : list LinkInfo) : str :=
  let updated_message := replace_links 0 links_info final_message in
  let cards_html := cards_container (build_cards 0 links_info []) in
  updated_message ++ cards_html.

(** ** The turn controller *)

Record Entry := mkEntry { role : str; content : str }.
Definition History := list Entry.

(** [user(user_message, history)]: the cleared input and the history with
    the new entry. *)
Definition user (user_message : str) (history : History) : str * History :=
  ([], history ++ [mkEntry (lit "user") user_message]).

(** What the agent call produces when it is iterated: the chunks, then its
    normal end or an exception. *)
Record Stream := mkStream { chunks : list str; ending : option str }.

(** What [bot] produces: the histories it hands to the display, each as it
    is when it is yielded, then its normal end or an exception. *)
Record Turn := mkTurn { published : list History; failure : option str }.

Definition error_msg : str :=
  lit "Sorry, I encountered an error while processing your request. Please try again.".

(** [history[-1]["content"]] *)
Definition last_content (history : History) : option str :=
  match List.rev history with
  | e :: _ => Some (content e)
  | [] => None
  end.

(** [history[-1]["content"] = c] *)
Definition set_last_content (history : History) (c : str) : History :=
  match List.rev history with
  | e :: before => List.rev before ++ [mkEntry (role e) c]
  | [] => []
  end.

(** The [async for] loop: every chunk is appended to the assistant entry
    and the history is yielded.  [bot] runs it on a history that ends with
    the assistant entry, so that the last entry always exists. *)
Fixpoint relay (history : History) (cs : list str) : History * list History :=
  match cs with
  | [] => (history, [])
  | chunk :: rest =>
      let history' :=
        match last_content history with
        | Some c => set_last_content history (c ++ chunk)
        | None => history
        end in
      let (final, yields) := relay history' rest in
      (final, history' :: yields)
  end.

(** [bot(history)]; [agent] is [send_message_to_agent_streaming]. *)
Definition bot (agent : str -> Stream) (fs : Fs.FileSystem)
           (history : History) : Turn :=
  match last_content history with
  | None => mkTurn [] (Some (lit "IndexError"))
  | Some user_message =>
      let history := history ++ [mkEntry (lit "assistant") []] in
      let stream := agent user_message in
      let (history, yields) := relay history (chunks stream) in
      let on_error :=
        mkTurn (yields ++ [set_last_content history error_msg]) None in
      match ending stream with
      | Some _ => on_error
      | None =>
          match last_content history with
          | None => on_error
          | Some final_message =>
              match fst (extract_markdown_links final_message fs) with
              | Raises _ => on_error
              | Returns [] => mkTurn yields None
              | Returns links_info =>
                  mkTurn
                    (yields ++
                     [set_last_content history
                        (rewrite_message final_message links_info)])
                    None
              end
          end
      end
  end.

End Scorer.
End Chat.

(* ================================================================== *)
(** * [src/azure.py]: the streaming interface *)
(* ================================================================== *)

Module Gen.

(** An asynchronous generator over a mutable object of type [S]: the chunks
    yielded so far, the result or the exception raised, the object
    afterwards. *)
Definition Gen (S A : Type) : Type := S -> (list str * outcome A) * S.

Definition ret {S A} (a : A) : Gen S A := fun s => (([], Returns a), s).
Definition bind {S A B} (c : Gen S A) (k : A -> Gen S B) : Gen S B :=
  fun s =>
    match c s with
    | ((ys, Returns a), s') =>
        match k a s' with
        | ((ys', r), s'') => ((ys ++ ys', r), s'')
        end
    | ((ys, Raises e), s') => ((ys, Raises e), s')
    end.
Definition yield {S} (chunk : str) : Gen S unit :=
  fun s => (([chunk], Returns tt), s).
(** An awaited call of the service. *)
Definition call {S A} (o : outcome A) : Gen S A := fun s => (([], o), s).
Definition get {S} : Gen S S := fun s => (([], Returns s), s).
Definition put {S} (s : S) : Gen S unit := fun _ => (([], Returns tt), s).
(** [try: c except Exception as e: handler e] *)
Definition try_except {S A} (c : Gen S A) (handler : str -> Gen S A)
  : Gen S A :=
  fun s =>
    match c s with
    | ((ys, Returns a), s') => ((ys, Returns a), s')
    | ((ys, Raises e), s') =>
        match handler e s' with
        | ((ys', r), s'') => ((ys ++ ys', r), s'')
        end
    end.

End Gen.

Declare Scope gen_scope.
Delimit Scope gen_scope with gen.
Notation "x <- c ;; k" := (Gen.bind c (fun x => k))
  (at level 61, c at next level, right associativity) : gen_scope.

Module Azure.
Import Gen.
Local Open Scope gen_scope.

Record Thread := mkThread { id : str }.
Record Agent := mkAgent { agent_ident : str }.
(** [last_error] is the text the f-string renders. *)
Record Run := mkRun { status : str; last_error : str }.
(** [text_messages] holds the [text.value] of each text part. *)
Record AgentMessage := mkMessage { role : str; text_messages : list str }.

(** The results of the remote calls during one request. *)
Record Service := mkService {
  project_client : str -> outcome unit;
  threads_create : outcome Thread;
  messages_create : str -> str -> str -> outcome unit;
  agents_get_agent : str -> outcome Agent;
  runs_create_and_process : str -> str -> outcome Run;
  (** the messages of the listing; an error during the iteration is an
      error of the whole listing, since nothing is yielded before its end *)
  messages_list : str -> outcome (list AgentMessage)
}.

Record AzureAgentClient := mkClient {
  endpoint : str;
  agent_id : str;
  current_thread : option Thread;
  _agent : option Agent
}.

Section Requests.

Variable service : Service.

(** [self._get_agent()]: the [except] clause logs and raises again. *)
Definition _get_agent : Gen AzureAgentClient Agent :=
  self <- get ;;
  match _agent self with
  | Some agent => ret agent
  | None =>
      agent <- call (agents_get_agent service (agent_id self)) ;;
      _ <- put (mkClient (endpoint self) (agent_id self)
                         (current_thread self) (Some agent)) ;;
      ret agent
  end.

(** [self.create_new_conversation()]: the [except] clause logs and raises
    again. *)
Definition create_new_conversation : Gen AzureAgentClient str :=
  thread <- call (threads_create service) ;;
  self <- get ;;
  _ <- put (mkClient (endpoint self) (agent_id self)
                     (Some thread) (_agent self)) ;;
  ret (id thread).

(** The loop that keeps the last text of the last assistant message. *)
Fixpoint latest_assistant_response (messages : list AgentMessage)
         (latest_response : option str) : option str :=
  match messages with
  | [] => latest_response
  | msg :: rest =>
      latest_assistant_response rest
        (if str_eqb (role msg) (lit "assistant")
         then match List.rev (text_messages msg) with
              | value :: _ => Some value
              | [] => latest_response
              end
         else latest_response)
  end.

Definition run_failed_msg (last_error : str) : str :=
  lit "Sorry, I encountered an error while processing your request: "
  ++ last_error.
Definition no_response_msg : str :=
  lit "I'm sorry, I didn't receive a proper response. Please try again.".
Definition no_thread_msg : str :=
  lit "Sorry, I couldn't start a new conversation. Please try again.".

(** The [try] block of [send_message_streaming] together with its
    [except] clause. *)
Definition guarded_request (content target_thread_id : str)
  : Gen AzureAgentClient unit :=
  try_except
    (_ <- call (messages_create service target_thread_id (lit "user") content) ;;
     agent <- _get_agent ;;
     run <- call (runs_create_and_process service target_thread_id
                    (agent_ident agent)) ;;
     if str_eqb (status run) (lit "failed") then
       yield (run_failed_msg (last_error run))
     else
       messages <- call (messages_list service target_thread_id) ;;
       match latest_assistant_response messages None with
       | Some ((_ :: _) as latest_response) => yield latest_response
       | _ => yield no_response_msg
       end)
    (fun e => yield (run_failed_msg e)).

(** [self.send_message_streaming(content, thread_id)] *)
Definition send_message_streaming (content : str) (thread_id : option str)
  : Gen AzureAgentClient unit :=
  match thread_id with
  | Some ((_ :: _) as target_thread_id) =>
      guarded_request content target_thread_id
  | _ =>
      self <- get ;;
      match current_thread self with
      | Some thread => guarded_request content (id thread)
      | None =>
          _ <- create_new_conversation ;;
          self <- get ;;
          match current_thread self with
          | Some {| id := (_ :: _) as target_thread_id |} =>
              guarded_request content target_thread_id
          | _ => yield no_thread_msg
          end
      end
  end.

Definition DEFAULT_ENDPOINT : str :=
  lit "https://hackathon-group7-resource.services.ai.azure.com/api/projects/hackathon-group7".
Definition DEFAULT_AGENT_ID : str := lit "asst_Npta2BcwtSASqC4SLTHSsQUZ".

(** [get_azure_client()]; the state is the module variable [_client]. *)
Definition get_azure_client : Gen (option AzureAgentClient) AzureAgentClient :=
  _client <- get ;;
  match _client with
  | Some client => ret client
  | None =>
      _ <- call (project_client service DEFAULT_ENDPOINT) ;;
      let client := mkClient DEFAULT_ENDPOINT DEFAULT_AGENT_ID None None in
      _ <- put (Some client) ;;
      ret client
  end.

(** A method run on the object the module variable refers to. *)
Definition on_client {A} (client : AzureAgentClient)
           (m : Gen AzureAgentClient A) : Gen (option AzureAgentClient) A :=
  fun _ => match m client with (r, client') => (r, Some client') end.

(** [send_message_to_agent_streaming(content)]: every chunk of the client
    is yielded again. *)
Definition send_message_to_agent_streaming (content : str)
  : Gen (option AzureAgentClient) unit :=
  client <- get_azure_client ;;
  on_client client (send_message_streaming content None).

(** The stream a consumer observes when it iterates the generator. *)
Definition stream_of {S} (g : Gen S unit) (s : S) : Chat.Stream :=
  match g s with
  | ((ys, Returns _), _) => Chat.mkStream ys None
  | ((ys, Raises e), _) => Chat.mkStream ys (Some e)
  end.

(** ** The other requests of the client *)

(** A dict literal with string keys and values, in the order of its
    keys. *)
Definition Dict : Type := list (str * str).

(** [d.get(key)] *)
Fixpoint dict_get (key : str) (d : Dict) : option str :=
  match d with
  | [] => None
  | (k, v) :: d' => if str_eqb k key then Some v else dict_get key d'
  end.

(** [d[key]]: [KeyError] on a missing key. *)
Definition subscript (d : Dict) (key : str) : outcome str :=
  match dict_get key d with
  | Some v => Returns v
  | None => Raises (lit "KeyError")
  end.

Definition error_reply (error response : str) : Dict :=
  [(lit "status", lit "error"); (lit "error", error);
   (lit "response", response)].

Definition success_reply (response : str) : Dict :=
  [(lit "status", lit "success"); (lit "response", response)].

Definition generic_error_msg : str :=
  lit "Sorry, I encountered an error while processing your request.".

(** The [try] block of [send_message] together with its [except]
    clause. *)
Definition guarded_message (content target_thread_id : str)
  : Gen AzureAgentClient Dict :=
  try_except
    (_ <- call (messages_create service target_thread_id (lit "user") content) ;;
     agent <- _get_agent ;;
     run <- call (runs_create_and_process service target_thread_id
                    (agent_ident agent)) ;;
     if str_eqb (status run) (lit "failed") then
       ret (error_reply (lit "Agent run failed: " ++ last_error run)
                        generic_error_msg)
     else
       messages <- call (messages_list service target_thread_id) ;;
       match latest_assistant_response messages None with
       | Some ((_ :: _) as latest_response) =>
           ret (success_reply latest_response)
       | _ => ret (error_reply (lit "No response received from agent")
                               no_response_msg)
       end)
    (fun e => ret (error_reply (lit "Error communicating with agent: " ++ e)
                               generic_error_msg)).

(** [self.send_message(content, thread_id)] *)
Definition send_message (content : str) (thread_id : option str)
  : Gen AzureAgentClient Dict :=
  match thread_id with
  | Some ((_ :: _) as target_thread_id) =>
      guarded_message content target_thread_id
  | _ =>
      self <- get ;;
      match current_thread self with
      | Some thread => guarded_message content (id thread)
      | None =>
          _ <- create_new_conversation ;;
          self <- get ;;
          match current_thread self with
          | Some {| id := (_ :: _) as target_thread_id |} =>
              guarded_message content target_thread_id
          | _ => ret (error_reply
                        (lit "Failed to create conversation thread")
                        no_thread_msg)
          end
      end
  end.

(** The loop of [get_conversation_history]: one entry, with the keys
    [role] and [content], for every message that has a text part. *)
Fixpoint history_entries (messages : list AgentMessage)
         (history : Chat.History) : Chat.History :=
  match messages with
  | [] => history
  | msg :: rest =>
      history_entries rest
        (match List.rev (text_messages msg) with
         | value :: _ => history ++ [Chat.mkEntry (role msg) value]
         | [] => history
         end)
  end.

(** [self.get_conversation_history(thread_id)] *)
Definition get_conversation_history (thread_id : option str)
  : Gen AzureAgentClient Chat.History :=
  let listing (target_thread_id : str) : Gen AzureAgentClient Chat.History :=
    try_except
      (messages <- call (messages_list service target_thread_id) ;;
       ret (history_entries messages []))
      (fun _ => ret []) in
  match thread_id with
  | Some ((_ :: _) as target_thread_id) => listing target_thread_id
  | _ =>
      self <- get ;;
      match current_thread self with
      | Some thread => listing (id thread)
      | None => ret []
      end
  end.

(** [send_message_to_agent_async(content)] *)
Definition send_message_to_agent_async (content : str)
  : Gen (option AzureAgentClient) str :=
  client <- get_azure_client ;;
  result <- on_client client (send_message content None) ;;
  call (subscript result (lit "response")).

(** [create_new_conversation_async()] *)
Definition create_new_conversation_async
  : Gen (option AzureAgentClient) str :=
  client <- get_azure_client ;;
  on_client client create_new_conversation.

End Requests.
End Azure.

(** One turn of the application: [bot] fed by the streaming interface. *)
Definition turn (score : str -> str -> Q) (service : Azure.Service)
           (_client : option Azure.AzureAgentClient) (fs : Fs.FileSystem)
           (history : Chat.History) : Chat.Turn :=
  Chat.bot score
    (fun content =>
       Azure.stream_of
         (Azure.send_message_to_agent_streaming service content) _client)
    fs history.

(* ================================================================== *)
(** * The vocabulary of the specification *)
(* ================================================================== *)

Module Spec.
Import PathLib Chat.

(** ** Occurrences of a substring *)

(** [old] occurs in [s] between [pre] and [post], and nowhere further to
    the left. *)
Definition first_occurrence (old s pre post : str) : Prop :=
  s = pre ++ old ++ post /\
  forall pre' post', s = pre' ++ old ++ post' -> length pre <= length pre'.

Definition no_occurrence (old s : str) : Prop :=
  forall pre post, s <> pre ++ old ++ post.

(** [s'] is [s] with the first occurrence of [old] replaced by [new]; a
    string without occurrence is left as it is. *)
Definition replaced_first (old new s s' : str) : Prop :=
  (exists pre post, first_occurrence old s pre post /\ s' = pre ++ new ++ post)
  \/ (no_occurrence old s /\ s' = s).

(** The id [source-card-{index}] of the card of the link at position
    [index]. *)
Definition card_id (index : nat) : str := lit "source-card-" ++ str_of_nat index.

(** A text between double quotes. *)
Definition quoted (s : str) : str := [c_dquote] ++ s ++ [c_dquote].

(** The cards of a link sequence: one per link, numbered from 0. *)
Definition numbered_cards (links_info : list LinkInfo) : list str :=
  map (fun p => card_html (fst p) (snd p))
      (combine (seq 0 (length links_info)) links_info).

(** ** The resolver *)

(** The best similarity, as the library reports it, between [target] and
    the stems of the inventory; an empty inventory has none. *)
Fixpoint best_score (score : str -> str -> Q) (target : str)
         (files : Inventory) : option Z :=
  match files with
  | [] => None
  | f :: files' =>
      match best_score score target files' with
      | None => Some (Fuzz.reported score target (name_without_ext f))
      | Some m =>
          Some (Z.max (Fuzz.reported score target (name_without_ext f)) m)
      end
  end.

(** ** The extractor *)

(** The last segment of a slash-separated URL path, ignoring empty
    segments and single dots; empty when there is none. *)
Definition last_segment (url : str) : str :=
  last (filter (fun x => negb (str_eqb x []) && negb (str_eqb x [c_dot]))
               (split_on c_slash url)) [].

(** The candidate filename of a link. *)
Definition candidate (link_text url : str) : str :=
  let segment := last_segment url in
  match segment with
  | [] => link_text
  | _ => if contains c_dot segment then segment else link_text
  end.

(** The text before the first dot. *)
Definition before_first_dot (s : str) : str :=
  fst (span (fun c => negb (N.eqb c c_dot)) s).

(** *** Percent-decoding *)

(** The place of a character in a text, counted from 0. *)
Fixpoint position (c : char) (s : str) : option N :=
  match s with
  | [] => None
  | x :: s' =>
      if N.eqb x c then Some 0%N
      else match position c s' with
           | Some i => Some (N.succ i)
           | None => None
           end
  end.

(** The value of a hexadecimal digit, in either case. *)
Definition hex_digit (c : char) : option N :=
  match position c (lit "0123456789abcdef") with
  | Some d => Some d
  | None =>
      match position c (lit "ABCDEF") with
      | Some d => Some (10 + d)%N
      | None => None
      end
  end.

(** Percent-decoding: a percent sign followed by two hexadecimal digits
    stands for the character with that code, everything else for
    itself. *)
Fixpoint percent_decoded (s : str) : str :=
  match s with
  | [] => []
  | c :: rest =>
      if N.eqb c c_percent then
        match rest with
        | h :: l :: rest' =>
            match hex_digit h, hex_digit l with
            | Some a, Some b => (16 * a + b)%N :: percent_decoded rest'
            | _, _ => c :: percent_decoded rest
            end
        | _ => c :: percent_decoded rest
        end
      else c :: percent_decoded rest
  end.

(** Every escape of the text stands for an ASCII character. *)
Fixpoint ascii_escapes (s : str) : bool :=
  match s with
  | [] => true
  | c :: rest =>
      if N.eqb c c_percent then
        match rest with
        | h :: l :: rest' =>
            match hex_digit h, hex_digit l with
            | Some a, Some b => (16 * a + b <? 128)%N && ascii_escapes rest'
            | _, _ => ascii_escapes rest
            end
        | _ => ascii_escapes rest
        end
      else ascii_escapes rest
  end.

(** The record of the specification for one link, resolved against
    [inventory]. *)
Definition extracted_link (score : str -> str -> Q)
           (inventory : option Inventory) (link : str * str) : LinkInfo :=
  let (link_text, url) := link in
  let decoded := UrlLib.unquote (candidate link_text url) in
  let resolved := find_best_match score decoded inventory in
  mkLink (before_first_dot decoded)
         (match resolved with
          | Some p => lit "/gradio_api/file=" ++ p
          | None => url
          end)
         ([c_lbracket] ++ link_text ++ [c_rbracket; c_lparen] ++ url ++ [c_rparen])
         link_text
         (match resolved with Some _ => true | None => false end).

Definition external (link : str * str) : bool := is_external (snd link).

(** [record] is the record of the link [[link_text](url)]: the candidate
    filename is decoded (escapes of ASCII characters as [percent_decoded]
    tells), the decoded name is what the resolver receives, the [filename]
    field is its part before the first dot, and the [url] field is the
    file-serving reference of the resolved path, or the URL of the link. *)
Definition describes (score : str -> str -> Q) (inventory : option Inventory)
           (link_text url : str) (record : LinkInfo) : Prop :=
  let decoded := UrlLib.unquote (candidate link_text url) in
  (ascii_escapes (candidate link_text url) = true ->
   decoded = percent_decoded (candidate link_text url)) /\
  Chat.text record = link_text /\
  original_link record
  = [c_lbracket] ++ link_text ++ [c_rbracket; c_lparen] ++ url ++ [c_rparen] /\
  filename record = before_first_dot decoded /\
  match find_best_match score decoded inventory with
  | Some resolved =>
      Chat.url record = lit "/gradio_api/file=" ++ resolved /\
      fuzzy_matched record = true
  | None => Chat.url record = url /\ fuzzy_matched record = false
  end.

(** The inventory of one extraction call. *)
Definition inventory_of (fs : Fs.FileSystem) : option Inventory :=
  match fst (scan_files_directory default_files_directory fs) with
  | Returns inventory => inventory
  | Raises _ => None
  end.

(** ** The turn controller *)

(** The histories published while the chunks arrive: after the [k]-th chunk
    the assistant entry holds the first [k] chunks. *)
Definition partial_turns (history : History) (cs : list str) : list History :=
  map (fun k => history
                ++ [mkEntry (lit "assistant") (concat (firstn k cs))])
      (seq 1 (length cs)).

(** ** Messages given by their parts *)

(** A message as a sequence of stretches of prose and of markdown links. *)
Inductive segment : Type :=
| Prose (s : str)
| Link (link_text url : str).

Definition render_segment (sg : segment) : str :=
  match sg with
  | Prose s => s
  | Link link_text url => markdown_of link_text url
  end.

Definition render (segments : list segment) : str :=
  concat (map render_segment segments).

(** Without opening bracket. *)
Definition plain (s : str) : bool := negb (contains c_lbracket s).

(** The text and the URL of a link are not empty and hold no opening
    bracket, the text no closing bracket, the URL no closing parenthesis. *)
Definition well_formed_link (link_text url : str) : bool :=
  negb (str_eqb link_text []) && negb (str_eqb url [])
  && plain link_text && plain url
  && negb (contains c_rbracket link_text) && negb (contains c_rparen url).

(** The prose holds no opening bracket and the links are well formed. *)
Definition shaped (sg : segment) : bool :=
  match sg with
  | Prose s => plain s
  | Link link_text url => well_formed_link link_text url
  end.

(** The prose holds no opening bracket, the links are well formed, and the
    links that are not external hold no percent sign. *)
Definition well_formed (sg : segment) : bool :=
  match sg with
  | Prose s => plain s
  | Link link_text url =>
      well_formed_link link_text url
      && (is_external url
          || (negb (contains c_percent link_text)
              && negb (contains c_percent url)))
  end.

Definition links_of (segments : list segment) : list (str * str) :=
  flat_map (fun sg => match sg with
                      | Prose _ => []
                      | Link link_text url => [(link_text, url)]
                      end) segments.

(** The message in which the links that are not external, numbered from
    [i] in their order, have become anchor links; the prose and the
    external links are as they were. *)
Fixpoint anchored (i : nat) (segments : list segment) : list segment :=
  match segments with
  | [] => []
  | Prose s :: rest => Prose s :: anchored i rest
  | Link link_text url :: rest =>
      if is_external url then Link link_text url :: anchored i rest
      else Prose (anchor_link i link_text) :: anchored (S i) rest
  end.

(** A stretch of text in which no replacement of a link that is not
    external can start, whatever follows it. *)
Definition inert (p : str) : Prop :=
  forall t u new rest,
    well_formed_link t u = true -> is_external u = false ->
    replace_first (markdown_of t u) new (p ++ rest)
    = p ++ replace_first (markdown_of t u) new rest.

(** Extraction followed by the rewrite step, as [bot] applies them to the
    final content of the assistant entry: a message without extracted link
    stays as it is. *)
Definition rewrite_pass (score : str -> str -> Q) (fs : Fs.FileSystem)
           (message : str) : str :=
  match fst (extract_markdown_links score message fs) with
  | Returns (link :: links) => rewrite_message message (link :: links)
  | _ => message
  end.

(** ** The streaming interface *)

(** The agent a request runs with: the cached one, or the one the service
    returns. *)
Definition agent_of (service : Azure.Service)
           (self : Azure.AzureAgentClient) : outcome Azure.Agent :=
  match Azure._agent self with
  | Some agent => Returns agent
  | None => Azure.agents_get_agent service (Azure.agent_id self)
  end.

(** The stream of one call of the interface. *)
Definition agent_stream (service : Azure.Service)
           (_client : option Azure.AzureAgentClient) (content : str) : Stream :=
  Azure.stream_of (Azure.send_message_to_agent_streaming service content)
                  _client.

(** The stream ended with an exception that was raised before the
    request: by the construction of the client or by the creation of the
    thread. *)
Definition raised_before_request (service : Azure.Service) (e : str) : Prop :=
  Azure.project_client service Azure.DEFAULT_ENDPOINT = Raises e \/
  Azure.threads_create service = Raises e.

(** The client of a call: the one of the module variable, or a new one. *)
Definition client_of (service : Azure.Service)
           (_client : option Azure.AzureAgentClient)
  : outcome Azure.AzureAgentClient :=
  match _client with
  | Some client => Returns client
  | None =>
      match Azure.project_client service Azure.DEFAULT_ENDPOINT with
      | Returns _ =>
          Returns (Azure.mkClient Azure.DEFAULT_ENDPOINT
                                  Azure.DEFAULT_AGENT_ID None None)
      | Raises e => Raises e
      end
  end.

(** The client and the thread the request runs on, when the call gets as
    far as the request: the current thread of the client, or a new thread
    with a non-empty id. *)
Definition request_context (service : Azure.Service)
           (_client : option Azure.AzureAgentClient)
  : option (Azure.AzureAgentClient * str) :=
  match client_of service _client with
  | Raises _ => None
  | Returns client =>
      match Azure.current_thread client with
      | Some thread => Some (client, Azure.id thread)
      | None =>
          match Azure.threads_create service with
          | Returns thread =>
              match Azure.id thread with
              | [] => None
              | _ :: _ =>
                  Some (Azure.mkClient (Azure.endpoint client)
                                       (Azure.agent_id client)
                                       (Some thread) (Azure._agent client),
                        Azure.id thread)
              end
          | Raises _ => None
          end
      end
  end.

(** The ways a request on thread [t] fails, each with the text that
    reports it. *)
Inductive request_failure (service : Azure.Service)
          (self : Azure.AzureAgentClient) (content t : str) : str -> Prop :=
| message_not_created e :
    Azure.messages_create service t (lit "user") content = Raises e ->
    request_failure service self content t (Azure.run_failed_msg e)
| agent_not_found e :
    Azure.messages_create service t (lit "user") content = Returns tt ->
    agent_of service self = Raises e ->
    request_failure service self content t (Azure.run_failed_msg e)
| run_raises agent e :
    Azure.messages_create service t (lit "user") content = Returns tt ->
    agent_of service self = Returns agent ->
    Azure.runs_create_and_process service t (Azure.agent_ident agent)
      = Raises e ->
    request_failure service self content t (Azure.run_failed_msg e)
| run_failed agent run :
    Azure.messages_create service t (lit "user") content = Returns tt ->
    agent_of service self = Returns agent ->
    Azure.runs_create_and_process service t (Azure.agent_ident agent)
      = Returns run ->
    Azure.status run = lit "failed" ->
    request_failure service self content t
                    (Azure.run_failed_msg (Azure.last_error run))
| listing_raises agent run e :
    Azure.messages_create service t (lit "user") content = Returns tt ->
    agent_of service self = Returns agent ->
    Azure.runs_create_and_process service t (Azure.agent_ident agent)
      = Returns run ->
    Azure.status run <> lit "failed" ->
    Azure.messages_list service t = Raises e ->
    request_failure service self content t (Azure.run_failed_msg e)
| no_assistant_response agent run messages :
    Azure.messages_create service t (lit "user") content = Returns tt ->
    agent_of service self = Returns agent ->
    Azure.runs_create_and_process service t (Azure.agent_ident agent)
      = Returns run ->
    Azure.status run <> lit "failed" ->
    Azure.messages_list service t = Returns messages ->
    (Azure.latest_assistant_response messages None = None \/
     Azure.latest_assistant_response messages None = Some []) ->
    request_failure service self content t Azure.no_response_msg.

(** The request succeeds with the assistant reply [reply]. *)
Definition request_reply (service : Azure.Service)
           (self : Azure.AzureAgentClient) (content t reply : str) : Prop :=
  exists agent run messages,
    Azure.messages_create service t (lit "user") content = Returns tt /\
    agent_of service self = Returns agent /\
    Azure.runs_create_and_process service t (Azure.agent_ident agent)
      = Returns run /\
    Azure.status run <> lit "failed" /\
    Azure.messages_list service t = Returns messages /\
    Azure.latest_assistant_response messages None = Some reply /\
    reply <> [].

(** The turn is published once more after the chunks: the stream raised,
    or the final content holds a link that is not external. *)
Definition republished (stream : Stream) : bool :=
  match ending stream with
  | Some _ => true
  | None =>
      match filter (fun m => negb (external m))
                   (Re.findall (concat (chunks stream))) with
      | [] => false
      | _ :: _ => true
      end
  end.

(** ** The inventory and its records *)

(** The entry is reported as a regular file. *)
Definition is_regular (fs : Fs.FileSystem) (entry : str) : bool :=
  match Fs.fs_is_file fs (Path entry) with
  | Returns true => true
  | _ => false
  end.

(** The record of an entry whose path is relative. *)
Definition file_record (entry : str) : FileRecord :=
  mkFile (to_str (mkPath [] (tail (Path entry))))
         (stem (Path entry))
         (name (Path entry)).

(** ** The generated markup *)

(** The characters that open or close a tag or an attribute value. *)
Definition markup (c : char) : bool :=
  N.eqb c c_lt || N.eqb c c_gt || N.eqb c c_dquote || N.eqb c c_squote.

(** A link without content. *)
Definition blank_link : LinkInfo := mkLink [] [] [] [] false.

(** ** The conversation *)

(** The message is an assistant message with at least one text part. *)
Definition answers (msg : Azure.AgentMessage) : bool :=
  str_eqb (Azure.role msg) (lit "assistant")
  && negb (match Azure.text_messages msg with [] => true | _ => false end).

(** The entries of the messages that have a text part, each with the last
    text part as its content. *)
Definition text_entries (messages : list Azure.AgentMessage) : History :=
  flat_map (fun msg => match List.rev (Azure.text_messages msg) with
                       | value :: _ => [mkEntry (Azure.role msg) value]
                       | [] => []
                       end) messages.

(** The content of the last entry of the assistant. *)
Definition last_assistant_content (history : History) : option str :=
  match List.rev (filter (fun e => str_eqb (role e) (lit "assistant"))
                         history) with
  | e :: _ => Some (content e)
  | [] => None
  end.

(** The thread whose history is read: the one given, or the current one
    of the client. *)
Definition history_thread (thread_id : option str)
           (self : Azure.AzureAgentClient) : option str :=
  match thread_id with
  | Some (c :: t) => Some (c :: t)
  | _ => option_map Azure.id (Azure.current_thread self)
  end.

(** The three texts [send_message] answers with when it fails. *)
Definition failure_responses : list str :=
  [Azure.generic_error_msg; Azure.no_response_msg; Azure.no_thread_msg].

End Spec.

(* ================================================================== *)
(** * Sample inputs *)
(* ================================================================== *)

Module Sample.
Import PathLib.

(** A scorer for the examples: 100 for identical strings, 0 otherwise.
    The scorers of the library give the same on identical strings and on
    strings without a common character, the only pairs it is used on. *)
Definition exact_score (query choice : str) : Q :=
  if str_eqb query choice then 100%Q else 0%Q.

(** A scorer with the ratios 2*16/34 and 2*17/36, in percent, for two
    names: 94.12 and 94.44, which both round to 94. *)
Definition close_score (query choice : str) : Q :=
  if str_eqb choice (lit "annualreport2024") then (1600 # 17)%Q
  else if str_eqb choice (lit "annual_report_2023") then (850 # 9)%Q
  else 0%Q.

Definition annual_2024 : Chat.FileRecord :=
  Chat.mkFile (lit "public/files/annualreport2024.pdf")
              (lit "annualreport2024") (lit "annualreport2024.pdf").
Definition annual_2023 : Chat.FileRecord :=
  Chat.mkFile (lit "public/files/annual_report_2023.pdf")
              (lit "annual_report_2023") (lit "annual_report_2023.pdf").

(** The directory [public/files/] does not exist. *)
Definition no_directory : Fs.FileSystem :=
  Fs.mkFs (fun _ => Returns false)
          (fun _ => ([], None))
          (fun _ => Returns false).

(** Two files with the same stem in two subdirectories. *)
Definition two_reports : Fs.FileSystem :=
  Fs.mkFs (fun _ => Returns true)
          (fun _ => ([lit "public/files/a"; lit "public/files/a/report.pdf";
                      lit "public/files/b"; lit "public/files/b/report.pdf"],
                     None))
          (fun p => Returns (contains c_dot (name p))).

Definition report_a : Chat.FileRecord :=
  Chat.mkFile (lit "public/files/a/report.pdf") (lit "report")
              (lit "report.pdf").
Definition report_b : Chat.FileRecord :=
  Chat.mkFile (lit "public/files/b/report.pdf") (lit "report")
              (lit "report.pdf").

Definition summary_a : Chat.FileRecord :=
  Chat.mkFile (lit "public/files/a/summary.pdf") (lit "summary")
              (lit "summary.pdf").

(** A service that answers with a link to a file. *)
Definition answering : Azure.Service :=
  Azure.mkService
    (fun _ => Returns tt)
    (Returns (Azure.mkThread (lit "thread_1")))
    (fun _ _ _ => Returns tt)
    (fun _ => Returns (Azure.mkAgent (lit "asst_1")))
    (fun _ _ => Returns (Azure.mkRun (lit "completed") []))
    (fun _ => Returns
                [Azure.mkMessage (lit "user") [lit "Where is the report?"];
                 Azure.mkMessage (lit "assistant")
                                 [lit "Check [this](report.pdf)"]]).

(** A service whose run reports [failed]. *)
Definition failing_run : Azure.Service :=
  Azure.mkService
    (fun _ => Returns tt)
    (Returns (Azure.mkThread (lit "thread_1")))
    (fun _ _ _ => Returns tt)
    (fun _ => Returns (Azure.mkAgent (lit "asst_1")))
    (fun _ _ => Returns (Azure.mkRun (lit "failed") (lit "rate limit")))
    (fun _ => Returns []).

(** A service that cannot create a thread. *)
Definition no_thread : Azure.Service :=
  Azure.mkService
    (fun _ => Returns tt)
    (Raises (lit "connection refused"))
    (fun _ _ _ => Returns tt)
    (fun _ => Returns (Azure.mkAgent (lit "asst_1")))
    (fun _ _ => Returns (Azure.mkRun (lit "completed") []))
    (fun _ => Returns []).

(** An agent stream that raises after one chunk. *)
Definition broken_stream (content : str) : Chat.Stream :=
  Chat.mkStream [lit "Here is"] (Some (lit "connection reset")).

Definition one_question : Chat.History :=
  [Chat.mkEntry (lit "user") (lit "Where is the report?")].

(** An image that links to a file: the pattern matches the image, whose
    text starts after the first bracket, and leaves the target of the link
    behind it. *)
Definition nested_message : str :=
  lit "[![diagram](diagram.png)](docs/overview.pdf)".

(** An external link whose URL holds the markdown of the link that
    follows it. *)
Definition embedded_message : str :=
  lit "[t](http://e/[a](b.pdf) [a](b.pdf)".

(** Prose, a link to a file and an external link. *)
Definition tidy_message : list Spec.segment :=
  [Spec.Prose (lit "See ");
   Spec.Link (lit "the report") (lit "docs/report.pdf");
   Spec.Prose (lit " or ");
   Spec.Link (lit "the site") (lit "https://example.org/a")].

(** A message whose own markup holds the id of the first card. *)
Definition message_with_id : str :=
  lit "<b id=" ++ Spec.quoted (lit "source-card-0")
  ++ lit ">Sources</b> [report](a.pdf)".

(** A walk that reports a regular file by an absolute path. *)
Definition absolute_walk : Fs.FileSystem :=
  Fs.mkFs (fun _ => Returns true)
          (fun _ => ([lit "/srv/files/report.pdf"], None))
          (fun _ => Returns true).

(** The record of the link of [answering], resolved in [two_reports]. *)
Definition resolved_record : Chat.LinkInfo :=
  Chat.mkLink (lit "report")
              (lit "/gradio_api/file=public/files/a/report.pdf")
              (lit "[this](report.pdf)") (lit "this") true.

(** A client that has neither a thread nor an agent yet. *)
Definition new_client : Azure.AzureAgentClient :=
  Azure.mkClient Azure.DEFAULT_ENDPOINT Azure.DEFAULT_AGENT_ID None None.

End Sample.

(* ================================================================== *)
(** * Properties *)
(* ================================================================== *)

Unset Implicit Arguments.

(** ** Strings *)

Section StringFacts.

Lemma str_eqb_eq (a b : str) : str_eqb a b = true <-> a = b.
Proof.
  revert b; induction a as [|x a IH]; intros [|y b]; simpl; split;
    try congruence; try reflexivity.
  - intros H; apply andb_true_iff in H as [Hx Hr].
    apply N.eqb_eq in Hx; apply IH in Hr; congruence.
  - intros H; injection H as -> ->. rewrite N.eqb_refl. now apply IH.
Qed.

Lemma str_eqb_refl (a : str) : str_eqb a a = true.
Proof. now apply str_eqb_eq. Qed.

Lemma str_eqb_neq (a b : str) : str_eqb a b = false <-> a <> b.
Proof.
  split.
  - intros H E. apply str_eqb_eq in E. congruence.
  - intros H. destruct (str_eqb a b) eqn:E; [|reflexivity].
    apply str_eqb_eq in E. contradiction.
Qed.

Lemma startswith_app (p r : str) : startswith p (p ++ r) = true.
Proof.
  induction p as [|c p IH]; simpl; [reflexivity|].
  now rewrite N.eqb_refl.
Qed.

Lemma startswith_inv (p s : str) :
  startswith p s = true -> exists r, s = p ++ r.
Proof.
  revert s; induction p as [|c p IH]; intros s H; simpl in *.
  - now exists s.
  - destruct s as [|d s]; [discriminate|].
    apply andb_true_iff in H as [Hc Hr]. apply N.eqb_eq in Hc. subst d.
    destruct (IH _ Hr) as [r ->]. now exists r.
Qed.

Lemma skipn_length_app (p r : str) : skipn (length p) (p ++ r) = r.
Proof. induction p; simpl; auto. Qed.

Lemma replace_first_unfold (old new s : str) :
  replace_first old new s =
  if startswith old s then new ++ skipn (length old) s
  else match s with
       | [] => []
       | c :: s' => c :: replace_first old new s'
       end.
Proof. destruct s; reflexivity. Qed.

(** The function finds the leftmost occurrence. *)
Lemma replace_first_found (old new s pre post : str) :
  Spec.first_occurrence old s pre post ->
  replace_first old new s = pre ++ new ++ post.
Proof.
  revert s; induction pre as [|c pre IH]; intros s [Hs Hmin].
  - subst s. simpl. rewrite replace_first_unfold.
    now rewrite startswith_app, skipn_length_app.
  - subst s. rewrite replace_first_unfold.
    destruct (startswith old ((c :: pre) ++ old ++ post)) eqn:E.
    + apply startswith_inv in E as [r Hr].
      specialize (Hmin [] r Hr). simpl in Hmin. lia.
    + simpl. f_equal. apply IH. split; [reflexivity|].
      intros pre' post' H.
      assert (Hc : (c :: pre) ++ old ++ post = (c :: pre') ++ old ++ post')
        by (simpl; now rewrite H).
      specialize (Hmin _ _ Hc). simpl in Hmin. lia.
Qed.

Lemma replace_first_absent (old new s : str) :
  Spec.no_occurrence old s -> replace_first old new s = s.
Proof.
  induction s as [|c s IH]; intros H; rewrite replace_first_unfold.
  - destruct (startswith old []) eqn:E; [|reflexivity].
    apply startswith_inv in E as [r Hr]. exfalso. now apply (H [] r).
  - destruct (startswith old (c :: s)) eqn:E.
    + apply startswith_inv in E as [r Hr]. exfalso. now apply (H [] r).
    + f_equal. apply IH. intros pre post Hs. apply (H (c :: pre) post).
      simpl. now rewrite Hs.
Qed.

(** Every string either has a first occurrence of [old] or none at all. *)
Lemma first_occurrence_or_none (old s : str) :
  (exists pre post, Spec.first_occurrence old s pre post)
  \/ Spec.no_occurrence old s.
Proof.
  induction s as [|c s IH].
  - destruct old as [|o old].
    + left. exists [], []. split; [reflexivity|]. intros; simpl; lia.
    + right. intros pre post H. destruct pre; discriminate.
  - destruct (startswith old (c :: s)) eqn:E.
    + apply startswith_inv in E as [r Hr]. left. exists [], r.
      split; [exact Hr|]. intros; simpl; lia.
    + destruct IH as [(pre & post & Hs & Hmin)|Hno].
      * left. exists (c :: pre), post. split; [simpl; now rewrite Hs|].
        intros pre' post' H. destruct pre' as [|c' pre'].
        -- simpl in H. rewrite H in E. now rewrite startswith_app in E.
        -- simpl in H. injection H as _ H. specialize (Hmin _ _ H).
           simpl. lia.
      * right. intros pre post H. destruct pre as [|c' pre].
        -- simpl in H. rewrite H in E. now rewrite startswith_app in E.
        -- simpl in H. injection H as _ H. now apply (Hno pre post).
Qed.

Lemma replace_first_spec (old new s : str) :
  Spec.replaced_first old new s (replace_first old new s).
Proof.
  destruct (first_occurrence_or_none old s) as [(pre & post & H)|H].
  - left. exists pre, post. split; [exact H|]. now apply replace_first_found.
  - right. split; [exact H|]. now apply replace_first_absent.
Qed.

End StringFacts.

(** ** Decimal numbering of the anchors *)

Section Anchors.
Import Chat.

Lemma lit_inj (a b : string) : lit a = lit b -> a = b.
Proof.
  unfold lit. intros H.
  rewrite <- (string_of_list_ascii_of_string a),
          <- (string_of_list_ascii_of_string b).
  f_equal.
  revert H. generalize (list_ascii_of_string a) (list_ascii_of_string b).
  induction l as [|x l IH]; intros [|y l']; simpl; try congruence.
  intros H. injection H as Hx Hl. f_equal; [|now apply IH].
  rewrite <- (ascii_N_embedding x), <- (ascii_N_embedding y). now f_equal.
Qed.

Lemma str_of_nat_inj (i j : nat) : str_of_nat i = str_of_nat j -> i = j.
Proof.
  unfold str_of_nat. intros H. apply lit_inj in H.
  assert (Hu : Nat.to_uint i = Nat.to_uint j).
  { pose proof (DecimalString.NilEmpty.usu (Nat.to_uint i)) as Hi.
    pose proof (DecimalString.NilEmpty.usu (Nat.to_uint j)) as Hj.
    rewrite H in Hi. rewrite Hi in Hj. now injection Hj. }
  rewrite <- (DecimalNat.Unsigned.of_to i), <- (DecimalNat.Unsigned.of_to j).
  now f_equal.
Qed.

Lemma anchor_id_inj (i j : nat) : anchor_id i = anchor_id j -> i = j.
Proof.
  unfold anchor_id. intros H. apply app_inv_head in H.
  now apply str_of_nat_inj.
Qed.

Lemma anchor_ids_distinct (start n : nat) :
  NoDup (map anchor_id (seq start n)).
Proof.
  revert start; induction n as [|n IH]; intros start; simpl.
  - constructor.
  - constructor; [|apply IH].
    intros H. apply in_map_iff in H as (j & Hj & Hin).
    apply anchor_id_inj in Hj. subst j.
    apply in_seq in Hin. lia.
Qed.

End Anchors.

(** ** The rewrite step *)

Section Rewrite.
Import Chat.

Lemma build_cards_acc (links_info : list LinkInfo) (i : nat) (acc : list str) :
  build_cards i links_info acc =
  acc ++ map (fun p => card_html (fst p) (snd p))
             (combine (seq i (length links_info)) links_info).
Proof.
  revert i acc; induction links_info as [|link rest IH]; intros i acc; simpl.
  - now rewrite app_nil_r.
  - rewrite IH, <- app_assoc. reflexivity.
Qed.

Lemma build_cards_numbered (links_info : list LinkInfo) :
  build_cards 0 links_info [] = Spec.numbered_cards links_info.
Proof. now rewrite build_cards_acc. Qed.

Lemma numbered_cards_nth (links_info : list LinkInfo) (start i : nat)
      (link : LinkInfo) :
  nth_error links_info i = Some link ->
  nth_error (map (fun p => card_html (fst p) (snd p))
                 (combine (seq start (length links_info)) links_info)) i
  = Some (card_html (start + i) link).
Proof.
  revert start i; induction links_info as [|l rest IH]; intros start i H.
  - destruct i; discriminate.
  - destruct i as [|i]; simpl in *.
    + injection H as ->. now rewrite Nat.add_0_r.
    + rewrite (IH (S start) i H). f_equal. f_equal. lia.
Qed.

(** The successive values of [updated_message]. *)
Lemma replace_links_trace (links_info : list LinkInfo) (i : nat) (message : str) :
  exists states,
    length states = S (length links_info) /\
    nth_error states 0 = Some message /\
    nth_error states (length links_info)
      = Some (replace_links i links_info message) /\
    forall k link,
      nth_error links_info k = Some link ->
      exists s s',
        nth_error states k = Some s /\
        nth_error states (S k) = Some s' /\
        Spec.replaced_first (original_link link)
                            (anchor_link (i + k) (text link)) s s'.
Proof.
  revert i message; induction links_info as [|l rest IH]; intros i message.
  - exists [message]. repeat split. intros k link H. destruct k; discriminate.
  - destruct (IH (S i)
                 (replace_first (original_link l) (anchor_link i (text l))
                                message))
      as (states & Hlen & Hhd & Hlast & Hstep).
    exists (message :: states). simpl. repeat split; auto.
    intros k link H. destruct k as [|k]; simpl in H.
    + injection H as ->. exists message.
      eexists. simpl. split; [reflexivity|]. split; [exact Hhd|].
      rewrite Nat.add_0_r. apply replace_first_spec.
    + destruct (Hstep k link H) as (s & s' & Hs & Hs' & Hrep).
      exists s, s'. simpl. repeat split; auto.
      now replace (i + S k) with (S i + k) by lia.
Qed.

End Rewrite.

(** ** The fuzzy resolver *)

Section Resolver.
Import PathLib Chat.

Variable score : str -> str -> Q.

Local Open Scope Z_scope.

(** *** Rounding *)

Lemma py_round_bounds (x : Q) :
  Qfloor x <= Fuzz.py_round x <= Qfloor x + 1.
Proof.
  unfold Fuzz.py_round.
  destruct (Qcompare _ _); [destruct (Z.even _)| |]; lia.
Qed.

(** Rounding keeps the order of the scores. *)
Lemma py_round_le (x y : Q) :
  (x <= y)%Q -> Fuzz.py_round x <= Fuzz.py_round y.
Proof.
  intros Hxy. pose proof (Qfloor_resp_le _ _ Hxy) as Hf.
  destruct (Z.eq_dec (Qfloor x) (Qfloor y)) as [E|N].
  - unfold Fuzz.py_round. rewrite <- E.
    destruct (Qcompare_spec (x - inject_Z (Qfloor x)) (1 # 2)),
             (Qcompare_spec (y - inject_Z (Qfloor x)) (1 # 2));
      try lia; try (destruct (Z.even _); lia); exfalso; lra.
  - pose proof (py_round_bounds x). pose proof (py_round_bounds y). lia.
Qed.

(** A score that is reported above the threshold reaches the cutoff. *)
Lemma py_round_cutoff (x : Q) : 60 < Fuzz.py_round x -> (0 <= x)%Q.
Proof.
  intros H. pose proof (py_round_bounds x) as Hb.
  pose proof (Qfloor_le x) as Hx.
  assert (H60 : (inject_Z 60 <= inject_Z (Qfloor x))%Q)
    by (rewrite <- Zle_Qle; lia).
  apply Qle_trans with (inject_Z 60); [discriminate|].
  now apply Qle_trans with (inject_Z (Qfloor x)).
Qed.

(** *** The selection *)

Lemma max_by_score_tail (b : str * Q) (post : list (str * Q)) :
  (forall y, In y post -> (snd y <= snd b)%Q) ->
  Fuzz.max_by_score b post = b.
Proof.
  induction post as [|x post IH]; intros H; simpl; [reflexivity|].
  assert (Hx : (snd x <= snd b)%Q) by (apply H; now left).
  destruct (Qcompare_spec (snd b) (snd x)) as [E|Hlt|Hgt];
    try (apply IH; intros y Hy; apply H; now right).
  exfalso. lra.
Qed.

(** The maximum is taken at the first element that reaches it. *)
Lemma max_by_score_first (pre post : list (str * Q)) (b best : str * Q) :
  (forall y, In y pre -> (snd y < snd b)%Q) ->
  (forall y, In y post -> (snd y <= snd b)%Q) ->
  (snd best < snd b)%Q ->
  Fuzz.max_by_score best (pre ++ b :: post) = b.
Proof.
  revert best; induction pre as [|x pre IH]; intros best Hpre Hpost Hbest;
    simpl.
  - destruct (Qcompare_spec (snd best) (snd b)) as [E|Hlt|Hgt];
      [exfalso; lra| |exfalso; lra].
    now apply max_by_score_tail.
  - assert (Hx : (snd x < snd b)%Q) by (apply Hpre; now left).
    assert (Hpre' : forall y, In y pre -> (snd y < snd b)%Q)
      by (intros y Hy; apply Hpre; now right).
    destruct (Qcompare_spec (snd best) (snd x)); now apply IH.
Qed.

Lemma max_by_score_in (l : list (str * Q)) (best : str * Q) :
  In (Fuzz.max_by_score best l) (best :: l) /\
  forall y, In y (best :: l) -> (snd y <= snd (Fuzz.max_by_score best l))%Q.
Proof.
  revert best; induction l as [|x l IH]; intros best; simpl.
  - split; [now left|]. intros y [<-|[]]. apply Qle_refl.
  - destruct (Qcompare_spec (snd best) (snd x)) as [E|Hlt|Hgt].
    + destruct (IH best) as [Hin Hmax]. split.
      * destruct Hin as [<-|Hin]; [now left|right; now right].
      * intros y [<-|[<-|Hy]].
        -- apply Hmax. now left.
        -- specialize (Hmax best (or_introl eq_refl)). lra.
        -- apply Hmax. now right.
    + destruct (IH x) as [Hin Hmax]. split.
      * right. exact Hin.
      * intros y [<-|Hy]; [|now apply Hmax].
        specialize (Hmax x (or_introl eq_refl)). lra.
    + destruct (IH best) as [Hin Hmax]. split.
      * destruct Hin as [<-|Hin]; [now left|right; now right].
      * intros y [<-|[<-|Hy]].
        -- apply Hmax. now left.
        -- specialize (Hmax best (or_introl eq_refl)). lra.
        -- apply Hmax. now right.
Qed.

Lemma in_scored_choices (query : str) (choices : list str) (b : str * Q) :
  In b (Fuzz.scored_choices score query choices) <->
  In (fst b) choices /\ snd b = score query (fst b) /\ (0 <= snd b)%Q.
Proof.
  unfold Fuzz.scored_choices. rewrite filter_In, in_map_iff. split.
  - intros [(c & <- & Hc) Hs]. simpl in *. apply Qle_bool_iff in Hs. auto.
  - intros (Hc & Hs & Hpos). split.
    + exists (fst b). split; [|exact Hc]. destruct b; simpl in *. now subst.
    + now apply Qle_bool_iff.
Qed.

Lemma rapidfuzz_extractOne_some (query : str) (choices : list str)
      (b : str * Q) :
  Fuzz.rapidfuzz_extractOne score query choices = Some b ->
  In b (Fuzz.scored_choices score query choices) /\
  forall y, In y (Fuzz.scored_choices score query choices) ->
            (snd y <= snd b)%Q.
Proof.
  unfold Fuzz.rapidfuzz_extractOne.
  destruct (Fuzz.scored_choices score query choices) as [|x l];
    [discriminate|].
  intros H. injection H as <-. apply max_by_score_in.
Qed.

Lemma rapidfuzz_extractOne_reaches (query : str) (choices : list str)
      (c : str) :
  In c choices -> (0 <= score query c)%Q ->
  exists b, Fuzz.rapidfuzz_extractOne score query choices = Some b /\
            (score query c <= snd b)%Q.
Proof.
  intros Hc Hpos.
  assert (Hin : In (c, score query c)
                   (Fuzz.scored_choices score query choices))
    by (apply in_scored_choices; simpl; auto).
  unfold Fuzz.rapidfuzz_extractOne.
  destruct (Fuzz.scored_choices score query choices) as [|x l];
    [contradiction|].
  eexists. split; [reflexivity|].
  now apply (proj2 (max_by_score_in l x) (c, score query c)).
Qed.

(** The result of the library: a choice that reaches the cutoff and whose
    unrounded score no other choice exceeds, with this score rounded. *)
Lemma extractOne_some (query : str) (choices : list str) (b : str * Z) :
  Fuzz.extractOne score query choices = Some b ->
  In (fst b) choices /\
  snd b = Fuzz.reported score query (fst b) /\
  (0 <= score query (fst b))%Q /\
  forall c, In c choices -> (score query c <= score query (fst b))%Q.
Proof.
  unfold Fuzz.extractOne.
  destruct (Fuzz.rapidfuzz_extractOne score query choices) as [[c s]|] eqn:E;
    [|discriminate].
  intros H. injection H as <-. cbn [fst snd].
  apply rapidfuzz_extractOne_some in E as [Hin Hmax].
  apply in_scored_choices in Hin as (Hc & Hs & Hpos). cbn [fst snd] in *.
  subst s. repeat split; auto.
  intros c' Hc'.
  destruct (Qlt_le_dec (score query c') 0) as [Hneg|Hpos'].
  - apply Qle_trans with 0%Q; [now apply Qlt_le_weak|exact Hpos].
  - apply (Hmax (c', score query c')). apply in_scored_choices.
    cbn [fst snd]. auto.
Qed.

Lemma extractOne_reaches (query : str) (choices : list str) (c : str) :
  In c choices -> (0 <= score query c)%Q ->
  exists b, Fuzz.extractOne score query choices = Some b /\
            Fuzz.reported score query c <= snd b.
Proof.
  intros Hc Hpos.
  destruct (rapidfuzz_extractOne_reaches query choices c Hc Hpos)
    as ([c' s] & E & Hle).
  unfold Fuzz.extractOne. rewrite E. eexists. split; [reflexivity|].
  cbn [snd] in *. now apply py_round_le.
Qed.

Lemma index_of_in (x : str) (names : list str) :
  In x names ->
  exists i, index_of x names = Some i /\ nth_error names i = Some x.
Proof.
  induction names as [|n names IH]; intros H; [contradiction|]. simpl.
  destruct (str_eqb n x) eqn:E.
  - apply str_eqb_eq in E. subst. now exists 0%nat.
  - destruct H as [->|H]; [now rewrite str_eqb_refl in E|].
    destruct (IH H) as (i & -> & Hi). now exists (S i).
Qed.

Lemma index_of_first (x : str) (before after : list str) :
  ~ In x before ->
  index_of x (before ++ x :: after) = Some (length before).
Proof.
  induction before as [|n before IH]; intros H; simpl.
  - now rewrite str_eqb_refl.
  - destruct (str_eqb n x) eqn:E.
    + apply str_eqb_eq in E. subst. exfalso. apply H. now left.
    + rewrite IH; [reflexivity|]. intros Hin. apply H. now right.
Qed.

Lemma best_score_upper (target : str) (files : Inventory) (f : FileRecord) :
  In f files ->
  exists m, Spec.best_score score target files = Some m /\
            Fuzz.reported score target (name_without_ext f) <= m.
Proof.
  induction files as [|g files IH]; intros H; [contradiction|]. simpl.
  destruct H as [->|H].
  - destruct (Spec.best_score score target files) as [m|]; eexists;
      (split; [reflexivity|lia]).
  - destruct (IH H) as (m & -> & Hm). eexists. split; [reflexivity|lia].
Qed.

Lemma best_score_attained (target : str) (files : Inventory) (m : Z) :
  Spec.best_score score target files = Some m ->
  exists f, In f files /\
            Fuzz.reported score target (name_without_ext f) = m.
Proof.
  revert m; induction files as [|g files IH]; simpl; intros m H;
    [discriminate|].
  destruct (Spec.best_score score target files) as [m'|].
  - injection H as <-.
    destruct (Z.max_spec (Fuzz.reported score target (name_without_ext g)) m')
      as [[Hlt E]|[Hle E]]; rewrite E.
    + destruct (IH m' eq_refl) as (f & Hf & Hs). exists f. auto.
    + exists g. auto.
  - injection H as <-. exists g. auto.
Qed.

(** What a successful resolution returns. *)
Lemma find_best_match_some (filename : str) (files : Inventory) (p : str) :
  find_best_match score filename (Some files) = Some p ->
  exists f, In f files /\ path f = p /\
            60 < Fuzz.reported score (stem (Path filename))
                               (name_without_ext f) /\
            forall g, In g files ->
                      (score (stem (Path filename)) (name_without_ext g)
                       <= score (stem (Path filename)) (name_without_ext f))%Q.
Proof.
  unfold find_best_match. destruct files as [|f0 files]; [discriminate|].
  set (all := f0 :: files). set (target := stem (Path filename)).
  destruct (Fuzz.extractOne score target (map name_without_ext all))
    as [b|] eqn:Eb; [|discriminate].
  destruct (Z.ltb_spec 60 (snd b)); [|discriminate].
  destruct (index_of (fst b) (map name_without_ext all)) as [i|] eqn:Ei;
    [|discriminate].
  destruct (nth_error all i) as [f|] eqn:Ef; [|discriminate].
  intros Hp. injection Hp as <-.
  apply extractOne_some in Eb as (Hc & Hs & _ & Hmax).
  destruct (index_of_in _ _ Hc) as (j & Hj & Hnth).
  rewrite Ei in Hj. injection Hj as <-.
  rewrite nth_error_map, Ef in Hnth. simpl in Hnth. injection Hnth as Hname.
  exists f. split; [now apply nth_error_In with i|]. split; [reflexivity|].
  rewrite Hname, <- Hs. split; [exact H|].
  intros g Hg. apply Hmax.
  exact (in_map name_without_ext all g Hg).
Qed.

Lemma find_best_match_reaches (filename : str) (files : Inventory)
      (f : FileRecord) :
  In f files ->
  60 < Fuzz.reported score (stem (Path filename)) (name_without_ext f) ->
  exists p, find_best_match score filename (Some files) = Some p.
Proof.
  intros Hf Hs. unfold find_best_match.
  destruct files as [|f0 files]; [contradiction|].
  set (all := f0 :: files) in *. set (target := stem (Path filename)) in *.
  destruct (extractOne_reaches target (map name_without_ext all)
                               (name_without_ext f)) as (b & Eb & Hb);
    [now apply in_map|now apply py_round_cutoff|].
  rewrite Eb. destruct (Z.ltb_spec 60 (snd b)); [|lia].
  apply extractOne_some in Eb as (Hc & _).
  destruct (index_of_in _ _ Hc) as (i & -> & Hnth).
  rewrite nth_error_map in Hnth.
  destruct (nth_error all i) as [g|]; [|discriminate]. now exists (path g).
Qed.

(** C2.  A path is returned exactly when the inventory is present and not
    empty and the best similarity score, as the library reports it, is
    strictly greater than 60; a best score of exactly 60 gives the absent
    result, and so does an empty or absent inventory. *)
Theorem find_best_match_threshold (filename : str)
        (file_list : option Inventory) :
  ((exists p, find_best_match score filename file_list = Some p) <->
   (exists files best,
       file_list = Some files /\ files <> [] /\
       Spec.best_score score (stem (Path filename)) files = Some best /\
       60 < best)) /\
  (forall files,
      Spec.best_score score (stem (Path filename)) files = Some 60 ->
      find_best_match score filename (Some files) = None) /\
  find_best_match score filename None = None /\
  find_best_match score filename (Some []) = None.
Proof.
  assert (Hiff : forall files,
             (exists p, find_best_match score filename (Some files) = Some p) <->
             exists best,
               files <> [] /\
               Spec.best_score score (stem (Path filename)) files = Some best /\
               60 < best).
  { intros files. split.
    - intros [p Hp].
      apply find_best_match_some in Hp as (f & Hf & _ & Hs & _).
      destruct (best_score_upper (stem (Path filename)) files f Hf)
        as (best & Hbest & Hle).
      exists best. split; [intros ->; contradiction|]. split; [exact Hbest|lia].
    - intros (best & _ & Hbest & Hs).
      destruct (best_score_attained (stem (Path filename)) files best Hbest)
        as (f & Hf & E).
      apply find_best_match_reaches with f; [exact Hf|lia]. }
  repeat split.
  - intros [p Hp]. destruct file_list as [files|]; [|discriminate].
    assert (H : exists p, find_best_match score filename (Some files) = Some p)
      by now exists p.
    apply Hiff in H as (best & H). exists files, best. tauto.
  - intros (files & best & -> & H). apply Hiff. now exists best.
  - intros files E.
    destruct (find_best_match score filename (Some files)) as [p|] eqn:Hp;
      [|reflexivity].
    assert (H : exists p, find_best_match score filename (Some files) = Some p)
      by now exists p.
    apply Hiff in H as (best & _ & Hbest & H). rewrite E in Hbest.
    injection Hbest as <-. lia.
Qed.

Lemma first_maximum_selected (pre post : list (str * Q)) (b : str * Q) :
  (forall y, In y pre -> (snd y < snd b)%Q) ->
  (forall y, In y post -> (snd y <= snd b)%Q) ->
  match pre ++ b :: post with
  | [] => None
  | x :: l => Some (Fuzz.max_by_score x l)
  end = Some b.
Proof.
  intros Hpre Hpost. destruct pre as [|x pre]; simpl; f_equal.
  - now apply max_by_score_tail.
  - apply max_by_score_first; auto.
    + intros y Hy. apply Hpre. now right.
    + apply Hpre. now left.
Qed.

(** C5, as amended.  Let [f] be the first entry of the inventory that
    attains the maximum of the unrounded similarity score (the entries
    before it score strictly less, the entries after it at most as much,
    so that any number of later entries may tie with it, with the same stem
    or another).  When that score, rounded as the library reports it,
    exceeds 60 the path of [f] is returned; otherwise the result is
    absent.  The order of the inventory decides between equal unrounded
    scores only: it does not decide between scores that are equal once
    rounded. *)
Theorem find_best_match_first_of_ties (filename : str)
        (before after : Inventory) (f : FileRecord) :
  (forall g, In g before ->
             (score (stem (Path filename)) (name_without_ext g)
              < score (stem (Path filename)) (name_without_ext f))%Q) ->
  (forall g, In g after ->
             (score (stem (Path filename)) (name_without_ext g)
              <= score (stem (Path filename)) (name_without_ext f))%Q) ->
  find_best_match score filename (Some (before ++ f :: after))
  = if 60 <? Fuzz.reported score (stem (Path filename)) (name_without_ext f)
    then Some (path f) else None.
Proof.
  set (target := stem (Path filename)).
  set (m := score target (name_without_ext f)).
  intros Hbefore Hafter.
  destruct (Z.ltb_spec 60 (Fuzz.reported score target (name_without_ext f)))
    as [Hm|Hm].
  - unfold find_best_match.
    destruct (before ++ f :: after) as [|f0 files] eqn:Eall;
      [destruct before; discriminate|].
    rewrite <- Eall. fold target.
    assert (Hpos : (0 <= m)%Q) by now apply py_round_cutoff.
    assert (Eb : Fuzz.extractOne score target
                   (map name_without_ext (before ++ f :: after))
                 = Some (name_without_ext f,
                         Fuzz.reported score target (name_without_ext f))).
    { unfold Fuzz.extractOne, Fuzz.rapidfuzz_extractOne, Fuzz.scored_choices.
      rewrite !map_app, filter_app. cbn [map filter snd].
      fold m. apply Qle_bool_iff in Hpos. rewrite Hpos.
      rewrite (first_maximum_selected _ _ (name_without_ext f, m));
        [reflexivity| |].
      - intros y Hy. apply filter_In in Hy as [Hy _].
        apply in_map_iff in Hy as (c & <- & Hc).
        apply in_map_iff in Hc as (g & <- & Hg). cbn [snd].
        now apply Hbefore.
      - intros y Hy. apply filter_In in Hy as [Hy _].
        apply in_map_iff in Hy as (c & <- & Hc).
        apply in_map_iff in Hc as (g & <- & Hg). cbn [snd].
        now apply Hafter. }
    rewrite Eb. cbn [fst snd].
    destruct (Z.ltb_spec 60 (Fuzz.reported score target (name_without_ext f)));
      [|lia].
    rewrite map_app. cbn [map]. rewrite index_of_first.
    + rewrite length_map, nth_error_app2, Nat.sub_diag by lia. reflexivity.
    + intros Hin. apply in_map_iff in Hin as (g & Hname & Hg).
      specialize (Hbefore g Hg). rewrite Hname in Hbefore.
      now apply Qlt_irrefl in Hbefore.
  - destruct (find_best_match score filename (Some (before ++ f :: after)))
      as [p|] eqn:Hp; [|reflexivity].
    apply find_best_match_some in Hp as (g & Hg & _ & Hs & _).
    fold target in Hs.
    assert (Hle : (score target (name_without_ext g) <= m)%Q).
    { apply in_app_or in Hg as [Hg|[<-|Hg]].
      - apply Qlt_le_weak. now apply Hbefore.
      - apply Qle_refl.
      - now apply Hafter. }
    apply py_round_le in Hle. unfold Fuzz.reported in *. fold m in Hm. lia.
Qed.

End Resolver.

(** ** The inventory scan *)

Section Scan.
Import PathLib Chat.

Ltac io := unfold Fs.bind, Fs.ret, Fs.raise, Fs.lift, Fs.try_except,
                  Fs.path_exists, Fs.path_is_file, Fs.path_rglob in *.

(** The loop only reads the file system. *)
Lemma scan_entries_reads (entries : list str) (all_files : Inventory)
      (fs : Fs.FileSystem) :
  snd (scan_entries entries all_files fs) = fs.
Proof.
  revert all_files; induction entries as [|entry rest IH]; intros all_files;
    simpl; io; [reflexivity|].
  destruct (Fs.fs_is_file fs (Path entry)) as [[|]|e]; simpl; auto.
  destruct (PathOps.relative_to (Path entry) _); simpl; auto.
Qed.

Lemma scan_entries_result (entries : list str) (all_files : Inventory)
      (fs : Fs.FileSystem) :
  scan_entries entries all_files fs
  = (fst (scan_entries entries all_files fs), fs).
Proof.
  rewrite <- (scan_entries_reads entries all_files fs) at 3.
  now destruct (scan_entries entries all_files fs).
Qed.

(** An entry whose [is_file] query raises makes the loop raise. *)
Lemma scan_entries_raises (entries : list str) (all_files : Inventory)
      (fs : Fs.FileSystem) (entry e : str) :
  In entry entries ->
  Fs.fs_is_file fs (Path entry) = Raises e ->
  exists e', fst (scan_entries entries all_files fs) = Raises e'.
Proof.
  revert all_files; induction entries as [|x rest IH]; intros all_files Hin He;
    [contradiction|].
  simpl; io. destruct Hin as [->|Hin].
  - rewrite He. now exists e.
  - destruct (Fs.fs_is_file fs (Path x)) as [[|]|ex]; simpl; eauto.
    destruct (PathOps.relative_to (Path x) _); simpl; eauto.
Qed.

(** Without regular file the accumulator stays as it is. *)
Lemma scan_entries_no_file (entries : list str) (all_files : Inventory)
      (fs : Fs.FileSystem) :
  (forall entry, In entry entries ->
                 Fs.fs_is_file fs (Path entry) = Returns false) ->
  scan_entries entries all_files fs = (Returns all_files, fs).
Proof.
  revert all_files; induction entries as [|x rest IH]; intros all_files H;
    simpl; io; [reflexivity|].
  rewrite (H x (or_introl eq_refl)). apply IH. intros entry Hin. apply H.
  now right.
Qed.

Lemma scan_files_directory_total (files_directory : str)
      (fs : Fs.FileSystem) :
  exists inventory,
    scan_files_directory files_directory fs = (Returns inventory, fs).
Proof.
  unfold scan_files_directory; io.
  destruct (Fs.fs_exists fs (Path files_directory)) as [[|]|e]; simpl; eauto.
  rewrite scan_entries_result.
  destruct (fst (scan_entries _ _ fs)) as [all_files|e]; eauto.
  destruct (snd (Fs.fs_rglob fs (Path files_directory))); eauto.
  destruct all_files; eauto.
Qed.

(** C8.  The scan never raises and leaves the file system as it found it:
    it always returns, with the file system unchanged; it returns the
    absent inventory when the directory does not exist, when the walk
    meets no regular file, and when any of its three queries raises (the
    existence test, the recursive walk, the test of an entry). *)
Theorem scan_files_directory_never_raises (files_directory : str)
        (fs : Fs.FileSystem) :
  (exists inventory,
      scan_files_directory files_directory fs = (Returns inventory, fs)) /\
  (Fs.fs_exists fs (Path files_directory) = Returns false ->
   scan_files_directory files_directory fs = (Returns None, fs)) /\
  ((forall entry,
       In entry (fst (Fs.fs_rglob fs (Path files_directory))) ->
       Fs.fs_is_file fs (Path entry) = Returns false) ->
   scan_files_directory files_directory fs = (Returns None, fs)) /\
  ((exists e, Fs.fs_exists fs (Path files_directory) = Raises e) \/
   (exists e, snd (Fs.fs_rglob fs (Path files_directory)) = Some e) \/
   (exists entry e,
       In entry (fst (Fs.fs_rglob fs (Path files_directory))) /\
       Fs.fs_is_file fs (Path entry) = Raises e) ->
   scan_files_directory files_directory fs = (Returns None, fs)).
Proof.
  split; [apply scan_files_directory_total|].
  split; [|split].
  - intros H. unfold scan_files_directory; io. now rewrite H.
  - intros H. unfold scan_files_directory; io.
    destruct (Fs.fs_exists fs (Path files_directory)) as [[|]|e]; simpl; auto.
    rewrite (scan_entries_no_file _ [] fs H).
    now destruct (snd (Fs.fs_rglob fs (Path files_directory))).
  - intros H. unfold scan_files_directory; io.
    destruct (Fs.fs_exists fs (Path files_directory)) as [[|]|e0] eqn:Ex;
      simpl; auto.
    rewrite scan_entries_result.
    destruct H as [[e He]|[[e He]|(entry & e & Hin & He)]].
    + discriminate.
    + rewrite He. now destruct (fst (scan_entries _ _ fs)).
    + destruct (scan_entries_raises _ [] fs entry e Hin He) as [e' ->].
      reflexivity.
Qed.

(** Every path of a scanned inventory is a non-empty string. *)
Lemma tail_components (p : str) : Forall (fun x => x <> []) (tail (Path p)).
Proof.
  unfold Path. destruct p as [|c p]; [constructor|].
  destruct (splitroot (c :: p)) as [r rel]. simpl.
  apply Forall_forall. intros x Hx. apply filter_In in Hx as [_ Hx].
  unfold is_component in Hx. apply andb_true_iff in Hx as [Hx _].
  intros ->. discriminate.
Qed.

Lemma to_str_relative_nonempty (t : list str) :
  Forall (fun x => x <> []) t -> to_str (mkPath [] t) <> [].
Proof.
  intros H. unfold to_str. simpl. destruct t as [|x t]; [discriminate|].
  inversion H as [|? ? Hx _]; subst. simpl.
  destruct x; [contradiction|]. destruct t; discriminate.
Qed.

Lemma relative_to_dot (p rel : PurePath) :
  PathOps.relative_to p (Path [c_dot]) = Returns rel ->
  rel = mkPath [] (tail p).
Proof.
  unfold PathOps.relative_to. cbn.
  destruct (str_eqb (root p) []); [|discriminate]. now intros [= <-].
Qed.

Lemma scan_entries_paths (entries : list str) (all_files inventory : Inventory)
      (fs : Fs.FileSystem) :
  Forall (fun f => path f <> []) all_files ->
  fst (scan_entries entries all_files fs) = Returns inventory ->
  Forall (fun f => path f <> []) inventory.
Proof.
  revert all_files; induction entries as [|x rest IH]; intros all_files Hall;
    simpl; io.
  - now intros [= <-].
  - destruct (Fs.fs_is_file fs (Path x)) as [[|]|e]; simpl;
      [|now apply IH|discriminate].
    destruct (PathOps.relative_to (Path x) _) as [rel|e] eqn:Er;
      simpl; [|discriminate].
    apply IH. apply Forall_app. split; [exact Hall|].
    constructor; [|constructor]. simpl.
    apply relative_to_dot in Er. subst rel.
    apply to_str_relative_nonempty, tail_components.
Qed.

Lemma scan_paths (files_directory : str) (fs : Fs.FileSystem)
      (inventory : Inventory) :
  fst (scan_files_directory files_directory fs) = Returns (Some inventory) ->
  Forall (fun f => path f <> []) inventory.
Proof.
  unfold scan_files_directory; io.
  destruct (Fs.fs_exists fs (Path files_directory)) as [[|]|e];
    cbn [negb fst]; try discriminate.
  rewrite scan_entries_result.
  destruct (fst (scan_entries _ _ fs)) as [all_files|e] eqn:E;
    [|discriminate].
  destruct (snd (Fs.fs_rglob fs (Path files_directory)));
    [discriminate|].
  destruct all_files as [|f all_files]; [discriminate|].
  cbn [fst]. intros [= <-]. eapply scan_entries_paths; [|exact E].
  constructor.
Qed.

Lemma inventory_paths (fs : Fs.FileSystem) (inventory : Inventory) :
  Spec.inventory_of fs = Some inventory ->
  Forall (fun f => path f <> []) inventory.
Proof.
  unfold Spec.inventory_of. intros H.
  apply (scan_paths default_files_directory fs).
  destruct (fst (scan_files_directory default_files_directory fs));
    [now subst|discriminate].
Qed.

Lemma scan_default (fs : Fs.FileSystem) :
  scan_files_directory default_files_directory fs
  = (Returns (Spec.inventory_of fs), fs).
Proof.
  unfold Spec.inventory_of.
  destruct (scan_files_directory_total default_files_directory fs)
    as [inventory ->].
  reflexivity.
Qed.

End Scan.

(** ** The link extractor *)

Section Extractor.
Import PathLib Chat.

Variable score : str -> str -> Q.

Lemma components_skip_slash (s : str) :
  filter is_component (split_on c_slash (c_slash :: s))
  = filter is_component (split_on c_slash s).
Proof. reflexivity. Qed.

(** [Path(url).name] is the last segment of the URL. *)
Lemma name_is_last_segment (url : str) :
  name (Path url) = Spec.last_segment url.
Proof.
  unfold name, Spec.last_segment. fold is_component.
  destruct url as [|a p1]; [reflexivity|].
  unfold Path, splitroot.
  destruct (N.eqb_spec a c_slash) as [->|Ha]; [|reflexivity].
  destruct p1 as [|b p2]; [reflexivity|].
  destruct (N.eqb_spec b c_slash) as [->|Hb]; [|reflexivity].
  destruct p2 as [|c p3]; [reflexivity|].
  destruct (N.eqb_spec c c_slash) as [->|Hc]; reflexivity.
Qed.

Lemma candidate_filename_spec (link_text url : str) :
  candidate_filename link_text url = Spec.candidate link_text url.
Proof.
  unfold candidate_filename, Spec.candidate.
  rewrite <- name_is_last_segment.
  destruct url as [|c url].
  - simpl. now destruct (_ || _).
  - destruct (name (Path (c :: url))) as [|x n]; [reflexivity|].
    cbn [str_eqb orb]. now destruct (contains c_dot (x :: n)).
Qed.

Lemma first_segment_spec (s : str) :
  first_segment s = Spec.before_first_dot s.
Proof.
  unfold first_segment, Spec.before_first_dot.
  induction s as [|c s IH]; [reflexivity|]. simpl.
  destruct (N.eqb c c_dot); [reflexivity|]. simpl.
  destruct (split_on c_dot s) as [|w ws];
    destruct (span (fun c0 => negb (N.eqb c0 c_dot)) s) as [a b];
    simpl in *; now subst.
Qed.

Lemma find_best_match_in (filename : str) (files : Inventory) (p : str) :
  find_best_match score filename (Some files) = Some p ->
  exists f, In f files /\ path f = p.
Proof.
  intros H. apply find_best_match_some in H as (f & Hf & Hp & _). eauto.
Qed.

Lemma link_info_spec (inventory : option Inventory) (link_text url : str) :
  (forall files, inventory = Some files ->
                 Forall (fun f => path f <> []) files) ->
  link_info score inventory link_text url
  = Spec.extracted_link score inventory (link_text, url).
Proof.
  intros Hpaths. unfold link_info, Spec.extracted_link, markdown_of.
  rewrite candidate_filename_spec, first_segment_spec.
  destruct (find_best_match score _ inventory) as [p|] eqn:Hp;
    [|reflexivity].
  destruct p as [|c p]; [|reflexivity].
  exfalso. destruct inventory as [files|]; [|discriminate].
  apply find_best_match_in in Hp as (f & Hf & Hnil).
  specialize (Hpaths files eq_refl).
  rewrite Forall_forall in Hpaths. now apply (Hpaths f Hf).
Qed.

Lemma links_of_matches_spec (inventory : option Inventory)
      (matches : list (str * str)) :
  (forall files, inventory = Some files ->
                 Forall (fun f => path f <> []) files) ->
  links_of_matches score inventory matches
  = map (Spec.extracted_link score inventory)
        (filter (fun link => negb (Spec.external link)) matches).
Proof.
  intros Hpaths. induction matches as [|[link_text url] rest IH];
    [reflexivity|].
  simpl. unfold Spec.external at 1. simpl.
  destruct (is_external url); simpl; [exact IH|].
  now rewrite IH, link_info_spec.
Qed.

(** The extraction is the map of the specified record over the links that
    are not external; the file system is only read. *)
Lemma extract_markdown_links_eq (text : str) (fs : Fs.FileSystem) :
  extract_markdown_links score text fs
  = (Returns
       (map (Spec.extracted_link score (Spec.inventory_of fs))
            (filter (fun link => negb (Spec.external link))
                    (Re.findall text))),
     fs).
Proof.
  unfold extract_markdown_links.
  destruct (Re.findall text) as [|m matches] eqn:E; [reflexivity|].
  unfold Fs.bind. rewrite scan_default. unfold Fs.ret. f_equal. f_equal.
  apply links_of_matches_spec. intros files. apply inventory_paths.
Qed.

End Extractor.

(** ** The turn controller *)

Section TurnController.
Import Chat.

Variable score : str -> str -> Q.

Lemma last_content_snoc (history : History) (e : Entry) :
  last_content (history ++ [e]) = Some (content e).
Proof. unfold last_content. now rewrite rev_unit. Qed.

Lemma set_last_content_snoc (history : History) (e : Entry) (c : str) :
  set_last_content (history ++ [e]) c = history ++ [mkEntry (role e) c].
Proof. unfold set_last_content. now rewrite rev_unit, rev_involutive. Qed.

(** The loop appends the chunks to the last entry and publishes after each
    of them. *)
Lemma relay_snoc (history : History) (r c : str) (cs : list str) :
  relay (history ++ [mkEntry r c]) cs
  = (history ++ [mkEntry r (c ++ concat cs)],
     map (fun k => history ++ [mkEntry r (c ++ concat (firstn k cs))])
         (seq 1 (length cs))).
Proof.
  revert c; induction cs as [|chunk rest IH]; intros c.
  - simpl. now rewrite app_nil_r.
  - cbn [relay]. rewrite last_content_snoc, set_last_content_snoc.
    cbn [content role]. rewrite IH. f_equal.
    + now rewrite <- app_assoc.
    + cbn [length seq map firstn concat]. rewrite app_nil_r. f_equal.
      rewrite <- (seq_shift (length rest) 1), map_map. apply map_ext. intros k.
      cbn [firstn concat]. now rewrite <- app_assoc.
Qed.

Lemma relay_start (history : History) (r : str) (cs : list str) :
  relay (history ++ [mkEntry r []]) cs
  = (history ++ [mkEntry r (concat cs)],
     map (fun k => history ++ [mkEntry r (concat (firstn k cs))])
         (seq 1 (length cs))).
Proof. exact (relay_snoc history r [] cs). Qed.

(** C7.  When the agent stream ends with an exception, after any number of
    chunks, or when the extraction raises, [bot] catches it: after the
    publications made for the chunks it publishes the turn exactly once
    more, with the whole content of the assistant entry replaced by the
    fixed apology, and ends normally. *)
Theorem bot_replaces_content_on_error (agent : str -> Stream)
        (fs : Fs.FileSystem) (history : History) (user_message : str) :
  last_content history = Some user_message ->
  (ending (agent user_message) <> None \/
   exists e,
     fst (extract_markdown_links score
            (concat (chunks (agent user_message))) fs) = Raises e) ->
  bot score agent fs history
  = mkTurn (Spec.partial_turns history (chunks (agent user_message))
            ++ [history ++ [mkEntry (lit "assistant") error_msg]])
           None.
Proof.
  intros Hlast Hfail. unfold bot. rewrite Hlast.
  rewrite relay_start, last_content_snoc, set_last_content_snoc.
  cbn [content role]. unfold Spec.partial_turns.
  destruct (ending (agent user_message)) as [e|]; [reflexivity|].
  destruct Hfail as [Hfail|[e He]]; [congruence|].
  now rewrite He.
Qed.

End TurnController.

(** ** The streaming interface *)

Section Streaming.
Import Gen Azure.

Variable service : Service.

Ltac gen_unfold :=
  unfold guarded_request, _get_agent, create_new_conversation,
         try_except, bind, call, get, put, ret, yield, on_client in *.

(** The guarded part of a request yields exactly one chunk and never
    raises. *)
Lemma guarded_request_one_chunk (content t : str) (self : AzureAgentClient) :
  exists chunk self',
    guarded_request service content t self = (([chunk], Returns tt), self').
Proof.
  gen_unfold.
  destruct (messages_create service t (lit "user") content) as [[]|e];
    [|simpl; eauto].
  destruct (_agent self) as [agent|]; simpl.
  - destruct (runs_create_and_process service t (agent_ident agent))
      as [run|e]; simpl; [|eauto].
    destruct (str_eqb (status run) (lit "failed")); simpl; [eauto|].
    destruct (messages_list service t) as [messages|e]; simpl; [|eauto].
    destruct (latest_assistant_response messages None) as [[|c r]|];
      simpl; eauto.
  - destruct (agents_get_agent service (agent_id self)) as [agent|e]; simpl;
      [|eauto].
    destruct (runs_create_and_process service t (agent_ident agent))
      as [run|e]; simpl; [|eauto].
    destruct (str_eqb (status run) (lit "failed")); simpl; [eauto|].
    destruct (messages_list service t) as [messages|e]; simpl; [|eauto].
    destruct (latest_assistant_response messages None) as [[|c r]|];
      simpl; eauto.
Qed.

(** A method call either yields one chunk and returns, or raises the
    exception of the thread creation without any chunk. *)
Lemma send_message_streaming_shape (content : str) (self : AzureAgentClient) :
  (exists chunk self',
      send_message_streaming service content None self
      = (([chunk], Returns tt), self')) \/
  (exists e self',
      send_message_streaming service content None self
      = (([], Raises e), self') /\ threads_create service = Raises e).
Proof.
  destruct (send_message_streaming service content None self)
    as [[ys r] self'] eqn:E.
  unfold send_message_streaming in E.
  unfold bind at 1, get at 1 in E. cbn beta iota in E.
  destruct (current_thread self) as [thread|] eqn:Eth.
  - left. destruct (guarded_request_one_chunk content (id thread) self)
      as (chunk & self1 & H). rewrite H in E. cbn [app] in E.
    injection E as <- <- <-. now exists chunk, self1.
  - unfold create_new_conversation, bind, call, get, put, ret in E.
    destruct (threads_create service) as [[tid]|e]; cbn in E.
    + left. destruct tid as [|c tid].
      * unfold yield in E. injection E as <- <- <-. now do 2 eexists.
      * match type of E with
        | context [guarded_request service content ?t ?s] =>
            destruct (guarded_request_one_chunk content t s)
              as (chunk & self1 & H)
        end.
        rewrite H in E. cbn [app] in E.
        injection E as <- <- <-. now exists chunk, self1.
    + right. injection E as <- <- <-. now exists e, self.
Qed.

Lemma agent_stream_shape (_client : option AzureAgentClient) (content : str) :
  (exists chunk,
      Spec.agent_stream service _client content = Chat.mkStream [chunk] None) \/
  (exists e,
      Spec.agent_stream service _client content = Chat.mkStream [] (Some e) /\
      Spec.raised_before_request service e).
Proof.
  unfold Spec.agent_stream, stream_of, Spec.raised_before_request.
  destruct (send_message_to_agent_streaming service content _client)
    as [[ys r] g] eqn:E.
  unfold send_message_to_agent_streaming, get_azure_client in E.
  unfold bind at 1 in E. unfold bind at 1, get at 1 in E.
  cbn beta iota in E.
  destruct _client as [client|].
  - unfold ret, on_client in E. cbn beta iota in E.
    destruct (send_message_streaming_shape content client)
      as [(chunk & self' & H)|(e & self' & H & He)];
      rewrite H in E; cbn [app] in E; injection E as <- <- <-.
    + left. now exists chunk.
    + right. exists e. split; [reflexivity|now right].
  - unfold bind, call, put, ret, on_client in E.
    destruct (project_client service DEFAULT_ENDPOINT) as [[]|e];
      cbn beta iota in E.
    + match type of E with
      | context [send_message_streaming service content None ?c] =>
          destruct (send_message_streaming_shape content c)
            as [(chunk & self' & H)|(e & self' & H & He)]
      end; rewrite H in E; cbn [app] in E; injection E as <- <- <-.
      * left. now exists chunk.
      * right. exists e. split; [reflexivity|now right].
    + injection E as <- <- <-.
      right. exists e. split; [reflexivity|now left].
Qed.

(** The method, case by case. *)
Lemma send_message_streaming_cases (content : str) (self : AzureAgentClient) :
  send_message_streaming service content None self
  = match current_thread self with
    | Some thread => guarded_request service content (id thread) self
    | None =>
        match threads_create service with
        | Raises e => (([], Raises e), self)
        | Returns thread =>
            let self' := mkClient (endpoint self) (agent_id self)
                                  (Some thread) (_agent self) in
            match id thread with
            | [] => (([no_thread_msg], Returns tt), self')
            | _ :: _ => guarded_request service content (id thread) self'
            end
        end
    end.
Proof.
  unfold send_message_streaming. unfold bind at 1, get at 1. cbn beta iota.
  destruct (current_thread self) as [thread|].
  - now destruct (guarded_request service content (id thread) self)
      as [[ys r] s].
  - unfold create_new_conversation, bind, call, get, put, ret.
    destruct (threads_create service) as [[tid]|e]; cbn; [|reflexivity].
    destruct tid as [|c tid]; [reflexivity|].
    match goal with
    | |- context [guarded_request service content ?t ?s] =>
        now destruct (guarded_request service content t s) as [[ys r] s']
    end.
Qed.

(** The interface, case by case. *)
Lemma agent_stream_cases (_client : option AzureAgentClient) (content : str) :
  Spec.agent_stream service _client content
  = match Spec.client_of service _client with
    | Raises e => Chat.mkStream [] (Some e)
    | Returns client =>
        stream_of (send_message_streaming service content None) client
    end.
Proof.
  unfold Spec.client_of, Spec.agent_stream, stream_of,
         send_message_to_agent_streaming, get_azure_client.
  unfold bind at 1. unfold bind at 1, get at 1. cbn beta iota.
  destruct _client as [client|].
  - unfold ret, on_client. cbn beta iota.
    now destruct (send_message_streaming service content None client)
      as [[ys [[]|e]] s].
  - unfold bind, call, put, ret, on_client.
    destruct (project_client service DEFAULT_ENDPOINT) as [[]|e];
      cbn beta iota; [|reflexivity].
    match goal with
    | |- context [send_message_streaming service content None ?c] =>
        now destruct (send_message_streaming service content None c)
          as [[ys [[]|e]] s]
    end.
Qed.

(** The stream of a call that reaches the request is the stream of the
    request. *)
Lemma agent_stream_of_request (_client : option AzureAgentClient)
      (content t chunk : str) (self self' : AzureAgentClient) :
  Spec.request_context service _client = Some (self, t) ->
  guarded_request service content t self = (([chunk], Returns tt), self') ->
  Spec.agent_stream service _client content = Chat.mkStream [chunk] None.
Proof.
  rewrite agent_stream_cases. unfold Spec.request_context, stream_of.
  destruct (Spec.client_of service _client) as [client|e]; [|discriminate].
  rewrite send_message_streaming_cases.
  destruct (current_thread client) as [thread|].
  - intros [= <- <-] ->. reflexivity.
  - destruct (threads_create service) as [[tid]|e]; [|discriminate].
    cbn. destruct tid as [|c tid]; [discriminate|].
    intros [= <- <-] ->. reflexivity.
Qed.

(** An exception of the construction of the client or of the creation of
    the thread ends the stream before any chunk; a thread without id is
    reported by a chunk. *)
Lemma agent_stream_without_request (_client : option AzureAgentClient)
      (content : str) :
  (forall e, Spec.client_of service _client = Raises e ->
             Spec.agent_stream service _client content
             = Chat.mkStream [] (Some e)) /\
  (forall client e,
      Spec.client_of service _client = Returns client ->
      current_thread client = None ->
      threads_create service = Raises e ->
      Spec.agent_stream service _client content = Chat.mkStream [] (Some e)) /\
  (forall client thread,
      Spec.client_of service _client = Returns client ->
      current_thread client = None ->
      threads_create service = Returns thread ->
      id thread = [] ->
      Spec.agent_stream service _client content
      = Chat.mkStream [no_thread_msg] None).
Proof.
  rewrite agent_stream_cases. unfold stream_of.
  split; [|split].
  - now intros e ->.
  - intros client e -> Hth He. rewrite send_message_streaming_cases.
    now rewrite Hth, He.
  - intros client thread -> Hth Hcr Hid. rewrite send_message_streaming_cases.
    rewrite Hth, Hcr. cbn. now rewrite Hid.
Qed.

Ltac use_equations :=
  repeat match goal with
         | H : Returns _ = Returns _ |- _ => injection H as H; subst
         | H : Returns _ = Raises _ |- _ => discriminate H
         | H : ?x = Returns _ |- context [?x] => rewrite H; cbn [app]
         | H : ?x = Raises _ |- context [?x] => rewrite H; cbn [app]
         | H : ?x = true |- context [?x] => rewrite H; cbn [app]
         | H : ?x = false |- context [?x] => rewrite H; cbn [app]
         | H : ?x = Some _ |- context [?x] => rewrite H; cbn [app]
         | H : ?x = None |- context [?x] => rewrite H; cbn [app]
         end.

(** A failing request reports its failure by one chunk. *)
Lemma request_failure_chunk (content t chunk : str) (self : AzureAgentClient) :
  Spec.request_failure service self content t chunk ->
  exists self',
    guarded_request service content t self = (([chunk], Returns tt), self').
Proof.
  intros H.
  destruct H;
    repeat match goal with
           | H : status _ = _ |- _ => apply str_eqb_eq in H
           | H : status _ <> _ |- _ => apply str_eqb_neq in H
           | H : _ \/ _ |- _ => destruct H
           end;
    gen_unfold; unfold Spec.agent_of in *; destruct (_agent self);
    use_equations; eexists; reflexivity.
Qed.

(** A successful request delivers the whole reply as one chunk. *)
Lemma request_reply_chunk (content t reply : str) (self : AzureAgentClient) :
  Spec.request_reply service self content t reply ->
  exists self',
    guarded_request service content t self = (([reply], Returns tt), self').
Proof.
  intros (agent & run & messages & Hm & Ha & Hr & Hs & Hl & Hlast & Hne).
  apply str_eqb_neq in Hs.
  destruct reply as [|c reply]; [contradiction|].
  gen_unfold; unfold Spec.agent_of in *; destruct (_agent self);
    use_equations; eexists; reflexivity.
Qed.

(** C4, as amended.  A failing call is never a silent empty stream.  An
    exception raised by the construction of the client or by the creation
    of the thread ends the stream as an error, before any chunk, and the
    stream ends as an error in these two cases only.  Every other failure
    (a thread without id, a message that cannot be created, an agent that
    cannot be fetched, a run that raises or reports [failed], a listing
    that raises, a listing without assistant text) is delivered as one
    ordinary text chunk that holds an error message, after which the stream
    ends normally. *)
Theorem streaming_failure_is_reported
        (_client : option AzureAgentClient) (content : str) :
  (Chat.chunks (Spec.agent_stream service _client content) <> [] \/
   Chat.ending (Spec.agent_stream service _client content) <> None) /\
  (forall e,
      Chat.ending (Spec.agent_stream service _client content) = Some e ->
      Chat.chunks (Spec.agent_stream service _client content) = [] /\
      Spec.raised_before_request service e) /\
  (forall e,
      Spec.client_of service _client = Raises e ->
      Spec.agent_stream service _client content = Chat.mkStream [] (Some e)) /\
  (forall client e,
      Spec.client_of service _client = Returns client ->
      current_thread client = None ->
      threads_create service = Raises e ->
      Spec.agent_stream service _client content = Chat.mkStream [] (Some e)) /\
  (forall client thread,
      Spec.client_of service _client = Returns client ->
      current_thread client = None ->
      threads_create service = Returns thread ->
      id thread = [] ->
      Spec.agent_stream service _client content
      = Chat.mkStream [no_thread_msg] None) /\
  (forall self t chunk,
      Spec.request_context service _client = Some (self, t) ->
      Spec.request_failure service self content t chunk ->
      Spec.agent_stream service _client content = Chat.mkStream [chunk] None).
Proof.
  split; [|split].
  - destruct (agent_stream_shape _client content) as [[chunk ->]|(e & -> & _)].
    + left. discriminate.
    + right. discriminate.
  - intros e He.
    destruct (agent_stream_shape _client content)
      as [[chunk H]|(e' & H & Hbefore)]; rewrite H in He |- *.
    + discriminate.
    + injection He as <-. auto.
  - destruct (agent_stream_without_request _client content) as (H1 & H2 & H3).
    repeat split; auto.
    intros self t chunk Hctx Hfail.
    destruct (request_failure_chunk content t chunk self Hfail) as [self' H].
    now apply agent_stream_of_request with t self self'.
Qed.

(** C10, as amended.  A call of the streaming interface yields exactly one
    chunk and then ends normally, unless the construction of the client or
    the creation of the thread raises: then it yields no chunk and ends
    with that exception.  The run is processed to its end before anything
    is yielded, so the reply of the assistant arrives whole, as the single
    chunk; a failure of the request arrives as a single error message. *)
Theorem streaming_yields_single_chunk
        (_client : option AzureAgentClient) (content : str) :
  ((exists chunk,
       Spec.agent_stream service _client content
       = Chat.mkStream [chunk] None) \/
   (exists e,
       Spec.agent_stream service _client content
       = Chat.mkStream [] (Some e) /\
       Spec.raised_before_request service e)) /\
  (forall self t reply,
      Spec.request_context service _client = Some (self, t) ->
      Spec.request_reply service self content t reply ->
      Spec.agent_stream service _client content = Chat.mkStream [reply] None) /\
  (forall self t chunk,
      Spec.request_context service _client = Some (self, t) ->
      Spec.request_failure service self content t chunk ->
      Spec.agent_stream service _client content = Chat.mkStream [chunk] None).
Proof.
  split; [apply agent_stream_shape|]. split.
  - intros self t reply Hctx Hreply.
    destruct (request_reply_chunk content t reply self Hreply) as [self' H].
    now apply agent_stream_of_request with t self self'.
  - intros self t chunk Hctx Hfail.
    destruct (request_failure_chunk content t chunk self Hfail) as [self' H].
    now apply agent_stream_of_request with t self self'.
Qed.

End Streaming.

(** ** Messages given by their parts *)

Section Structured.
Import Chat Spec.

Lemma contains_false (c : char) (s : str) :
  contains c s = false <-> ~ In c s.
Proof.
  unfold contains. split.
  - intros H Hin. assert (E : existsb (N.eqb c) s = true).
    { apply existsb_exists. exists c. split; [exact Hin|apply N.eqb_refl]. }
    congruence.
  - intros H. destruct (existsb (N.eqb c) s) eqn:E; [|reflexivity].
    apply existsb_exists in E as (x & Hx & Hc). apply N.eqb_eq in Hc.
    subst. contradiction.
Qed.

Lemma contains_app (c : char) (a b : str) :
  contains c (a ++ b) = contains c a || contains c b.
Proof. unfold contains. apply existsb_app. Qed.

Lemma plain_app (a b : str) : plain (a ++ b) = plain a && plain b.
Proof. unfold plain. rewrite contains_app. now destruct (contains _ a). Qed.

Lemma plain_cons (c : char) (s : str) :
  plain (c :: s) = negb (N.eqb c_lbracket c) && plain s.
Proof.
  unfold plain, contains. cbn [existsb].
  now destruct (N.eqb c_lbracket c).
Qed.

Lemma well_formed_link_inv (link_text url : str) :
  well_formed_link link_text url = true ->
  link_text <> [] /\ url <> [] /\
  plain link_text = true /\ plain url = true /\
  ~ In c_rbracket link_text /\ ~ In c_rparen url.
Proof.
  unfold well_formed_link. rewrite !andb_true_iff, !negb_true_iff.
  intros [[[[[Ht Hu] Hpt] Hpu] Hrb] Hrp].
  apply str_eqb_neq in Ht, Hu. apply contains_false in Hrb, Hrp. auto 6.
Qed.

(** A list is cut in one way only at the first occurrence of an element. *)
Lemma split_at_first (x : char) (a a' b b' : str) :
  ~ In x a -> ~ In x a' -> a ++ x :: b = a' ++ x :: b' -> a = a' /\ b = b'.
Proof.
  revert a'; induction a as [|c a IH]; intros [|c' a'] Ha Ha' E; simpl in *.
  - injection E as <-. auto.
  - injection E as <- _. exfalso. apply Ha'. now left.
  - injection E as -> _. exfalso. apply Ha. now left.
  - injection E as <- E. destruct (IH a') as [<- <-]; auto.
Qed.

Lemma span_until (p : char -> bool) (a b : str) (y : char) :
  (forall x, In x a -> p x = true) -> p y = false ->
  span p (a ++ y :: b) = (a, y :: b).
Proof.
  intros Ha Hy. induction a as [|c a IH]; simpl.
  - now rewrite Hy.
  - rewrite (Ha c (or_introl eq_refl)), IH; [reflexivity|].
    intros x Hx. apply Ha. now right.
Qed.

Lemma not_char (c : char) (s : str) :
  ~ In c s -> forall x, In x s -> negb (N.eqb x c) = true.
Proof.
  intros H x Hx. apply negb_true_iff, N.eqb_neq. intros ->. contradiction.
Qed.

Lemma markdown_of_cons (link_text url rest : str) :
  markdown_of link_text url ++ rest
  = c_lbracket
      :: (link_text ++ c_rbracket :: c_lparen :: url ++ c_rparen :: rest).
Proof.
  unfold markdown_of. simpl. f_equal. rewrite <- !app_assoc. simpl.
  now rewrite <- !app_assoc.
Qed.

(** The pattern matches a well-formed link at the head of a text. *)
Lemma match_link_markdown (link_text url rest : str) :
  link_text <> [] -> url <> [] ->
  ~ In c_rbracket link_text -> ~ In c_rparen url ->
  Re.match_link (markdown_of link_text url ++ rest)
  = Some (link_text, url, 4 + length link_text + length url).
Proof.
  intros Ht Hu Hrb Hrp. rewrite markdown_of_cons. unfold Re.match_link.
  rewrite N.eqb_refl.
  rewrite (span_until _ link_text _ c_rbracket (not_char _ _ Hrb) eq_refl).
  destruct link_text as [|c t]; [contradiction|].
  rewrite !N.eqb_refl. cbn [andb].
  rewrite (span_until _ url _ c_rparen (not_char _ _ Hrp) eq_refl).
  destruct url as [|d u]; [contradiction|]. reflexivity.
Qed.

Lemma findall_skip (l rest : str) :
  Re.findall_from (length l) (l ++ rest) = Re.findall_from 0 rest.
Proof. induction l as [|c l IH]; simpl; auto. Qed.

Lemma findall_plain (s rest : str) :
  plain s = true ->
  Re.findall_from 0 (s ++ rest) = Re.findall_from 0 rest.
Proof.
  induction s as [|c s IH]; intros H; [reflexivity|].
  rewrite plain_cons in H. apply andb_true_iff in H as [Hc Hs].
  apply negb_true_iff in Hc. rewrite N.eqb_sym in Hc.
  change ((c :: s) ++ rest) with (c :: (s ++ rest)).
  cbn [Re.findall_from]. unfold Re.match_link. rewrite Hc. now apply IH.
Qed.

Lemma findall_markdown (link_text url rest : str) :
  link_text <> [] -> url <> [] ->
  ~ In c_rbracket link_text -> ~ In c_rparen url ->
  Re.findall_from 0 (markdown_of link_text url ++ rest)
  = (link_text, url) :: Re.findall_from 0 rest.
Proof.
  intros Ht Hu Hrb Hrp.
  pose proof (match_link_markdown link_text url rest Ht Hu Hrb Hrp) as Hm.
  rewrite markdown_of_cons in Hm |- *.
  cbn [Re.findall_from]. rewrite Hm. f_equal.
  replace (4 + length link_text + length url - 1)
    with (length (link_text ++ c_rbracket :: c_lparen :: url ++ [c_rparen])).
  - replace (link_text ++ c_rbracket :: c_lparen :: url ++ c_rparen :: rest)
      with ((link_text ++ c_rbracket :: c_lparen :: url ++ [c_rparen]) ++ rest).
    + apply findall_skip.
    + rewrite <- app_assoc. simpl. now rewrite <- app_assoc.
  - rewrite length_app. simpl. rewrite length_app. simpl. lia.
Qed.

Lemma well_formed_inv (link_text url : str) :
  well_formed (Link link_text url) = true ->
  well_formed_link link_text url = true.
Proof. simpl. intros H. now apply andb_true_iff in H as [H _]. Qed.

Lemma well_formed_shaped (segments : list segment) :
  forallb well_formed segments = true -> forallb shaped segments = true.
Proof.
  induction segments as [|[s|t u] rest IH]; intros H; [reflexivity| |];
    cbn [forallb] in H |- *; apply andb_true_iff in H as [Hsg Hrest];
    rewrite (IH Hrest), andb_true_r.
  - exact Hsg.
  - now apply well_formed_inv.
Qed.

(** The matches of a message made of prose without opening bracket and of
    well-formed links are its links, in order. *)
Lemma findall_render (segments : list segment) :
  forallb shaped segments = true ->
  Re.findall (render segments) = links_of segments.
Proof.
  unfold Re.findall, render.
  induction segments as [|[s|link_text url] rest IH]; intros H;
    [reflexivity| |]; cbn [forallb shaped] in H;
    apply andb_true_iff in H as [Hsg Hrest];
    cbn [map concat links_of flat_map render_segment app].
  - rewrite findall_plain; auto.
  - apply well_formed_link_inv in Hsg as (Ht & Hu & _ & _ & Hrb & Hrp).
    rewrite findall_markdown; auto.
    apply (f_equal (cons (link_text, url))). now apply IH.
Qed.

(** *** Replacements in a well-formed message *)

(** The markdown of a well-formed link determines its text and its URL,
    even when it is only a prefix. *)
Lemma markdown_prefix (t u t' u' r r' : str) :
  ~ In c_rbracket t -> ~ In c_rbracket t' ->
  ~ In c_rparen u -> ~ In c_rparen u' ->
  markdown_of t u ++ r = markdown_of t' u' ++ r' ->
  t = t' /\ u = u'.
Proof.
  intros Ht Ht' Hu Hu' E. rewrite !markdown_of_cons in E.
  injection E as E.
  apply split_at_first in E as [<- E]; auto.
  injection E as E.
  apply split_at_first in E as [<- _]; auto.
Qed.

Lemma inert_nil : inert [].
Proof. intros t u new rest _ _. reflexivity. Qed.

Lemma inert_app (p q : str) : inert p -> inert q -> inert (p ++ q).
Proof.
  intros Hp Hq t u new rest Hwf Hext.
  rewrite <- !app_assoc, Hp, Hq; auto.
Qed.

Lemma inert_plain (p : str) : plain p = true -> inert p.
Proof.
  intros Hp t u new rest _ _. induction p as [|c p IH]; [reflexivity|].
  rewrite plain_cons in Hp. apply andb_true_iff in Hp as [Hc Hp].
  apply negb_true_iff in Hc.
  change ((c :: p) ++ rest) with (c :: (p ++ rest)).
  rewrite replace_first_unfold.
  replace (startswith (markdown_of t u) (c :: p ++ rest)) with false.
  - simpl. f_equal. now apply IH.
  - unfold markdown_of. cbn -[N.eqb]. now rewrite Hc.
Qed.

Lemma inert_external (t' u' : str) :
  well_formed_link t' u' = true -> is_external u' = true ->
  inert (markdown_of t' u').
Proof.
  intros Hwf' Hext' t u new rest Hwf Hext.
  destruct (well_formed_link_inv _ _ Hwf) as (_ & _ & _ & _ & Hrb & Hrp).
  destruct (well_formed_link_inv _ _ Hwf')
    as (_ & _ & Hpt & Hpu & Hrb' & Hrp').
  rewrite replace_first_unfold.
  destruct (startswith (markdown_of t u) (markdown_of t' u' ++ rest)) eqn:E.
  - apply startswith_inv in E as [r E]. symmetry in E.
    apply markdown_prefix in E as [-> ->]; auto. congruence.
  - rewrite !markdown_of_cons. f_equal.
    assert (Hplain : plain (t' ++ c_rbracket :: c_lparen :: u' ++ [c_rparen])
                     = true).
    { rewrite plain_app, Hpt. cbn [andb]. rewrite !plain_cons, plain_app, Hpu.
      reflexivity. }
    pose proof (inert_plain _ Hplain t u new rest Hwf Hext) as Hin.
    rewrite <- !app_assoc in Hin. cbn [app] in Hin.
    rewrite <- !app_assoc in Hin. exact Hin.
Qed.

(** *** Text without opening bracket *)

Lemma plain_decimal (d : Decimal.uint) :
  plain (lit (DecimalString.NilEmpty.string_of_uint d)) = true.
Proof. induction d; simpl; auto. Qed.

Lemma plain_anchor_id (i : nat) : plain (anchor_id i) = true.
Proof.
  unfold anchor_id, str_of_nat. rewrite plain_app, plain_decimal.
  reflexivity.
Qed.

Lemma plain_replace_char (c : char) (new s : str) :
  plain new = true -> plain s = true -> plain (replace_char c new s) = true.
Proof.
  intros Hnew. unfold replace_char. induction s as [|x s IH]; intros Hs;
    [reflexivity|].
  rewrite plain_cons in Hs. apply andb_true_iff in Hs as [Hx Hs].
  cbn [flat_map]. rewrite plain_app, (IH Hs), andb_true_r.
  destruct (N.eqb x c); [exact Hnew|].
  rewrite plain_cons, Hx. reflexivity.
Qed.

Lemma plain_escape (s : str) : plain s = true -> plain (Html.escape s) = true.
Proof.
  intros H. unfold Html.escape.
  repeat (apply plain_replace_char; [reflexivity|]). exact H.
Qed.

Lemma plain_anchor_link (i : nat) (link_text : str) :
  plain link_text = true -> plain (anchor_link i link_text) = true.
Proof.
  intros H. unfold anchor_link.
  rewrite !plain_app, plain_anchor_id, (plain_escape _ H). reflexivity.
Qed.

Lemma plain_card_html (i : nat) (link : LinkInfo) :
  plain (filename link) = true -> plain (url link) = true ->
  plain (card_html i link) = true.
Proof.
  intros Hf Hu. unfold card_html, attr.
  rewrite !plain_app, plain_anchor_id, (plain_escape _ Hf),
          (plain_escape _ Hu).
  reflexivity.
Qed.

Lemma plain_concat (parts : list str) :
  Forall (fun x => plain x = true) parts -> plain (concat parts) = true.
Proof.
  induction 1 as [|x parts Hx _ IH]; [reflexivity|].
  simpl. now rewrite plain_app, Hx, IH.
Qed.

Lemma plain_cards_container (cards : list str) :
  Forall (fun x => plain x = true) cards ->
  plain (cards_container cards) = true.
Proof.
  intros H. unfold cards_container, attr.
  rewrite !plain_app, (plain_concat _ H). reflexivity.
Qed.

Lemma plain_numbered_cards (links_info : list LinkInfo) :
  Forall (fun l => plain (filename l) = true /\ plain (url l) = true)
         links_info ->
  Forall (fun x => plain x = true) (numbered_cards links_info).
Proof.
  intros H. unfold numbered_cards. apply Forall_forall. intros x Hx.
  apply in_map_iff in Hx as ([i l] & <- & Hin).
  apply in_combine_r in Hin. rewrite Forall_forall in H.
  destruct (H l Hin). now apply plain_card_html.
Qed.

(** *** The records of a well-formed message *)

Lemma span_prefix (p : char -> bool) (s : str) :
  forall c, In c (fst (span p s)) -> In c s.
Proof.
  induction s as [|x s IH]; intros c; simpl; [auto|].
  destruct (p x); [|intros []].
  destruct (span p s) as [a b]. simpl in *. intros [<-|H]; auto.
Qed.

Lemma split_on_chars (sep : char) (s w : str) :
  In w (split_on sep s) -> forall c, In c w -> In c s.
Proof.
  revert w; induction s as [|x s IH]; intros w Hw c Hc; simpl in Hw.
  - destruct Hw as [<-|[]]. contradiction.
  - destruct (N.eqb x sep).
    + destruct Hw as [<-|Hw]; [contradiction|]. right. now apply (IH w).
    + destruct (split_on sep s) as [|w0 ws].
      * destruct Hw as [<-|[]]. destruct Hc as [<-|[]]. now left.
      * destruct Hw as [<-|Hw].
        -- destruct Hc as [<-|Hc]; [now left|right].
           apply (IH w0); [now left|exact Hc].
        -- right. apply (IH w); [now right|exact Hc].
Qed.

Lemma last_in (A : Type) (l : list A) (d : A) : l <> [] -> In (last l d) l.
Proof.
  induction l as [|x l IH]; intros H; [contradiction|].
  destruct l as [|y l]; [now left|]. right. apply IH. discriminate.
Qed.

Lemma last_segment_chars (url : str) (c : char) :
  In c (last_segment url) -> In c url.
Proof.
  unfold last_segment. intros H.
  remember (filter (fun x => negb (str_eqb x []) && negb (str_eqb x [c_dot]))
                   (split_on c_slash url)) as segments eqn:E.
  destruct segments as [|w ws]; [contradiction|].
  assert (Hin : In (last (w :: ws) []) (w :: ws))
    by (apply last_in; discriminate).
  rewrite E in Hin at 2. apply filter_In in Hin as [Hin _].
  now apply (split_on_chars c_slash url _ Hin).
Qed.

Lemma candidate_chars (link_text url : str) (c : char) :
  contains c link_text = false -> contains c url = false ->
  contains c (candidate link_text url) = false.
Proof.
  intros Ht Hu. unfold candidate.
  assert (Hseg : contains c (last_segment url) = false).
  { apply contains_false. intros H. apply last_segment_chars in H.
    now apply contains_false in Hu. }
  destruct (last_segment url) as [|x seg]; [exact Ht|].
  now destruct (contains c_dot (x :: seg)).
Qed.

Lemma unquote_without_percent (s : str) :
  contains c_percent s = false -> UrlLib.unquote s = s.
Proof. intros H. unfold UrlLib.unquote. now rewrite H. Qed.

Lemma plain_before_first_dot (s : str) :
  plain s = true -> plain (before_first_dot s) = true.
Proof.
  unfold plain, before_first_dot. rewrite !negb_true_iff, !contains_false.
  intros H Hin. apply H. now apply span_prefix in Hin.
Qed.

(** With an inventory whose paths hold no opening bracket, the record of a
    well-formed link that is not external is displayed without opening
    bracket. *)
Lemma plain_extracted_link (score : str -> str -> Q)
      (inventory : option Inventory) (link_text url : str) :
  (forall files f, inventory = Some files -> In f files ->
                   plain (path f) = true) ->
  well_formed (Link link_text url) = true ->
  is_external url = false ->
  plain (filename (extracted_link score inventory (link_text, url))) = true /\
  plain (Chat.url (extracted_link score inventory (link_text, url))) = true.
Proof.
  intros Hinv Hwf Hext. simpl in Hwf. rewrite Hext in Hwf.
  apply andb_true_iff in Hwf as [Hwf Hpct].
  apply andb_true_iff in Hpct as [Hpt Hpu]. apply negb_true_iff in Hpt, Hpu.
  apply well_formed_link_inv in Hwf as (_ & _ & Hplt & Hplu & _ & _).
  unfold extracted_link. cbn [filename Chat.url].
  rewrite (unquote_without_percent _ (candidate_chars _ _ _ Hpt Hpu)).
  split.
  - apply plain_before_first_dot. unfold plain in *.
    apply negb_true_iff in Hplt, Hplu.
    now rewrite (candidate_chars _ _ _ Hplt Hplu).
  - destruct (find_best_match score _ inventory) as [p|] eqn:Hp;
      [|exact Hplu].
    destruct inventory as [files|]; [|discriminate].
    apply find_best_match_in in Hp as (f & Hf & <-).
    rewrite plain_app, (Hinv files f eq_refl Hf). reflexivity.
Qed.

(** *** The rewrite step on a well-formed message *)

Lemma render_cons (sg : segment) (rest : list segment) :
  render (sg :: rest) = render_segment sg ++ render rest.
Proof. reflexivity. Qed.

Lemma render_app (a b : list segment) : render (a ++ b) = render a ++ render b.
Proof. unfold render. now rewrite map_app, concat_app. Qed.

(** Every replacement hits the link it was extracted from: behind an inert
    prefix the links that are not external become their anchor links, in
    order, and nothing else changes. *)
Lemma replace_links_render (segments : list segment) :
  forall (i : nat) (p : str) (records : list LinkInfo),
    forallb shaped segments = true ->
    inert p ->
    map (fun l => (text l, original_link l)) records
    = map (fun m => (fst m, markdown_of (fst m) (snd m)))
          (filter (fun m => negb (external m)) (links_of segments)) ->
    replace_links i records (p ++ render segments)
    = p ++ render (anchored i segments).
Proof.
  induction segments as [|[s|t u] rest IH]; intros i p records Hwf Hp Hrec.
  - destruct records; [reflexivity|discriminate].
  - cbn [forallb shaped] in Hwf. apply andb_true_iff in Hwf as [Hs Hrest].
    cbn [anchored]. rewrite !render_cons. cbn [render_segment].
    rewrite !app_assoc. apply IH; auto.
    apply inert_app; [exact Hp|now apply inert_plain].
  - cbn [forallb shaped] in Hwf. apply andb_true_iff in Hwf as [Hlink Hrest].
    cbn [anchored links_of flat_map app filter] in Hrec |- *.
    unfold external at 1 in Hrec. cbn [snd] in Hrec.
    destruct (is_external u) eqn:Hext; cbn [negb] in Hrec.
    + rewrite !render_cons. cbn [render_segment]. rewrite !app_assoc.
      apply IH; auto.
      apply inert_app; [exact Hp|now apply inert_external].
    + destruct records as [|l records]; [discriminate|].
      cbn [map fst snd] in Hrec. injection Hrec as Htext Horig Hrec.
      rewrite !render_cons. cbn [render_segment replace_links].
      rewrite Htext, Horig, (Hp t u _ _ Hlink Hext).
      rewrite (replace_first_unfold _ _ (markdown_of t u ++ render rest)).
      rewrite startswith_app, skipn_length_app, !app_assoc.
      apply IH; auto.
      apply inert_app; [exact Hp|].
      apply inert_plain, plain_anchor_link.
      now apply well_formed_link_inv in Hlink as (_ & _ & Ht & _).
Qed.

Lemma well_formed_anchored (segments : list segment) (i : nat) :
  forallb well_formed segments = true ->
  forallb well_formed (anchored i segments) = true.
Proof.
  revert i; induction segments as [|[s|t u] rest IH]; intros i Hwf;
    [reflexivity| |]; cbn [forallb] in Hwf;
    apply andb_true_iff in Hwf as [Hsg Hrest]; cbn [anchored].
  - cbn [forallb]. now rewrite Hsg, IH.
  - destruct (is_external u) eqn:Hext; cbn [forallb].
    + now rewrite Hsg, IH.
    + rewrite IH by assumption. rewrite andb_true_r. cbn [well_formed].
      apply plain_anchor_link.
      now apply well_formed_inv, well_formed_link_inv in Hsg
        as (_ & _ & Ht & _).
Qed.

(** After the rewrite step only external links are left. *)
Lemma anchored_links_external (segments : list segment) (i : nat) :
  filter (fun m => negb (external m)) (links_of (anchored i segments)) = [].
Proof.
  revert i; induction segments as [|[s|t u] rest IH]; intros i;
    cbn [anchored]; [reflexivity|apply IH|].
  destruct (is_external u) eqn:Hext; [|apply IH].
  cbn [links_of flat_map app filter]. unfold external at 1. cbn [snd].
  rewrite Hext. apply IH.
Qed.

(** The external links and the prose are kept as they are. *)
Lemma anchored_keeps_external (segments : list segment) (i : nat)
      (t u : str) :
  In (Link t u) segments -> is_external u = true ->
  In (Link t u) (anchored i segments).
Proof.
  revert i; induction segments as [|[s|t' u'] rest IH]; intros i Hin Hext;
    [contradiction| |]; cbn [anchored].
  - destruct Hin as [Hin|Hin]; [discriminate|]. right. now apply IH.
  - destruct Hin as [Hin|Hin].
    + injection Hin as -> ->. rewrite Hext. now left.
    + destruct (is_external u'); right; now apply IH.
Qed.

End Structured.

(** ** Extraction and rewriting together *)

Section Passes.
Import Chat Spec.

Variable score : str -> str -> Q.

Lemma span_satisfies (p : char -> bool) (s : str) :
  forall x, In x (fst (span p s)) -> p x = true.
Proof.
  induction s as [|c s IH]; intros x; simpl; [intros []|].
  destruct (p c) eqn:Hc; [|intros []].
  destruct (span p s) as [a b]. simpl in *. intros [<-|H]; auto.
Qed.

Lemma span_app (p : char -> bool) (s : str) :
  fst (span p s) ++ snd (span p s) = s.
Proof.
  induction s as [|c s IH]; [reflexivity|]. simpl.
  destruct (p c); [|reflexivity].
  destruct (span p s) as [a b]. simpl in *. now rewrite IH.
Qed.

Lemma span_stops (p : char -> bool) (s : str) :
  forall c rest, snd (span p s) = c :: rest -> p c = false.
Proof.
  induction s as [|x s IH]; intros c rest; simpl; [discriminate|].
  destruct (p x) eqn:Hx.
  - destruct (span p s) as [a b]. simpl in *. apply IH.
  - intros [= <- _]. exact Hx.
Qed.

(** The groups of a match hold no closing delimiter of their own. *)
Lemma match_link_groups (s t u : str) (n : nat) :
  Re.match_link s = Some (t, u, n) ->
  ~ In c_rbracket t /\ ~ In c_rparen u.
Proof.
  unfold Re.match_link. destruct s as [|c s1]; [discriminate|].
  destruct (N.eqb c c_lbracket); [|discriminate].
  pose proof (span_satisfies (fun x => negb (N.eqb x c_rbracket)) s1) as Ht.
  destruct (span (fun x => negb (N.eqb x c_rbracket)) s1) as [t0 s2].
  destruct t0 as [|a t0]; [discriminate|].
  destruct s2 as [|rb [|lp s3]]; try discriminate.
  destruct (N.eqb rb c_rbracket && N.eqb lp c_lparen); [|discriminate].
  pose proof (span_satisfies (fun x => negb (N.eqb x c_rparen)) s3) as Hu.
  destruct (span (fun x => negb (N.eqb x c_rparen)) s3) as [u0 s4].
  destruct u0 as [|b u0]; [discriminate|].
  destruct s4; [discriminate|].
  intros [= <- <- _]. simpl in Ht, Hu. split; intros H.
  - specialize (Ht _ H). now rewrite N.eqb_refl in Ht.
  - specialize (Hu _ H). now rewrite N.eqb_refl in Hu.
Qed.

(** The matcher finds a match exactly when the text starts with the
    markdown of a link whose groups are not empty and hold no closing
    delimiter of their own; such a decomposition is unique, so that the
    order in which a regular expression engine tries the repetitions does
    not matter. *)
Lemma match_link_spec (s t u : str) (n : nat) :
  Re.match_link s = Some (t, u, n) <->
  (exists rest, s = markdown_of t u ++ rest) /\
  t <> [] /\ u <> [] /\ ~ In c_rbracket t /\ ~ In c_rparen u /\
  n = 4 + length t + length u.
Proof.
  split.
  - intros H. pose proof (match_link_groups _ _ _ _ H) as [Ht Hu].
    unfold Re.match_link in H. destruct s as [|c s1]; [discriminate|].
    destruct (N.eqb_spec c c_lbracket) as [->|]; [|discriminate].
    pose proof (span_app (fun x => negb (N.eqb x c_rbracket)) s1) as E1.
    destruct (span (fun x => negb (N.eqb x c_rbracket)) s1) as [t0 s2].
    destruct t0 as [|a t0]; [discriminate|].
    destruct s2 as [|rb [|lp s3]]; try discriminate.
    destruct (N.eqb_spec rb c_rbracket) as [->|]; [|discriminate].
    destruct (N.eqb_spec lp c_lparen) as [->|]; [|discriminate].
    cbn [andb] in H.
    pose proof (span_app (fun x => negb (N.eqb x c_rparen)) s3) as E2.
    pose proof (span_satisfies (fun x => negb (N.eqb x c_rparen)) s3) as P2.
    destruct (span (fun x => negb (N.eqb x c_rparen)) s3) as [u0 s4] eqn:E3.
    destruct u0 as [|b u0]; [discriminate|].
    destruct s4 as [|rp s4]; [discriminate|].
    injection H as <- <- <-. cbn [fst snd] in E1, E2.
    assert (Hrp : rp = c_rparen).
    { pose proof (span_stops (fun x => negb (N.eqb x c_rparen)) s3) as Hstop.
      rewrite E3 in Hstop. specialize (Hstop rp s4 eq_refl).
      apply negb_false_iff in Hstop. now apply N.eqb_eq. }
    subst rp. repeat split; try discriminate; auto.
    exists s4. rewrite markdown_of_cons, <- E1, <- E2. reflexivity.
  - intros ([rest ->] & Ht & Hu & Hrb & Hrp & ->).
    now apply match_link_markdown.
Qed.

Lemma findall_groups (text : str) (skip : nat) (t u : str) :
  In (t, u) (Re.findall_from skip text) ->
  ~ In c_rbracket t /\ ~ In c_rparen u.
Proof.
  revert skip; induction text as [|c rest IH]; intros skip; [intros []|].
  cbn [Re.findall_from]. destruct skip as [|k]; [|apply IH].
  destruct (Re.match_link (c :: rest)) as [[[t0 u0] n]|] eqn:E; [|apply IH].
  intros [[= <- <-]|H]; [|now apply IH in H].
  now apply match_link_groups in E.
Qed.

Lemma markdown_of_inj (t u t' u' : str) :
  ~ In c_rbracket t -> ~ In c_rbracket t' ->
  ~ In c_rparen u -> ~ In c_rparen u' ->
  markdown_of t u = markdown_of t' u' -> t = t' /\ u = u'.
Proof.
  intros Ht Ht' Hu Hu' E.
  apply (markdown_prefix t u t' u' [] []); auto. now rewrite !app_nil_r.
Qed.

Lemma anchored_without_links (segments : list segment) (i : nat) :
  filter (fun m => negb (external m)) (links_of segments) = [] ->
  anchored i segments = segments.
Proof.
  induction segments as [|[s|t u] rest IH]; intros H; cbn [anchored];
    [reflexivity|f_equal; now apply IH|].
  cbn [links_of flat_map app filter] in H. unfold external at 1 in H.
  cbn [snd] in H. destruct (is_external u); [|discriminate].
  f_equal. now apply IH.
Qed.

(** Extraction and rewrite step on a message made of prose without
    opening bracket and of well-formed links: every link that is not
    external has become its anchor link, the prose and the external links
    are as they were, and the cards, if any, follow. *)
Lemma rewrite_pass_render (fs : Fs.FileSystem) (segments : list segment) :
  forallb shaped segments = true ->
  rewrite_pass score fs (render segments)
  = render (anchored 0 segments)
    ++ match filter (fun m => negb (external m)) (links_of segments) with
       | [] => []
       | links =>
           cards_container
             (numbered_cards
                (map (extracted_link score (inventory_of fs)) links))
       end.
Proof.
  intros Hwf. unfold rewrite_pass.
  rewrite extract_markdown_links_eq, (findall_render _ Hwf). cbn [fst].
  destruct (filter (fun m => negb (external m)) (links_of segments))
    as [|m links] eqn:E.
  - cbn [map]. now rewrite anchored_without_links, app_nil_r.
  - cbn [map]. unfold rewrite_message. rewrite build_cards_numbered. f_equal.
    apply (replace_links_render segments 0 []); auto using inert_nil.
    rewrite E. change (extracted_link score (inventory_of fs) m
                       :: map (extracted_link score (inventory_of fs)) links)
      with (map (extracted_link score (inventory_of fs)) (m :: links)).
    rewrite map_map. apply map_ext. now intros [t u].
Qed.

(** A turn whose stream ends normally: the histories of the chunks, then,
    if a link was extracted, one more history with the rewritten content. *)
Lemma bot_publishes_rewrite (agent : str -> Stream) (fs : Fs.FileSystem)
      (history : History) (user_message : str) :
  last_content history = Some user_message ->
  ending (agent user_message) = None ->
  bot score agent fs history
  = mkTurn
      (partial_turns history (chunks (agent user_message))
       ++ match filter (fun m => negb (external m))
                       (Re.findall (concat (chunks (agent user_message))))
          with
          | [] => []
          | _ :: _ =>
              [history
               ++ [mkEntry (lit "assistant")
                     (rewrite_pass score fs
                        (concat (chunks (agent user_message))))]]
          end)
      None.
Proof.
  intros Hlast Hend. unfold bot, rewrite_pass.
  rewrite Hlast, relay_start, last_content_snoc, Hend.
  rewrite extract_markdown_links_eq. cbn [fst content].
  unfold partial_turns.
  destruct (filter (fun m => negb (external m))
                   (Re.findall (concat (chunks (agent user_message)))))
    as [|m links] eqn:E; cbn [map].
  - now rewrite app_nil_r.
  - now rewrite set_last_content_snoc, extract_markdown_links_eq, E.
Qed.

(** C1, as amended.  For every message and every link sequence (the
    non-empty ones in particular) the rewrite step goes through the links
    in order: at link [i] the first occurrence of its markdown that remains
    in the message is replaced by an anchor element whose [href] is
    [#source-card-i] and whose content is the escaped link text (a message
    without such an occurrence is left as it is).  The container of the
    cards is appended once, at the end, after all replacements; it holds
    exactly one card per link, card [i] with the id [source-card-i], the
    escaped filename and the escaped URL of link [i].  The ids of the cards
    are pairwise distinct (the text of the message is copied as it is, and
    may hold such an id already).  When the links are those extracted from
    the message, link [i] is the [i]-th match of the pattern whose URL is
    not external; when moreover the message is made of prose without
    opening bracket and of well-formed links, these are its links that are
    not external, in their order, and the anchor of [source-card-i] stands
    exactly where the [i]-th of them stood, the prose and the external
    links being left as they were. *)
Theorem rewrite_message_replaces_in_order
        (final_message : str) (links_info : list LinkInfo) :
  exists states updated_message cards,
    length states = S (length links_info) /\
    nth_error states 0 = Some final_message /\
    nth_error states (length links_info) = Some updated_message /\
    (forall i link,
        nth_error links_info i = Some link ->
        exists s s',
          nth_error states i = Some s /\
          nth_error states (S i) = Some s' /\
          replaced_first
            (original_link link)
            (lit "<a href=" ++ quoted (lit "#" ++ card_id i)
             ++ lit " onclick="
             ++ quoted (lit "document.getElementById('" ++ card_id i
                        ++ lit "').scrollIntoView({behavior: 'smooth'}); return false;")
             ++ lit ">" ++ Html.escape (Chat.text link) ++ lit "</a>")
            s s') /\
    rewrite_message final_message links_info
    = updated_message
      ++ [c_newline; c_newline]
      ++ lit "<div class=" ++ quoted (lit "source-cards-container") ++ lit ">"
      ++ concat cards ++ lit "</div>" /\
    length cards = length links_info /\
    (forall i link,
        nth_error links_info i = Some link ->
        exists icon,
          nth_error cards i
          = Some (lit "<div class=" ++ quoted (lit "source-card")
                  ++ lit " id=" ++ quoted (card_id i) ++ lit ">"
                  ++ icon
                  ++ lit "<div class=" ++ quoted (lit "card-title") ++ lit ">"
                  ++ Html.escape (filename link)
                  ++ lit "</div><a href=" ++ quoted (Html.escape (url link))
                  ++ lit " class=" ++ quoted (lit "card-link")
                  ++ lit " target=" ++ quoted (lit "_blank")
                  ++ lit ">Download</a></div>")) /\
    NoDup (map card_id (seq 0 (length links_info))) /\
    (forall fs,
        fst (extract_markdown_links score final_message fs)
        = Returns links_info ->
        map (fun l => (Chat.text l, original_link l)) links_info
        = map (fun m => (fst m, markdown_of (fst m) (snd m)))
              (filter (fun m => negb (external m))
                      (Re.findall final_message))) /\
    (forall fs segments,
        final_message = render segments ->
        forallb shaped segments = true ->
        fst (extract_markdown_links score final_message fs)
        = Returns links_info ->
        map (fun l => (Chat.text l, original_link l)) links_info
        = map (fun m => (fst m, markdown_of (fst m) (snd m)))
              (filter (fun m => negb (external m)) (links_of segments)) /\
        updated_message = render (anchored 0 segments)).
Proof.
  destruct (replace_links_trace links_info 0 final_message)
    as (states & Hlen & Hhd & Hlast & Hstep).
  exists states, (replace_links 0 links_info final_message),
         (numbered_cards links_info).
  split; [exact Hlen|]. split; [exact Hhd|]. split; [exact Hlast|].
  split; [|split; [|split; [|split; [|split; [|split]]]]].
  - intros i link Hlink.
    destruct (Hstep i link Hlink) as (s & s' & Hs & Hs' & Hrep).
    exists s, s'. split; [exact Hs|]. split; [exact Hs'|].
    cbn [Nat.add] in Hrep. unfold anchor_link, anchor_id in Hrep.
    unfold quoted, card_id. repeat rewrite <- app_assoc in Hrep.
    repeat rewrite <- app_assoc. exact Hrep.
  - unfold rewrite_message. rewrite build_cards_numbered.
    unfold cards_container, attr, quoted. repeat rewrite <- app_assoc.
    reflexivity.
  - unfold numbered_cards.
    now rewrite length_map, length_combine, length_seq, Nat.min_id.
  - intros i link Hlink.
    exists (lit "<div class=" ++ attr "card-icon" ++ lit ">" ++ card_icon
            ++ lit "</div>").
    unfold numbered_cards.
    transitivity (Some (card_html (0 + i) link));
      [exact (numbered_cards_nth _ 0 _ _ Hlink)|].
    cbn [Nat.add]. f_equal.
    unfold card_html, anchor_id, attr, quoted, card_id.
    repeat rewrite <- app_assoc. reflexivity.
  - exact (anchor_ids_distinct 0 (length links_info)).
  - intros fs Hext. rewrite extract_markdown_links_eq in Hext.
    cbn [fst] in Hext. injection Hext as <-.
    rewrite map_map. apply map_ext. now intros [t u].
  - intros fs segments -> Hshape Hext.
    rewrite extract_markdown_links_eq, (findall_render _ Hshape) in Hext.
    cbn [fst] in Hext. injection Hext as <-.
    assert (Hrec : map (fun l => (Chat.text l, original_link l))
                       (map (extracted_link score (inventory_of fs))
                            (filter (fun m => negb (external m))
                                    (links_of segments)))
                   = map (fun m => (fst m, markdown_of (fst m) (snd m)))
                         (filter (fun m => negb (external m))
                                 (links_of segments))).
    { rewrite map_map. apply map_ext. now intros [t u]. }
    split; [exact Hrec|].
    exact (replace_links_render segments 0 [] _ Hshape inert_nil Hrec).
Qed.

(** *** Percent-decoding *)

Lemma position_absent (c : char) (s : str) :
  ~ In c s -> position c s = None.
Proof.
  induction s as [|x s IH]; intros H; [reflexivity|]. cbn [position].
  destruct (N.eqb_spec x c) as [->|_]; [exfalso; apply H; now left|].
  rewrite IH; [reflexivity|]. intros Hin. apply H. now right.
Qed.

(** The digits of the specification are those of the library. *)
Lemma hex_digit_val (c : char) : hex_digit c = UrlLib.hex_val c.
Proof.
  destruct (N.lt_ge_cases c 103) as [Hlt|Hge].
  - assert (Hall : forallb
                     (fun n => match hex_digit (N.of_nat n),
                                     UrlLib.hex_val (N.of_nat n) with
                               | Some a, Some b => N.eqb a b
                               | None, None => true
                               | _, _ => false
                               end)
                     (seq 0 103) = true) by (vm_compute; reflexivity).
    rewrite forallb_forall in Hall.
    specialize (Hall (N.to_nat c)). rewrite N2Nat.id in Hall.
    assert (Hin : In (N.to_nat c) (seq 0 103)) by (apply in_seq; lia).
    specialize (Hall Hin).
    destruct (hex_digit c) as [a|], (UrlLib.hex_val c) as [b|];
      try discriminate; [|reflexivity].
    apply N.eqb_eq in Hall. now subst.
  - assert (Hval : UrlLib.hex_val c = None).
    { unfold UrlLib.hex_val.
      destruct (N.leb_spec 48 c), (N.leb_spec c 57), (N.leb_spec 65 c),
               (N.leb_spec c 70), (N.leb_spec 97 c), (N.leb_spec c 102);
        cbn [andb]; try reflexivity; lia. }
    rewrite Hval. unfold hex_digit.
    rewrite !position_absent; [reflexivity| |].
    + intros Hin. cbn in Hin.
      repeat (destruct Hin as [Hin|Hin]; [lia|]). exact Hin.
    + intros Hin. cbn in Hin.
      repeat (destruct Hin as [Hin|Hin]; [lia|]). exact Hin.
Qed.

Lemma utf8_decode_ascii (b : N) (r : list UrlLib.item) :
  (b <? 128)%N = true ->
  UrlLib.utf8_decode (UrlLib.Byte b :: r) = b :: UrlLib.utf8_decode r.
Proof. intros H. cbn [UrlLib.utf8_decode]. now rewrite H. Qed.

Lemma unquote_items_ascii (n : nat) :
  forall s, length s <= n -> ascii_escapes s = true ->
            UrlLib.utf8_decode (UrlLib.unquote_items s) = percent_decoded s.
Proof.
  induction n as [|n IH]; intros [|c rest] Hlen Hesc; try reflexivity;
    cbn [length] in Hlen; [lia|].
  cbn [UrlLib.unquote_items percent_decoded ascii_escapes] in Hesc |- *.
  destruct (N.eqb_spec c c_percent) as [->|Hc].
  - change (c_percent <? 128)%N with true. cbn iota.
    destruct rest as [|h [|l rest']].
    + now rewrite utf8_decode_ascii.
    + rewrite utf8_decode_ascii by reflexivity. f_equal.
      apply IH; [cbn [length] in *; lia|exact Hesc].
    + rewrite !hex_digit_val in *.
      destruct (UrlLib.hex_val h) as [a|], (UrlLib.hex_val l) as [b|];
        try (rewrite utf8_decode_ascii by reflexivity; f_equal;
             apply IH; [cbn [length] in *; lia|exact Hesc]).
      apply andb_true_iff in Hesc as [Hcode Hesc].
      rewrite utf8_decode_ascii by exact Hcode. f_equal.
      apply IH; [cbn [length] in *; lia|exact Hesc].
  - destruct (c <? 128)%N eqn:Hlt.
    + rewrite utf8_decode_ascii by exact Hlt. f_equal.
      apply IH; [lia|exact Hesc].
    + cbn [UrlLib.utf8_decode]. f_equal. apply IH; [lia|exact Hesc].
Qed.

Lemma percent_decoded_plain (s : str) :
  contains c_percent s = false -> percent_decoded s = s.
Proof.
  intros H. apply contains_false in H.
  induction s as [|c rest IH]; [reflexivity|]. cbn [percent_decoded].
  destruct (N.eqb_spec c c_percent) as [->|_]; [exfalso; apply H; now left|].
  f_equal. apply IH. intros Hin. apply H. now right.
Qed.

(** The decoding of the library, on a text whose escapes stand for ASCII
    characters, is the percent-decoding of the specification. *)
Lemma unquote_ascii (s : str) :
  ascii_escapes s = true -> UrlLib.unquote s = percent_decoded s.
Proof.
  intros H. unfold UrlLib.unquote.
  destruct (contains c_percent s) eqn:E; cbn [negb].
  - now apply (unquote_items_ascii (length s)).
  - symmetry. now apply percent_decoded_plain.
Qed.

Lemma extracted_link_describes (inventory : option Inventory)
      (link_text url : str) :
  describes score inventory link_text url
            (extracted_link score inventory (link_text, url)).
Proof.
  unfold describes, extracted_link.
  cbn [Chat.text original_link filename Chat.url fuzzy_matched].
  split; [apply unquote_ascii|]. repeat split.
  destruct (find_best_match score _ inventory); split; reflexivity.
Qed.

Lemma links_of_link (segments : list segment) (t u : str) :
  In (Link t u) segments -> In (t, u) (links_of segments).
Proof.
  intros H. unfold links_of. apply in_flat_map.
  exists (Link t u). split; [exact H|now left].
Qed.

(** C3.  The records of [extract_markdown_links] are, in the order of the
    text, those of the matches of the pattern whose URL is not external,
    and every record comes from such a match; in a message made of prose
    without opening bracket and of well-formed links these matches are the
    links of the message, so that every link that is not external gets its
    record, in the order of appearance.  For each such link the candidate
    filename is the last path segment of the URL, or the link text when
    that segment is missing or has no dot; the candidate is
    percent-decoded (an escape of an ASCII character becomes that
    character) and the decoded name is what the resolver receives; the
    [filename] field is the decoded name up to its first dot; the [url]
    field is [/gradio_api/file=] followed by the resolved path when the
    resolver found one, the URL of the link otherwise. *)
Theorem extract_markdown_links_records (text : str) (fs : Fs.FileSystem) :
  exists records,
    extract_markdown_links score text fs = (Returns records, fs) /\
    records
    = map (extracted_link score (inventory_of fs))
          (filter (fun link => negb (external link)) (Re.findall text)) /\
    (forall link_text url,
        In (link_text, url) (Re.findall text) -> is_external url = false ->
        exists record,
          In record records /\
          describes score (inventory_of fs) link_text url record) /\
    (forall record,
        In record records ->
        exists link_text url,
          In (link_text, url) (Re.findall text) /\ is_external url = false /\
          describes score (inventory_of fs) link_text url record) /\
    (forall segments,
        text = render segments ->
        forallb shaped segments = true ->
        map Chat.text records
        = map fst (filter (fun link => negb (external link))
                          (links_of segments)) /\
        forall link_text url,
          In (Link link_text url) segments -> is_external url = false ->
          exists record,
            In record records /\
            describes score (inventory_of fs) link_text url record).
Proof.
  eexists. split; [apply extract_markdown_links_eq|].
  split; [reflexivity|].
  assert (Hmatch : forall matches link_text url,
             In (link_text, url) matches -> is_external url = false ->
             exists record,
               In record
                  (map (extracted_link score (inventory_of fs))
                       (filter (fun link => negb (external link)) matches)) /\
               describes score (inventory_of fs) link_text url record).
  { intros matches link_text url Hin Hext.
    exists (extracted_link score (inventory_of fs) (link_text, url)).
    split; [|apply extracted_link_describes].
    apply in_map, filter_In. split; [exact Hin|].
    unfold external. cbn [snd]. now rewrite Hext. }
  split; [apply Hmatch|]. split.
  - intros record Hrec. apply in_map_iff in Hrec as ([t u] & <- & Hin).
    apply filter_In in Hin as [Hin Hext]. apply negb_true_iff in Hext.
    exists t, u. split; [exact Hin|]. split; [exact Hext|].
    apply extracted_link_describes.
  - intros segments -> Hshape. rewrite (findall_render _ Hshape). split.
    + rewrite map_map. apply map_ext. now intros [t u].
    + intros link_text url Hin Hext.
      apply Hmatch; [now apply links_of_link|exact Hext].
Qed.

(** C9, as amended.  Whatever the file system holds and whatever the
    scorer answers, the records of the extraction are exactly those of the
    links whose URL is not external: there are as many records (hence as
    many cards) as such links, every record comes from one of them, and no
    record carries the markdown of an external link, so that no replacement
    searches for an external link.  In a message made of prose without
    opening bracket and of links whose text and URL are not empty and hold
    no opening bracket (the text no closing bracket, the URL no closing
    parenthesis), the rewrite leaves every external link as it is. *)
Theorem external_links_are_skipped (text : str) (fs : Fs.FileSystem) :
  (exists records,
      extract_markdown_links score text fs = (Returns records, fs) /\
      length records
      = length (filter (fun m => negb (external m)) (Re.findall text)) /\
      (forall l, In l records ->
                 exists t u,
                   In (t, u) (Re.findall text) /\ is_external u = false /\
                   Chat.text l = t /\ original_link l = markdown_of t u) /\
      (forall t u l,
          In (t, u) (Re.findall text) -> is_external u = true ->
          In l records -> original_link l <> markdown_of t u)) /\
  (forall segments,
      text = render segments ->
      forallb shaped segments = true ->
      exists cards,
        rewrite_pass score fs text = render (anchored 0 segments) ++ cards /\
        forall t u, In (Link t u) segments -> is_external u = true ->
                    In (Link t u) (anchored 0 segments)).
Proof.
  split.
  - eexists. split; [apply extract_markdown_links_eq|].
    assert (Hrec : forall l,
               In l (map (extracted_link score (inventory_of fs))
                         (filter (fun m => negb (external m))
                                 (Re.findall text))) ->
               exists t u,
                 In (t, u) (Re.findall text) /\ is_external u = false /\
                 Chat.text l = t /\ original_link l = markdown_of t u).
    { intros l Hl. apply in_map_iff in Hl as ([t u] & <- & Hin).
      apply filter_In in Hin as [Hin Hext]. apply negb_true_iff in Hext.
      exists t, u. auto. }
    split; [now rewrite length_map|]. split; [exact Hrec|].
    intros t u l Hin Hext Hl E.
    destruct (Hrec l Hl) as (t' & u' & Hin' & Hext' & _ & E').
    rewrite E' in E.
    apply findall_groups in Hin as [Ht Hu].
    apply findall_groups in Hin' as [Ht' Hu'].
    apply markdown_of_inj in E as [-> ->]; auto. congruence.
  - intros segments -> Hwf. eexists.
    split; [now apply rewrite_pass_render|].
    intros t u. apply anchored_keeps_external.
Qed.

(** C6, as amended.  Let the message be made of prose without opening
    bracket and of well-formed links (text and URL without opening bracket,
    and without percent sign when the link is not external), and let no
    path of the inventory hold an opening bracket.  Then the rewritten
    message yields no extracted link when the extraction is run again, and
    a second pass of extraction and rewrite leaves it unchanged. *)
Theorem rewrite_pass_twice (fs : Fs.FileSystem) (segments : list segment) :
  forallb well_formed segments = true ->
  (forall files f, inventory_of fs = Some files -> In f files ->
                   plain (path f) = true) ->
  fst (extract_markdown_links score
         (rewrite_pass score fs (render segments)) fs) = Returns [] /\
  rewrite_pass score fs (rewrite_pass score fs (render segments))
  = rewrite_pass score fs (render segments).
Proof.
  intros Hwf Hinv.
  assert (Hshape : exists cards,
             plain cards = true /\
             rewrite_pass score fs (render segments)
             = render (anchored 0 segments ++ [Prose cards])).
  { rewrite (rewrite_pass_render fs segments (well_formed_shaped _ Hwf)).
    eexists. split; [|rewrite render_app; unfold render at 3; cbn [map concat];
                      now rewrite app_nil_r].
    destruct (filter (fun m => negb (external m)) (links_of segments))
      as [|m links] eqn:E; [reflexivity|].
    apply plain_cards_container, plain_numbered_cards, Forall_forall.
    intros l Hl.
    change (In l (map (extracted_link score (inventory_of fs)) (m :: links)))
      in Hl.
    apply in_map_iff in Hl as ([t u] & <- & Hin).
    rewrite <- E in Hin. apply filter_In in Hin as [Hin Hext].
    apply negb_true_iff in Hext. unfold external in Hext. cbn [snd] in Hext.
    apply plain_extracted_link; auto.
    unfold links_of in Hin. apply in_flat_map in Hin as (sg & Hsg & Hin).
    rewrite forallb_forall in Hwf. specialize (Hwf sg Hsg).
    destruct sg as [s|t' u']; [contradiction|].
    destruct Hin as [[= -> ->]|[]]. exact Hwf. }
  destruct Hshape as (cards & Hcards & ->).
  assert (Hwf' : forallb well_formed (anchored 0 segments ++ [Prose cards])
                 = true).
  { rewrite forallb_app, (well_formed_anchored _ 0 Hwf). cbn.
    now rewrite Hcards. }
  assert (Hnone : fst (extract_markdown_links score
                         (render (anchored 0 segments ++ [Prose cards])) fs)
                  = Returns []).
  { rewrite extract_markdown_links_eq,
            (findall_render _ (well_formed_shaped _ Hwf')).
    cbn [fst]. unfold links_of. rewrite flat_map_app. cbn [flat_map].
    rewrite app_nil_r. fold (links_of (anchored 0 segments)).
    now rewrite anchored_links_external. }
  split; [exact Hnone|]. unfold rewrite_pass at 1. now rewrite Hnone.
Qed.

End Passes.

(** ** Concrete runs *)

Section Runs.
Import PathLib Chat.

(** The scenario of two links to the same file: two cards, numbered 0
    and 1, and two anchors. *)
Example duplicate_links_get_two_cards :
  Spec.rewrite_pass Sample.exact_score Sample.no_directory
                    (lit "[x](a.pdf) [x](a.pdf)")
  = anchor_link 0 (lit "x") ++ lit " " ++ anchor_link 1 (lit "x")
    ++ cards_container
         [card_html 0 (mkLink (lit "a") (lit "a.pdf") (lit "[x](a.pdf)")
                              (lit "x") false);
          card_html 1 (mkLink (lit "a") (lit "a.pdf") (lit "[x](a.pdf)")
                              (lit "x") false)].
Proof. vm_compute. reflexivity. Qed.

(** A whole turn: the reply arrives as one chunk, its link is resolved
    against the inventory, and the turn is published a second time with the
    anchor and the card. *)
Example turn_with_resolved_link :
  turn Sample.exact_score Sample.answering None Sample.two_reports
       Sample.one_question
  = mkTurn
      [Sample.one_question
       ++ [mkEntry (lit "assistant") (lit "Check [this](report.pdf)")];
       Sample.one_question
       ++ [mkEntry (lit "assistant")
             (lit "Check " ++ anchor_link 0 (lit "this")
              ++ cards_container
                   [card_html 0
                      (mkLink (lit "report")
                         (lit "/gradio_api/file=public/files/a/report.pdf")
                         (lit "[this](report.pdf)") (lit "this") true)])]]
      None.
Proof. vm_compute. reflexivity. Qed.

(** The percent-encoded name is decoded before it is resolved. *)
Example percent_decoded_candidate :
  Spec.extracted_link Sample.exact_score None
                      (lit "notes", lit "docs/my%20notes.v2.txt")
  = mkLink (lit "my notes") (lit "docs/my%20notes.v2.txt")
           (lit "[notes](docs/my%20notes.v2.txt)") (lit "notes") false.
Proof. vm_compute. reflexivity. Qed.

(** Escapes of characters outside ASCII are decoded as UTF-8, and a byte
    that is no UTF-8 becomes U+FFFD. *)
Example percent_decoded_utf8 :
  UrlLib.unquote (lit "caf%C3%A9.pdf") = lit "caf" ++ [233%N] ++ lit ".pdf" /\
  UrlLib.unquote (lit "a%FFb") = lit "a" ++ [UrlLib.replacement] ++ lit "b" /\
  UrlLib.unquote (lit "100%_sure%2") = lit "100%_sure%2".
Proof. vm_compute. repeat split; reflexivity. Qed.

(** The score is rounded to the nearest integer, a half to the even one:
    60.5 is reported as 60 and stays below the threshold, 60.51 is reported
    as 61. *)
Example reported_score_is_rounded :
  Fuzz.py_round (121 # 2) = 60%Z /\
  Fuzz.py_round (6051 # 100) = 61%Z /\
  Fuzz.py_round (123 # 2) = 62%Z /\
  Fuzz.py_round (1600 # 17) = 94%Z /\
  Fuzz.py_round (850 # 9) = 94%Z.
Proof. vm_compute. repeat split; reflexivity. Qed.

(** C1 as stated fails: the markup of the message holds the id
    [source-card-0], and the rewritten message holds it twice, once in the
    text of the message and once in the card of its link. *)
Lemma message_id_is_repeated :
  fst (extract_markdown_links Sample.exact_score Sample.message_with_id
                              Sample.no_directory)
  = Returns [mkLink (lit "a") (lit "a.pdf") (lit "[report](a.pdf)")
                    (lit "report") false] /\
  rewrite_message Sample.message_with_id
                  [mkLink (lit "a") (lit "a.pdf") (lit "[report](a.pdf)")
                          (lit "report") false]
  = lit "<b " ++ (lit "id=" ++ Spec.quoted (Spec.card_id 0))
    ++ lit ">Sources</b> " ++ anchor_link 0 (lit "report")
    ++ [c_newline; c_newline]
    ++ lit "<div class=" ++ Spec.quoted (lit "source-cards-container")
    ++ lit ">"
    ++ lit "<div class=" ++ Spec.quoted (lit "source-card") ++ lit " "
    ++ (lit "id=" ++ Spec.quoted (Spec.card_id 0))
    ++ lit ">" ++ lit "<div class=" ++ Spec.quoted (lit "card-icon")
    ++ lit ">" ++ card_icon ++ lit "</div><div class="
    ++ Spec.quoted (lit "card-title") ++ lit ">a</div><a href="
    ++ Spec.quoted (lit "a.pdf") ++ lit " class="
    ++ Spec.quoted (lit "card-link") ++ lit " target="
    ++ Spec.quoted (lit "_blank") ++ lit ">Download</a></div>"
    ++ lit "</div>".
Proof. vm_compute. split; reflexivity. Qed.

(** C5 on an inventory in which two files of the same stem follow a file
    that scores less: the first of the two is returned. *)
Lemma find_best_match_first_of_ties_witness :
  (forall g, In g [Sample.summary_a] ->
             (Sample.exact_score (stem (Path (lit "report.pdf")))
                                 (name_without_ext g)
              < Sample.exact_score (stem (Path (lit "report.pdf")))
                                   (name_without_ext Sample.report_a))%Q) /\
  (forall g, In g [Sample.report_b] ->
             (Sample.exact_score (stem (Path (lit "report.pdf")))
                                 (name_without_ext g)
              <= Sample.exact_score (stem (Path (lit "report.pdf")))
                                    (name_without_ext Sample.report_a))%Q) /\
  find_best_match Sample.exact_score (lit "report.pdf")
                  (Some ([Sample.summary_a]
                         ++ Sample.report_a :: [Sample.report_b]))
  = Some (lit "public/files/a/report.pdf").
Proof.
  assert (H1 : forall g, In g [Sample.summary_a] ->
             (Sample.exact_score (stem (Path (lit "report.pdf")))
                                 (name_without_ext g)
              < Sample.exact_score (stem (Path (lit "report.pdf")))
                                   (name_without_ext Sample.report_a))%Q).
  { intros g [<-|[]]. vm_compute. reflexivity. }
  assert (H2 : forall g, In g [Sample.report_b] ->
             (Sample.exact_score (stem (Path (lit "report.pdf")))
                                 (name_without_ext g)
              <= Sample.exact_score (stem (Path (lit "report.pdf")))
                                    (name_without_ext Sample.report_a))%Q).
  { intros g [<-|[]]. apply Qle_bool_iff. vm_compute. reflexivity. }
  split; [exact H1|]. split; [exact H2|].
  exact (find_best_match_first_of_ties Sample.exact_score (lit "report.pdf")
           [Sample.summary_a] [Sample.report_b] Sample.report_a H1 H2).
Defined.

(** C5 as stated fails: the two files are reported with the same score,
    94, which is the maximum and exceeds 60, and the path of the second is
    returned, because its unrounded score is the greater one. *)
Lemma later_entry_wins_a_reported_tie :
  Fuzz.reported Sample.close_score (stem (Path (lit "annual_report_2024.pdf")))
                (name_without_ext Sample.annual_2024) = 94%Z /\
  Fuzz.reported Sample.close_score (stem (Path (lit "annual_report_2024.pdf")))
                (name_without_ext Sample.annual_2023) = 94%Z /\
  Fuzz.extractOne Sample.close_score
                  (stem (Path (lit "annual_report_2024.pdf")))
                  (map name_without_ext
                       [Sample.annual_2024; Sample.annual_2023])
  = Some (lit "annual_report_2023", 94%Z) /\
  find_best_match Sample.close_score (lit "annual_report_2024.pdf")
                  (Some [Sample.annual_2024; Sample.annual_2023])
  = Some (path Sample.annual_2023).
Proof. vm_compute. repeat split; reflexivity. Qed.

(** The threshold applies to ties as well: both files attain the maximum
    score, which is 0, and no path is returned. *)
Example tie_below_threshold_is_absent :
  Fuzz.reported Sample.exact_score (stem (Path (lit "zzz.pdf")))
                (name_without_ext Sample.report_a) = 0%Z /\
  Fuzz.reported Sample.exact_score (stem (Path (lit "zzz.pdf")))
                (name_without_ext Sample.report_b) = 0%Z /\
  find_best_match Sample.exact_score (lit "zzz.pdf")
                  (Some [Sample.report_a; Sample.report_b])
  = None.
Proof. vm_compute. repeat split; reflexivity. Qed.

(** C6 on a message with a file link and an external link. *)
Lemma rewrite_pass_twice_witness :
  forallb Spec.well_formed Sample.tidy_message = true /\
  (forall files f,
      Spec.inventory_of Sample.two_reports = Some files -> In f files ->
      Spec.plain (path f) = true) /\
  fst (extract_markdown_links Sample.exact_score
         (Spec.rewrite_pass Sample.exact_score Sample.two_reports
                            (Spec.render Sample.tidy_message))
         Sample.two_reports) = Returns [] /\
  Spec.rewrite_pass Sample.exact_score Sample.two_reports
    (Spec.rewrite_pass Sample.exact_score Sample.two_reports
                       (Spec.render Sample.tidy_message))
  = Spec.rewrite_pass Sample.exact_score Sample.two_reports
                      (Spec.render Sample.tidy_message).
Proof.
  assert (H1 : forallb Spec.well_formed Sample.tidy_message = true)
    by (vm_compute; reflexivity).
  assert (H2 : forall files f,
             Spec.inventory_of Sample.two_reports = Some files -> In f files ->
             Spec.plain (path f) = true).
  { intros files f H. vm_compute in H. injection H as <-.
    intros [<-|[<-|[]]]; vm_compute; reflexivity. }
  split; [exact H1|]. split; [exact H2|].
  exact (rewrite_pass_twice Sample.exact_score Sample.two_reports
           Sample.tidy_message H1 H2).
Defined.

(** C6 as stated fails: the rewritten message holds a new markdown link,
    made of the end of an anchor and of the text behind it, and a second
    pass changes the message again. *)
Lemma second_extraction_finds_a_link :
  Spec.rewrite_pass Sample.exact_score Sample.no_directory
                    Sample.nested_message
  = anchor_link 0 (lit "![diagram") ++ lit "](docs/overview.pdf)"
    ++ cards_container
         [card_html 0 (mkLink (lit "diagram") (lit "diagram.png")
                              (lit "[![diagram](diagram.png)")
                              (lit "![diagram") false)] /\
  (exists link,
      fst (extract_markdown_links Sample.exact_score
             (Spec.rewrite_pass Sample.exact_score Sample.no_directory
                                Sample.nested_message)
             Sample.no_directory) = Returns [link] /\
      text link = lit "diagram</a>" /\ url link = lit "docs/overview.pdf") /\
  str_eqb
    (Spec.rewrite_pass Sample.exact_score Sample.no_directory
       (Spec.rewrite_pass Sample.exact_score Sample.no_directory
                          Sample.nested_message))
    (Spec.rewrite_pass Sample.exact_score Sample.no_directory
                       Sample.nested_message)
  = false.
Proof.
  split; [vm_compute; reflexivity|]. split.
  - eexists. split; [vm_compute; reflexivity|]. split; reflexivity.
  - vm_compute. reflexivity.
Qed.

(** C7 on a stream that raises after one chunk. *)
Lemma bot_replaces_content_on_error_witness :
  last_content Sample.one_question = Some (lit "Where is the report?") /\
  (ending (Sample.broken_stream (lit "Where is the report?")) <> None \/
   exists e,
     fst (extract_markdown_links Sample.exact_score
            (concat (chunks (Sample.broken_stream
                               (lit "Where is the report?"))))
            Sample.no_directory) = Raises e) /\
  bot Sample.exact_score Sample.broken_stream Sample.no_directory
      Sample.one_question
  = mkTurn (Spec.partial_turns Sample.one_question
              (chunks (Sample.broken_stream (lit "Where is the report?")))
            ++ [Sample.one_question ++ [mkEntry (lit "assistant") error_msg]])
           None.
Proof.
  assert (H1 : last_content Sample.one_question
               = Some (lit "Where is the report?")) by reflexivity.
  assert (H2 : ending (Sample.broken_stream (lit "Where is the report?"))
               <> None \/
               exists e,
                 fst (extract_markdown_links Sample.exact_score
                        (concat (chunks (Sample.broken_stream
                                           (lit "Where is the report?"))))
                        Sample.no_directory) = Raises e)
    by (left; discriminate).
  split; [exact H1|]. split; [exact H2|].
  exact (bot_replaces_content_on_error Sample.exact_score
           Sample.broken_stream Sample.no_directory Sample.one_question
           (lit "Where is the report?") H1 H2).
Defined.

(** C9 as stated fails: the text of the external link is altered, the
    anchor of the link behind it lands inside its URL, and that link stays
    in markdown. *)
Lemma external_link_is_altered :
  Re.findall Sample.embedded_message
  = [(lit "t", lit "http://e/[a](b.pdf"); (lit "a", lit "b.pdf")] /\
  is_external (lit "http://e/[a](b.pdf") = true /\
  Spec.rewrite_pass Sample.exact_score Sample.no_directory
                    Sample.embedded_message
  = lit "[t](http://e/" ++ anchor_link 0 (lit "a") ++ lit " [a](b.pdf)"
    ++ cards_container
         [card_html 0 (mkLink (lit "b") (lit "b.pdf") (lit "[a](b.pdf)")
                              (lit "a") false)].
Proof. vm_compute. repeat split; reflexivity. Qed.

(** C4 as stated fails: a run that reports [failed] is delivered as an
    ordinary text chunk, the stream ends normally, and the turn shows that
    text. *)
Lemma failed_run_is_delivered_as_text :
  Spec.agent_stream Sample.failing_run None (lit "hello")
  = mkStream
      [lit "Sorry, I encountered an error while processing your request: rate limit"]
      None /\
  turn Sample.exact_score Sample.failing_run None Sample.no_directory
       Sample.one_question
  = mkTurn
      [Sample.one_question
       ++ [mkEntry (lit "assistant")
             (lit "Sorry, I encountered an error while processing your request: rate limit")]]
      None.
Proof. vm_compute. split; reflexivity. Qed.

(** C10 as stated fails: when the thread cannot be created the stream
    yields no chunk at all and ends with the exception. *)
Lemma thread_error_yields_no_chunk :
  Spec.agent_stream Sample.no_thread None (lit "hello")
  = mkStream [] (Some (lit "connection refused")).
Proof. vm_compute. reflexivity. Qed.

End Runs.

(* ================================================================== *)
(** * Further properties *)
(* ================================================================== *)

(** ** What the scan records *)

Section ScanRecords.
Import PathLib Chat Spec.

Ltac io := unfold Fs.bind, Fs.ret, Fs.raise, Fs.lift, Fs.try_except,
                  Fs.path_exists, Fs.path_is_file, Fs.path_rglob in *.

Lemma relative_to_dot_relative (p : PurePath) :
  root p = [] ->
  PathOps.relative_to p (Path [c_dot]) = Returns (mkPath [] (tail p)).
Proof. unfold PathOps.relative_to. cbn. now intros ->. Qed.

Lemma relative_to_dot_rooted (p : PurePath) :
  root p <> [] ->
  exists e, PathOps.relative_to p (Path [c_dot]) = Raises e.
Proof.
  unfold PathOps.relative_to. cbn. intros H.
  destruct (str_eqb (root p) []) eqn:E; [|eauto].
  apply str_eqb_eq in E. contradiction.
Qed.

(** When every query answers and every regular file has a relative path,
    the loop appends the records of the regular files, in the order of the
    walk. *)
Lemma scan_entries_lists (fs : Fs.FileSystem) (entries : list str) :
  forall all_files,
    (forall entry, In entry entries ->
                   exists b, Fs.fs_is_file fs (Path entry) = Returns b) ->
    (forall entry, In entry entries -> is_regular fs entry = true ->
                   root (Path entry) = []) ->
    scan_entries entries all_files fs
    = (Returns (all_files
                ++ map file_record (filter (is_regular fs) entries)), fs).
Proof.
  induction entries as [|x rest IH]; intros all_files Hq Hrel.
  - simpl. unfold Fs.ret. now rewrite app_nil_r.
  - cbn [scan_entries filter]. io. unfold is_regular at 1.
    assert (Hx : is_regular fs x = true -> root (Path x) = [])
      by (apply Hrel; now left).
    unfold is_regular in Hx.
    destruct (Hq x (or_introl eq_refl)) as [b Hb]. rewrite Hb in Hx |- *.
    destruct b.
    + rewrite (relative_to_dot_relative _ (Hx eq_refl)).
      rewrite IH; [|intros; apply Hq; now right
                   |intros; apply Hrel; [now right|assumption]].
      cbn [map]. now rewrite <- app_assoc.
    + apply IH; [intros; apply Hq; now right
                |intros; apply Hrel; [now right|assumption]].
Qed.

(** A regular file with a rooted path makes the loop raise. *)
Lemma scan_entries_rooted (fs : Fs.FileSystem) (entries : list str)
      (entry : str) :
  forall all_files,
    In entry entries ->
    Fs.fs_is_file fs (Path entry) = Returns true ->
    root (Path entry) <> [] ->
    exists e, fst (scan_entries entries all_files fs) = Raises e.
Proof.
  induction entries as [|x rest IH]; intros all_files Hin Hreg Hroot;
    [contradiction|].
  cbn [scan_entries]. io. destruct Hin as [->|Hin].
  - rewrite Hreg. destruct (relative_to_dot_rooted _ Hroot) as [e ->].
    now exists e.
  - destruct (Fs.fs_is_file fs (Path x)) as [[|]|ex]; cbn [fst]; eauto.
    destruct (PathOps.relative_to (Path x) _); cbn [fst]; eauto.
Qed.

(** Every record of the loop comes from a regular file of the walk whose
    path is relative. *)
Lemma scan_entries_sources (fs : Fs.FileSystem) (entries : list str) :
  forall all_files inventory,
    fst (scan_entries entries all_files fs) = Returns inventory ->
    forall f, In f inventory ->
              In f all_files \/
              exists entry,
                In entry entries /\ is_regular fs entry = true /\
                root (Path entry) = [] /\ f = file_record entry.
Proof.
  induction entries as [|x rest IH]; intros all_files inventory H f Hf.
  - simpl in H. injection H as <-. now left.
  - cbn [scan_entries] in H. io.
    destruct (Fs.fs_is_file fs (Path x)) as [[|]|ex] eqn:Hx;
      [| |discriminate].
    + destruct (str_eqb (root (Path x)) []) eqn:Hroot.
      * apply str_eqb_eq in Hroot.
        rewrite (relative_to_dot_relative _ Hroot) in H.
        destruct (IH _ _ H f Hf) as [Hacc|(entry & Hin & Hr & Hrel & E)].
        -- apply in_app_or in Hacc as [Hacc|[<-|[]]]; [now left|].
           right. exists x. unfold is_regular. rewrite Hx.
           repeat split; auto. now left.
        -- right. exists entry. repeat split; auto. now right.
      * apply str_eqb_neq in Hroot.
        destruct (relative_to_dot_rooted _ Hroot) as [e He].
        rewrite He in H. discriminate.
    + destruct (IH _ _ H f Hf) as [Hacc|(entry & Hin & Hr & Hrel & E)];
        [now left|].
      right. exists entry. repeat split; auto. now right.
Qed.

Lemma scan_sources (files_directory : str) (fs : Fs.FileSystem)
      (inventory : Inventory) :
  fst (scan_files_directory files_directory fs) = Returns (Some inventory) ->
  Fs.fs_exists fs (Path files_directory) = Returns true /\
  forall f, In f inventory ->
            exists entry,
              In entry (fst (Fs.fs_rglob fs (Path files_directory))) /\
              is_regular fs entry = true /\
              root (Path entry) = [] /\ f = file_record entry.
Proof.
  unfold scan_files_directory; io.
  destruct (Fs.fs_exists fs (Path files_directory)) as [[|]|e];
    cbn [negb fst]; try discriminate.
  destruct (scan_entries (fst (Fs.fs_rglob fs (Path files_directory))) [] fs)
    as [[all_files|e] fs'] eqn:E; [|discriminate].
  destruct (snd (Fs.fs_rglob fs (Path files_directory))); [discriminate|].
  destruct all_files as [|f0 all_files]; [discriminate|].
  cbn [fst]. intros [= <-]. split; [reflexivity|]. intros f Hf.
  assert (E' : fst (scan_entries
                      (fst (Fs.fs_rglob fs (Path files_directory))) [] fs)
               = Returns (f0 :: all_files)) by now rewrite E.
  destruct (scan_entries_sources _ _ _ _ E' f Hf) as [[]|H]. exact H.
Qed.

(** X1.  When the directory exists, the walk ends without error, every
    entry can be tested and every regular file has a relative path, the
    inventory holds exactly the records of the regular files, in the order
    of the walk (and is absent when there is none). *)
Theorem scan_lists_regular_files (files_directory : str)
        (fs : Fs.FileSystem) :
  Fs.fs_exists fs (Path files_directory) = Returns true ->
  snd (Fs.fs_rglob fs (Path files_directory)) = None ->
  (forall entry, In entry (fst (Fs.fs_rglob fs (Path files_directory))) ->
                 exists b, Fs.fs_is_file fs (Path entry) = Returns b) ->
  (forall entry, In entry (fst (Fs.fs_rglob fs (Path files_directory))) ->
                 is_regular fs entry = true -> root (Path entry) = []) ->
  scan_files_directory files_directory fs
  = (Returns
       match map file_record
                 (filter (is_regular fs)
                         (fst (Fs.fs_rglob fs (Path files_directory)))) with
       | [] => None
       | record :: records => Some (record :: records)
       end,
     fs).
Proof.
  intros Hex Hwalk Hq Hrel. unfold scan_files_directory; io.
  rewrite Hex. cbn [negb]. rewrite (scan_entries_lists fs _ [] Hq Hrel), Hwalk.
  cbn [app].
  now destruct (map file_record _).
Qed.

Lemma rooted_path (entry : str) :
  startswith [c_slash] entry = true -> root (Path entry) <> [].
Proof.
  destruct entry as [|a p1]; [discriminate|]. cbn [startswith].
  rewrite andb_true_r, N.eqb_sym. intros Ha.
  unfold Path, splitroot. rewrite Ha.
  destruct p1 as [|b p2]; [discriminate|].
  destruct (N.eqb b c_slash); [|discriminate].
  destruct p2 as [|c p3]; [discriminate|].
  destruct (N.eqb c c_slash); discriminate.
Qed.

(** X2.  A regular file that the walk reports with an absolute path makes
    the scan return the absent inventory, whatever else the directory
    holds: such a path is not relative to the working directory. *)
Theorem scan_absolute_path_is_absent (files_directory : str)
        (fs : Fs.FileSystem) (entry : str) :
  In entry (fst (Fs.fs_rglob fs (Path files_directory))) ->
  Fs.fs_is_file fs (Path entry) = Returns true ->
  startswith [c_slash] entry = true ->
  scan_files_directory files_directory fs = (Returns None, fs).
Proof.
  intros Hin Hreg Habs. apply rooted_path in Habs.
  unfold scan_files_directory; io.
  destruct (Fs.fs_exists fs (Path files_directory)) as [[|]|e];
    cbn [negb]; auto.
  destruct (scan_entries_rooted fs _ entry [] Hin Hreg Habs) as [e He].
  rewrite scan_entries_result, He. reflexivity.
Qed.

(** *** The path of a record read again *)

Lemma split_on_no_sep (sep : char) (s w : str) :
  In w (split_on sep s) -> ~ In sep w.
Proof.
  revert w; induction s as [|x s IH]; intros w Hw; simpl in Hw.
  - destruct Hw as [<-|[]]. auto.
  - destruct (N.eqb_spec x sep) as [->|Hx].
    + destruct Hw as [<-|Hw]; [auto|]. now apply IH.
    + destruct (split_on sep s) as [|w0 ws].
      * destruct Hw as [<-|[]]. intros [E|[]]. congruence.
      * destruct Hw as [<-|Hw].
        -- intros [E|Hin]; [congruence|]. apply (IH w0); [now left|exact Hin].
        -- apply IH. now right.
Qed.

Lemma split_on_without_sep (sep : char) (w : str) :
  ~ In sep w -> split_on sep w = [w].
Proof.
  induction w as [|x w IH]; intros H; [reflexivity|]. simpl.
  destruct (N.eqb_spec x sep) as [->|Hx]; [exfalso; apply H; now left|].
  rewrite IH; [reflexivity|]. intros Hin. apply H. now right.
Qed.

Lemma split_on_app_sep (sep : char) (w rest : str) :
  ~ In sep w -> split_on sep (w ++ sep :: rest) = w :: split_on sep rest.
Proof.
  induction w as [|x w IH]; intros H; simpl.
  - now rewrite N.eqb_refl.
  - destruct (N.eqb_spec x sep) as [->|Hx]; [exfalso; apply H; now left|].
    rewrite IH; [reflexivity|]. intros Hin. apply H. now right.
Qed.

(** Joining and splitting again gives the components back. *)
Lemma split_on_join (sep : char) (t : list str) :
  t <> [] -> Forall (fun w => ~ In sep w) t ->
  split_on sep (join [sep] t) = t.
Proof.
  induction t as [|w t IH]; intros Hne Hall; [contradiction|].
  inversion Hall as [|? ? Hw Ht]; subst.
  destruct t as [|w' t].
  - simpl. now apply split_on_without_sep.
  - change (join [sep] (w :: w' :: t)) with (w ++ sep :: join [sep] (w' :: t)).
    rewrite split_on_app_sep by assumption. f_equal. apply IH; [discriminate|].
    exact Ht.
Qed.

Lemma tail_components_valid (p : str) :
  Forall (fun w => is_component w = true /\ ~ In c_slash w) (tail (Path p)).
Proof.
  unfold Path. destruct p as [|c p]; [constructor|].
  destruct (splitroot (c :: p)) as [r rel]. cbn [tail].
  apply Forall_forall. intros w Hw. apply filter_In in Hw as [Hin Hc].
  split; [exact Hc|]. now apply split_on_no_sep in Hin.
Qed.

Lemma filter_all (A : Type) (f : A -> bool) (l : list A) :
  Forall (fun x => f x = true) l -> filter f l = l.
Proof.
  induction 1 as [|x l Hx _ IH]; [reflexivity|]. simpl. now rewrite Hx, IH.
Qed.

(** The string of a relative path is parsed to the same components. *)
Lemma Path_to_str (t : list str) :
  Forall (fun w => is_component w = true /\ ~ In c_slash w) t ->
  Path (to_str (mkPath [] t)) = mkPath [] t.
Proof.
  intros Hall. destruct t as [|w t]; [reflexivity|].
  unfold to_str. cbn [root tail app].
  assert (Hsplit : split_on c_slash (join [c_slash] (w :: t)) = w :: t).
  { apply split_on_join; [discriminate|].
    eapply Forall_impl; [|exact Hall]. now intros a [_ Ha]. }
  assert (Hfilter : filter is_component (w :: t) = w :: t).
  { apply filter_all. eapply Forall_impl; [|exact Hall]. now intros a [Ha _]. }
  inversion Hall as [|? ? [Hw Hslash] _]; subst.
  destruct (join [c_slash] (w :: t)) as [|a rest] eqn:E.
  - destruct w as [|x w]; [discriminate Hw|]. destruct t; discriminate E.
  - assert (Ha : N.eqb a c_slash = false).
    { destruct w as [|x w]; [discriminate Hw|].
      assert (a = x) by (destruct t; simpl in E; congruence). subst a.
      apply N.eqb_neq. intros ->. apply Hslash. now left. }
    unfold Path, splitroot. rewrite Ha, Hsplit, Hfilter. reflexivity.
Qed.

(** X3.  The path stored in a record of the inventory leads back to the
    file: it is relative, its last component is the full name of the
    record, and the stem of that component is the name the resolver
    compares with. *)
Theorem scanned_record_is_consistent (files_directory : str)
        (fs : Fs.FileSystem) (inventory : Inventory) (f : FileRecord) :
  fst (scan_files_directory files_directory fs) = Returns (Some inventory) ->
  In f inventory ->
  root (Path (path f)) = [] /\
  name (Path (path f)) = full_name f /\
  stem (Path (path f)) = name_without_ext f.
Proof.
  intros Hscan Hf.
  destruct (scan_sources _ _ _ Hscan) as [_ Hsrc].
  destruct (Hsrc f Hf) as (entry & _ & _ & _ & ->).
  unfold file_record. cbn [path full_name name_without_ext].
  rewrite (Path_to_str _ (tail_components_valid entry)).
  unfold stem, name. cbn [root tail]. auto.
Qed.

End ScanRecords.

(** ** The resolver on a scanned directory *)

Section ClosestFile.
Import PathLib Chat Spec.

Variable score : str -> str -> Q.

(** X4.  [find_closest_file] never raises and only reads the file system;
    it returns the absent result when the directory does not exist; a path
    it returns is the recorded path of a regular file of the walk, whose
    stem is reported with a score above 60 against the stem of the
    requested name. *)
Theorem find_closest_file_sound (filename files_directory : str)
        (fs : Fs.FileSystem) :
  exists result,
    find_closest_file score filename files_directory fs
    = (Returns result, fs) /\
    (Fs.fs_exists fs (Path files_directory) = Returns false ->
     result = None) /\
    forall p,
      result = Some p ->
      exists entry,
        In entry (fst (Fs.fs_rglob fs (Path files_directory))) /\
        is_regular fs entry = true /\
        p = path (file_record entry) /\
        (60 < Fuzz.reported score (stem (Path filename))
                            (stem (Path entry)))%Z.
Proof.
  unfold find_closest_file, Fs.bind, Fs.ret.
  destruct (scan_files_directory_total files_directory fs) as [inventory E].
  rewrite E. eexists. split; [reflexivity|]. split.
  - intros Hex.
    assert (Hnone : scan_files_directory files_directory fs
                    = (Returns None, fs)).
    { unfold scan_files_directory, Fs.try_except, Fs.bind, Fs.path_exists,
             Fs.ret.
      now rewrite Hex. }
    rewrite Hnone in E. now injection E as <-.
  - intros p Hp. destruct inventory as [files|]; [|discriminate].
    apply find_best_match_some in Hp as (f & Hf & <- & Hs & _).
    assert (Hscan : fst (scan_files_directory files_directory fs)
                    = Returns (Some files)) by now rewrite E.
    destruct (scan_sources _ _ _ Hscan) as [_ Hsrc].
    destruct (Hsrc f Hf) as (entry & Hin & Hreg & _ & ->).
    exists entry. auto.
Qed.

(** X5.  Adding files to the inventory, before or after the others,
    never turns a name that was resolved into an unresolved one. *)
Theorem find_best_match_survives_additions (filename : str)
        (files before after : Inventory) (p : str) :
  find_best_match score filename (Some files) = Some p ->
  exists p',
    find_best_match score filename (Some (before ++ files ++ after))
    = Some p'.
Proof.
  intros Hp. apply find_best_match_some in Hp as (f & Hf & _ & Hs & _).
  apply find_best_match_reaches with f; [|exact Hs].
  apply in_or_app. right. apply in_or_app. now left.
Qed.

End ClosestFile.

(** ** Where the links are found *)

Section LinkPositions.
Import Chat Spec.

Lemma findall_from_segments (text : str) :
  forall skip,
  exists segments,
    skipn skip text = render segments /\
    links_of segments = Re.findall_from skip text /\
    forall t u, In (Link t u) segments ->
                t <> [] /\ u <> [] /\
                ~ In c_rbracket t /\ ~ In c_rparen u.
Proof.
  induction text as [|c rest IH]; intros skip.
  - exists []. destruct skip; repeat split; contradiction.
  - destruct skip as [|k]; [|exact (IH k)].
    cbn [Re.findall_from skipn].
    destruct (Re.match_link (c :: rest)) as [[[t u] n]|] eqn:E.
    + apply match_link_spec in E as ([rest' Hrest] & Ht & Hu & Hrb & Hrp & ->).
      rewrite markdown_of_cons in Hrest. injection Hrest as -> ->.
      destruct (IH (4 + length t + length u - 1)) as (segments & Hs & Hl & Hok).
      assert (Hskip : skipn (4 + length t + length u - 1)
                        (t ++ c_rbracket :: c_lparen :: u ++ c_rparen :: rest')
                      = rest').
      { replace (t ++ c_rbracket :: c_lparen :: u ++ c_rparen :: rest')
          with ((t ++ c_rbracket :: c_lparen :: u ++ [c_rparen]) ++ rest')
          by (rewrite <- app_assoc; cbn [app]; now rewrite <- app_assoc).
        replace (4 + length t + length u - 1)
          with (length (t ++ c_rbracket :: c_lparen :: u ++ [c_rparen]))
          by (rewrite length_app; cbn [length]; rewrite length_app;
              cbn [length]; lia).
        apply skipn_length_app. }
      rewrite Hskip in Hs.
      exists (Link t u :: segments). repeat split.
      * rewrite render_cons. cbn [render_segment].
        now rewrite markdown_of_cons, <- Hs.
      * cbn [links_of flat_map app]. f_equal. exact Hl.
      * destruct H as [[= <- <-]|H]; [exact Ht|now apply (Hok _ _ H)].
      * destruct H as [[= <- <-]|H]; [exact Hu|now apply (Hok _ _ H)].
      * destruct H as [[= <- <-]|H]; [exact Hrb|now apply (Hok _ _ H)].
      * destruct H as [[= <- <-]|H]; [exact Hrp|now apply (Hok _ _ H)].
    + destruct (IH 0) as (segments & Hs & Hl & Hok).
      exists (Prose [c] :: segments). repeat split.
      * rewrite render_cons. cbn [render_segment app]. f_equal. exact Hs.
      * exact Hl.
      * destruct H as [H|H]; [discriminate|now apply (Hok _ _ H)].
      * destruct H as [H|H]; [discriminate|now apply (Hok _ _ H)].
      * destruct H as [H|H]; [discriminate|now apply (Hok _ _ H)].
      * destruct H as [H|H]; [discriminate|now apply (Hok _ _ H)].
Qed.

(** X6.  The matches of the pattern are disjoint pieces of the text, in
    their order of appearance: the text is the concatenation of stretches
    of other text and of the markdown of each match, one after the other;
    in every match the text and the URL are not empty, the text holds no
    closing bracket and the URL no closing parenthesis. *)
Theorem findall_matches_in_order (text : str) :
  exists segments,
    text = render segments /\
    links_of segments = Re.findall text /\
    forall t u, In (Link t u) segments ->
                t <> [] /\ u <> [] /\
                ~ In c_rbracket t /\ ~ In c_rparen u.
Proof. exact (findall_from_segments text 0). Qed.

Lemma links_of_occur (segments : list segment) (t u : str) :
  In (t, u) (links_of segments) ->
  exists pre post, render segments = pre ++ markdown_of t u ++ post.
Proof.
  induction segments as [|[s|t' u'] rest IH]; intros H; [contradiction| |].
  - destruct (IH H) as (pre & post & E). exists (s ++ pre), post.
    rewrite render_cons, E. cbn [render_segment]. now rewrite <- app_assoc.
  - cbn [links_of flat_map app] in H. destruct H as [[= -> ->]|H].
    + exists [], (render rest). reflexivity.
    + destruct (IH H) as (pre & post & E).
      exists (markdown_of t' u' ++ pre), post.
      rewrite render_cons, E. cbn [render_segment]. now rewrite <- app_assoc.
Qed.

Lemma links_of_in (segments : list segment) (t u : str) :
  In (t, u) (links_of segments) -> In (Link t u) segments.
Proof.
  induction segments as [|[s|t' u'] rest IH]; intros H; [contradiction| |].
  - right. now apply IH.
  - cbn [links_of flat_map app] in H. destruct H as [[= -> ->]|H];
      [now left|right; now apply IH].
Qed.

Lemma before_first_dot_without_dot (s : str) :
  ~ In c_dot (before_first_dot s).
Proof.
  unfold before_first_dot. intros H. apply span_satisfies in H.
  now rewrite N.eqb_refl in H.
Qed.

Variable score : str -> str -> Q.

(** X7.  Every record of the extraction belongs to a link that stands in
    the text: its markdown occurs in the text, its link text is not empty,
    its [filename] field holds no dot; when it is flagged as matched its
    URL is the file-serving reference of a path of the inventory, and
    when it is not, its URL is the one of the link. *)
Theorem extracted_record_invariants (text : str) (fs : Fs.FileSystem)
        (records : list LinkInfo) (record : LinkInfo) :
  fst (extract_markdown_links score text fs) = Returns records ->
  In record records ->
  (exists pre post, text = pre ++ original_link record ++ post) /\
  Chat.text record <> [] /\
  ~ In c_dot (filename record) /\
  (fuzzy_matched record = true ->
   exists files f,
     inventory_of fs = Some files /\ In f files /\
     url record = lit "/gradio_api/file=" ++ path f) /\
  (fuzzy_matched record = false ->
   original_link record = markdown_of (Chat.text record) (url record)).
Proof.
  rewrite extract_markdown_links_eq. cbn [fst]. intros [= <-] Hin.
  apply in_map_iff in Hin as ([t u] & <- & Hin).
  apply filter_In in Hin as [Hin _].
  destruct (findall_from_segments text 0) as (segments & Htext & Hlinks & Hok).
  cbn [skipn] in Htext. fold (Re.findall text) in Hlinks.
  rewrite <- Hlinks in Hin.
  destruct (Hok t u (links_of_in _ _ _ Hin)) as (Ht & _).
  unfold extracted_link.
  cbn [original_link Chat.text filename url fuzzy_matched].
  split; [rewrite Htext; exact (links_of_occur _ _ _ Hin)|].
  split; [exact Ht|]. split; [apply before_first_dot_without_dot|].
  destruct (find_best_match score _ (inventory_of fs)) as [p|] eqn:Hp.
  - split; [|discriminate]. intros _.
    destruct (inventory_of fs) as [files|]; [|discriminate].
    apply find_best_match_in in Hp as (f & Hf & <-). now exists files, f.
  - split; [discriminate|]. reflexivity.
Qed.

End LinkPositions.

(** ** What a turn publishes *)

Section Publications.
Import Chat Spec.

Variable score : str -> str -> Q.

Lemma bot_on_stream_error (agent : str -> Stream) (fs : Fs.FileSystem)
      (history : History) (user_message e : str) :
  last_content history = Some user_message ->
  ending (agent user_message) = Some e ->
  bot score agent fs history
  = mkTurn (partial_turns history (chunks (agent user_message))
            ++ [history ++ [mkEntry (lit "assistant") error_msg]])
           None.
Proof.
  intros Hlast Hend. unfold bot.
  rewrite Hlast, relay_start, Hend, set_last_content_snoc. reflexivity.
Qed.

(** The publications of a turn: those of the chunks, then at most one. *)
Lemma bot_published (agent : str -> Stream) (fs : Fs.FileSystem)
      (history : History) (user_message : str) :
  last_content history = Some user_message ->
  exists final,
    bot score agent fs history
    = mkTurn (partial_turns history (chunks (agent user_message))
              ++ (if republished (agent user_message)
                  then [history ++ [mkEntry (lit "assistant") final]]
                  else []))
             None.
Proof.
  intros Hlast. unfold republished.
  destruct (ending (agent user_message)) as [e|] eqn:Hend.
  - exists error_msg. now apply bot_on_stream_error with e.
  - rewrite (bot_publishes_rewrite score agent fs history user_message
               Hlast Hend).
    eexists. destruct (filter _ _); reflexivity.
Qed.

Lemma partial_turns_length (history : History) (cs : list str) :
  length (partial_turns history cs) = length cs.
Proof. unfold partial_turns. now rewrite length_map, length_seq. Qed.

(** X8.  On a history that ends with the entry of the user, [bot] never
    raises.  It publishes one history per chunk, in which the assistant
    entry holds the chunks received so far, and exactly one more when the
    stream raised or the reply holds a link that is not external; every
    published history is the given one followed by a single assistant
    entry, so that no earlier entry is ever changed. *)
Theorem bot_publications (agent : str -> Stream) (fs : Fs.FileSystem)
        (history : History) (entry : Entry) :
  failure (bot score agent fs (history ++ [entry])) = None /\
  firstn (length (chunks (agent (content entry))))
         (published (bot score agent fs (history ++ [entry])))
  = partial_turns (history ++ [entry]) (chunks (agent (content entry))) /\
  length (published (bot score agent fs (history ++ [entry])))
  = length (chunks (agent (content entry)))
    + (if republished (agent (content entry)) then 1 else 0) /\
  forall h,
    In h (published (bot score agent fs (history ++ [entry]))) ->
    exists c, h = (history ++ [entry]) ++ [mkEntry (lit "assistant") c].
Proof.
  destruct (bot_published agent fs (history ++ [entry]) (content entry)
                          (last_content_snoc history entry)) as [final ->].
  cbn [failure published]. split; [reflexivity|]. split; [|split].
  - rewrite <- (partial_turns_length (history ++ [entry])
                  (chunks (agent (content entry)))).
    rewrite firstn_app, Nat.sub_diag, firstn_all. cbn [firstn].
    now rewrite app_nil_r.
  - rewrite length_app, partial_turns_length.
    now destruct (republished (agent (content entry))).
  - intros h Hin. apply in_app_or in Hin as [Hin|Hin].
    + unfold partial_turns in Hin. apply in_map_iff in Hin as (k & <- & _).
      eauto.
    + destruct (republished (agent (content entry))); [|contradiction].
      destruct Hin as [<-|[]]. eauto.
Qed.

(** X9.  After [user] has recorded the message, [bot] asks the agent for
    exactly that message, never raises, and shows the recorded message in
    every history it publishes; the input field is cleared. *)
Theorem user_then_bot (agent : str -> Stream) (fs : Fs.FileSystem)
        (history : History) (user_message : str) :
  fst (user user_message history) = [] /\
  bot score agent fs (snd (user user_message history))
  = bot score (fun _ => agent user_message) fs
        (snd (user user_message history)) /\
  failure (bot score agent fs (snd (user user_message history))) = None /\
  forall h,
    In h (published (bot score agent fs (snd (user user_message history)))) ->
    exists c,
      h = history ++ [mkEntry (lit "user") user_message;
                      mkEntry (lit "assistant") c].
Proof.
  unfold user. cbn [fst snd]. split; [reflexivity|]. split.
  - unfold bot. now rewrite last_content_snoc.
  - destruct (bot_published agent fs
                (history ++ [mkEntry (lit "user") user_message])
                user_message (last_content_snoc _ _)) as [final ->].
    cbn [failure published]. split; [reflexivity|].
    intros h Hin. apply in_app_or in Hin as [Hin|Hin].
    + unfold partial_turns in Hin. apply in_map_iff in Hin as (k & <- & _).
      eexists. now rewrite <- app_assoc.
    + destruct (republished (agent user_message)); [|contradiction].
      destruct Hin as [<-|[]]. eexists. now rewrite <- app_assoc.
Qed.

End Publications.

(** ** The markup of the anchors and of the cards *)

Section Markup.
Import Chat Spec.

Lemma replace_char_removes (c : char) (new s : str) :
  ~ In c new -> ~ In c (replace_char c new s).
Proof.
  intros Hnew. unfold replace_char. induction s as [|x s IH]; [auto|].
  cbn [flat_map]. intros H. apply in_app_or in H as [H|H]; [|now apply IH].
  destruct (N.eqb_spec x c) as [->|Hx]; [contradiction|].
  destruct H as [->|[]]. contradiction.
Qed.

Lemma replace_char_keeps_out (c x : char) (new s : str) :
  ~ In x new -> ~ In x s -> ~ In x (replace_char c new s).
Proof.
  intros Hnew. unfold replace_char. induction s as [|y s IH]; intros Hs;
    [auto|].
  cbn [flat_map]. intros H. apply in_app_or in H as [H|H].
  - destruct (N.eqb y c); [contradiction|].
    destruct H as [->|[]]. apply Hs. now left.
  - apply IH; [|exact H]. intros Hin. apply Hs. now right.
Qed.

Ltac not_in_literal :=
  let H := fresh in
  intros H; vm_compute in H;
  repeat (destruct H as [H|H]; [discriminate H|]); exact H.

(** The escaped text holds none of the characters of the markup. *)
Lemma escape_without_markup (s : str) (c : char) :
  markup c = true -> ~ In c (Html.escape s).
Proof.
  unfold markup. rewrite !orb_true_iff, !N.eqb_eq.
  unfold Html.escape. intros [[[->| ->]| ->]| ->].
  - do 3 (apply replace_char_keeps_out; [not_in_literal|]).
    apply replace_char_removes. not_in_literal.
  - do 2 (apply replace_char_keeps_out; [not_in_literal|]).
    apply replace_char_removes. not_in_literal.
  - apply replace_char_keeps_out; [not_in_literal|].
    apply replace_char_removes. not_in_literal.
  - apply replace_char_removes. not_in_literal.
Qed.

Lemma filter_none (A : Type) (f : A -> bool) (l : list A) :
  (forall x, In x l -> f x = false) -> filter f l = [].
Proof.
  induction l as [|x l IH]; intros H; [reflexivity|]. simpl.
  rewrite (H x (or_introl eq_refl)). apply IH. intros y Hy. apply H.
  now right.
Qed.

Lemma filter_markup_escape (s : str) : filter markup (Html.escape s) = [].
Proof.
  apply filter_none. intros x Hx. destruct (markup x) eqn:E; [|reflexivity].
  exfalso. exact (escape_without_markup s x E Hx).
Qed.

(** X10.  Whatever the link holds, the characters that open or close a tag
    or an attribute value in its anchor and in its card are those of the
    fixed template: the escaped link text, filename and URL add none. *)
Theorem markup_is_fixed (i : nat) (link : LinkInfo) :
  filter markup (anchor_link i (text link))
  = filter markup (anchor_link i []) /\
  filter markup (card_html i link) = filter markup (card_html i blank_link).
Proof.
  unfold anchor_link, card_html, blank_link.
  cbn [filename url text].
  rewrite !filter_app, !filter_markup_escape. auto.
Qed.

End Markup.

(** ** The messages of a conversation *)

Section Conversation.
Import Gen Azure.

Lemma latest_assistant_response_app (a b : list AgentMessage)
      (latest : option str) :
  latest_assistant_response (a ++ b) latest
  = latest_assistant_response b (latest_assistant_response a latest).
Proof. revert latest; induction a as [|m a IH]; intros latest; simpl; auto. Qed.

Lemma latest_assistant_response_skip (messages : list AgentMessage)
      (latest : option str) :
  (forall m, In m messages -> Spec.answers m = false) ->
  latest_assistant_response messages latest = latest.
Proof.
  revert latest; induction messages as [|m rest IH]; intros latest H;
    [reflexivity|].
  cbn [latest_assistant_response].
  assert (Hm : Spec.answers m = false) by (apply H; now left).
  unfold Spec.answers in Hm.
  rewrite IH by (intros; apply H; now right).
  destruct (str_eqb (role m) (lit "assistant")); [|reflexivity].
  destruct (text_messages m) as [|x l]; [reflexivity|discriminate].
Qed.

Lemma rev_head_last (A : Type) (l r : list A) (v d : A) :
  List.rev l = v :: r -> last l d = v.
Proof.
  intros H. rewrite <- (rev_involutive l), H. cbn [List.rev].
  apply last_last.
Qed.

(** X11.  The reply taken from a listing is the last text part of the last
    assistant message that has a text part: the messages of the user and
    the assistant messages without text that follow it do not count.
    When no assistant message has a text part there is no reply. *)
Theorem latest_assistant_response_spec (messages : list AgentMessage) :
  (forall before msg after,
      messages = before ++ msg :: after ->
      Spec.answers msg = true ->
      (forall m, In m after -> Spec.answers m = false) ->
      latest_assistant_response messages None
      = Some (last (text_messages msg) [])) /\
  ((forall m, In m messages -> Spec.answers m = false) ->
   latest_assistant_response messages None = None).
Proof.
  split; [|apply latest_assistant_response_skip].
  intros before msg after -> Hmsg Hafter.
  rewrite latest_assistant_response_app. cbn [latest_assistant_response].
  rewrite (latest_assistant_response_skip after _ Hafter).
  unfold Spec.answers in Hmsg. apply andb_true_iff in Hmsg as [Hrole Htext].
  rewrite Hrole.
  destruct (List.rev (text_messages msg)) as [|v r] eqn:E.
  - apply (f_equal (@List.rev str)) in E. rewrite rev_involutive in E.
    rewrite E in Htext. discriminate.
  - f_equal. symmetry. exact (rev_head_last _ _ _ _ _ E).
Qed.

Lemma history_entries_acc (messages : list AgentMessage)
      (history : Chat.History) :
  history_entries messages history = history ++ Spec.text_entries messages.
Proof.
  revert history; induction messages as [|m rest IH]; intros history.
  - simpl. now rewrite app_nil_r.
  - cbn [history_entries Spec.text_entries flat_map]. rewrite IH.
    destruct (List.rev (text_messages m)); [reflexivity|].
    now rewrite <- app_assoc.
Qed.

Variable service : Service.

(** X12.  [get_conversation_history] never raises, yields nothing and
    leaves the client as it is.  Without a thread (none given, none
    current) and when the listing raises, the history is empty; otherwise
    it holds, in the order of the listing, one entry for every message
    that has a text part, with the role of the message and its last text
    part. *)
Theorem get_conversation_history_spec (thread_id : option str)
        (self : AzureAgentClient) :
  exists history,
    get_conversation_history service thread_id self
    = (([], Returns history), self) /\
    (Spec.history_thread thread_id self = None -> history = []) /\
    (forall t e,
        Spec.history_thread thread_id self = Some t ->
        messages_list service t = Raises e -> history = []) /\
    (forall t messages,
        Spec.history_thread thread_id self = Some t ->
        messages_list service t = Returns messages ->
        history = Spec.text_entries messages).
Proof.
  assert (Hlisting : forall t,
             exists history,
               try_except
                 (messages <- call (messages_list service t) ;;
                  ret (history_entries messages []))%gen
                 (fun _ => ret []) self
               = (([], Returns history), self) /\
               (forall e, messages_list service t = Raises e -> history = []) /\
               (forall messages,
                   messages_list service t = Returns messages ->
                   history = Spec.text_entries messages)).
  { intros t. unfold try_except, bind, call, ret.
    destruct (messages_list service t) as [messages|e]; cbn [app].
    - eexists. split; [reflexivity|]. split; [discriminate|].
      intros ? [= <-]. now rewrite history_entries_acc.
    - eexists. split; [reflexivity|]. split; [reflexivity|discriminate]. }
  unfold get_conversation_history, Spec.history_thread.
  destruct thread_id as [[|c t]|].
  - unfold bind at 1, get at 1. cbn beta iota.
    destruct (current_thread self) as [thread|]; cbn [option_map].
    + destruct (Hlisting (id thread)) as (history & E & He & Hm).
      rewrite E. cbn [app]. exists history. split; [reflexivity|].
      split; [discriminate|]. split.
      * intros t0 e [= <-]. apply He.
      * intros t0 messages [= <-]. apply Hm.
    + exists []. split; [reflexivity|]. split; [reflexivity|].
      split; discriminate.
  - destruct (Hlisting (c :: t)) as (history & E & He & Hm).
    exists history. split; [exact E|]. split; [discriminate|]. split.
    + intros t0 e [= <-]. apply He.
    + intros t0 messages [= <-]. apply Hm.
  - unfold bind at 1, get at 1. cbn beta iota.
    destruct (current_thread self) as [thread|]; cbn [option_map].
    + destruct (Hlisting (id thread)) as (history & E & He & Hm).
      rewrite E. cbn [app]. exists history. split; [reflexivity|].
      split; [discriminate|]. split.
      * intros t0 e [= <-]. apply He.
      * intros t0 messages [= <-]. apply Hm.
    + exists []. split; [reflexivity|]. split; [reflexivity|].
      split; discriminate.
Qed.

Lemma last_assistant_content_app (a b : Chat.History) :
  Spec.last_assistant_content (a ++ b)
  = match Spec.last_assistant_content b with
    | Some v => Some v
    | None => Spec.last_assistant_content a
    end.
Proof.
  unfold Spec.last_assistant_content. rewrite filter_app, rev_app_distr.
  now destruct (List.rev (filter _ b)).
Qed.

Lemma latest_assistant_response_entries (messages : list AgentMessage)
      (latest : option str) :
  latest_assistant_response messages latest
  = match Spec.last_assistant_content (Spec.text_entries messages) with
    | Some v => Some v
    | None => latest
    end.
Proof.
  revert latest; induction messages as [|m rest IH]; intros latest;
    [reflexivity|].
  cbn [latest_assistant_response Spec.text_entries flat_map].
  rewrite IH, last_assistant_content_app.
  fold (Spec.text_entries rest).
  destruct (Spec.last_assistant_content (Spec.text_entries rest));
    [reflexivity|].
  destruct (List.rev (text_messages m)) as [|v r].
  - now destruct (str_eqb (role m) (lit "assistant")).
  - unfold Spec.last_assistant_content. cbn [filter Chat.role].
    now destruct (str_eqb (role m) (lit "assistant")).
Qed.

(** X13.  The reply that [send_message] and the stream look for in a
    listing is the content of the last assistant entry of the conversation
    history made from the same listing. *)
Theorem latest_response_is_last_history_entry
        (messages : list AgentMessage) :
  latest_assistant_response messages None
  = Spec.last_assistant_content (history_entries messages []).
Proof.
  rewrite latest_assistant_response_entries, history_entries_acc.
  cbn [app]. now destruct (Spec.last_assistant_content _).
Qed.

End Conversation.

(** ** The replies of the client *)

Section Replies.
Import Gen Azure.

Variable service : Service.

Lemma request_failure_nonempty (content t chunk : str)
      (self : AzureAgentClient) :
  Spec.request_failure service self content t chunk -> chunk <> [].
Proof. intros H E. destruct H; cbn in E; discriminate E. Qed.

Ltac settle_request :=
  do 3 eexists; split; [reflexivity|]; split; [reflexivity|];
  split; [repeat split; auto; try discriminate;
          try (intros; cbn; congruence)|];
  first
    [ left; split; [reflexivity|]; do 3 eexists;
      repeat split; eauto; discriminate
    | right; do 2 eexists; split; [reflexivity|];
      split; [first [left; reflexivity | right; reflexivity]|];
      first [ eapply Spec.message_not_created; eassumption
            | eapply Spec.agent_not_found; eassumption
            | eapply Spec.run_raises; eassumption
            | eapply Spec.run_failed; eassumption
            | eapply Spec.listing_raises; eassumption
            | eapply Spec.no_assistant_response; eauto ] ].

Ltac settle_run agent :=
  destruct (runs_create_and_process service _ (agent_ident agent))
    as [run|e] eqn:Er; [|settle_request];
  destruct (str_eqb (status run) (lit "failed")) eqn:Es;
  [apply str_eqb_eq in Es; settle_request|];
  apply str_eqb_neq in Es;
  destruct (messages_list service _) as [messages|e] eqn:El;
  [|settle_request];
  destruct (latest_assistant_response messages None) as [[|c r]|] eqn:Elast;
  settle_request.

Lemma guarded_message_and_request (content t : str) (self : AzureAgentClient) :
  exists d chunk self',
    guarded_message service content t self = (([], Returns d), self') /\
    guarded_request service content t self = (([chunk], Returns tt), self') /\
    (endpoint self' = endpoint self /\ agent_id self' = agent_id self /\
     current_thread self' = current_thread self /\
     (forall a, _agent self = Some a -> _agent self' = Some a) /\
     (forall a,
         messages_create service t (lit "user") content = Returns tt ->
         Spec.agent_of service self = Returns a -> _agent self' = Some a)) /\
    ((d = success_reply chunk /\
      Spec.request_reply service self content t chunk) \/
     (exists err response,
         d = error_reply err response /\
         (response = generic_error_msg \/ response = no_response_msg) /\
         Spec.request_failure service self content t chunk)).
Proof.
  unfold guarded_message, guarded_request, _get_agent, try_except,
         bind, call, get, put, ret, yield.
  destruct (messages_create service t (lit "user") content) as [[]|e] eqn:Em;
    [|settle_request].
  destruct (_agent self) as [agent|] eqn:Eag.
  - assert (Ha : Spec.agent_of service self = Returns agent)
      by (unfold Spec.agent_of; now rewrite Eag).
    settle_run agent.
  - destruct (agents_get_agent service (agent_id self)) as [agent|e] eqn:Ef.
    + assert (Ha : Spec.agent_of service self = Returns agent)
        by (unfold Spec.agent_of; now rewrite Eag).
      settle_run agent.
    + assert (Ha : Spec.agent_of service self = Raises e)
        by (unfold Spec.agent_of; now rewrite Eag).
      settle_request.
Qed.

(** The method, case by case. *)
Lemma send_message_cases (content : str) (self : AzureAgentClient) :
  send_message service content None self
  = match current_thread self with
    | Some thread => guarded_message service content (id thread) self
    | None =>
        match threads_create service with
        | Raises e => (([], Raises e), self)
        | Returns thread =>
            let self' := mkClient (endpoint self) (agent_id self)
                                  (Some thread) (_agent self) in
            match id thread with
            | [] => (([], Returns (error_reply
                                     (lit "Failed to create conversation thread")
                                     no_thread_msg)), self')
            | _ :: _ => guarded_message service content (id thread) self'
            end
        end
    end.
Proof.
  unfold send_message. unfold bind at 1, get at 1. cbn beta iota.
  destruct (current_thread self) as [thread|].
  - now destruct (guarded_message service content (id thread) self)
      as [[ys r] s].
  - unfold create_new_conversation, bind, call, get, put, ret.
    destruct (threads_create service) as [[tid]|e]; cbn; [|reflexivity].
    destruct tid as [|c tid]; [reflexivity|].
    match goal with
    | |- context [guarded_message service content ?t ?s] =>
        now destruct (guarded_message service content t s) as [[ys r] s']
    end.
Qed.

Lemma failure_responses_nonempty (response : str) :
  In response Spec.failure_responses -> response <> [].
Proof.
  intros [<-|[<-|[<-|[]]]]; discriminate.
Qed.

(** What a request turns into at the level of the method. *)
Lemma guarded_outcome (content t : str) (self : AzureAgentClient) :
  exists d chunk self',
    guarded_message service content t self = (([], Returns d), self') /\
    guarded_request service content t self = (([chunk], Returns tt), self') /\
    (endpoint self' = endpoint self /\ agent_id self' = agent_id self /\
     current_thread self' = current_thread self /\
     (forall a, _agent self = Some a -> _agent self' = Some a)) /\
    chunk <> [] /\
    ((d = success_reply chunk) \/
     (exists err response,
         d = error_reply err response /\
         In response Spec.failure_responses)).
Proof.
  destruct (guarded_message_and_request content t self)
    as (d & chunk & self' & Hm & Hr & (He & Ha & Ht & Hag & _) & Hcase).
  exists d, chunk, self'. repeat split; auto.
  - destruct Hcase as [[_ Hreply]|(err & response & _ & _ & Hfail)].
    + now destruct Hreply as (? & ? & ? & _ & _ & _ & _ & _ & _ & Hne).
    + now apply request_failure_nonempty in Hfail.
  - destruct Hcase as [[-> _]|(err & response & -> & Hresp & _)];
      [now left|].
    right. exists err, response. split; [reflexivity|].
    destruct Hresp as [->| ->]; simpl; auto.
Qed.

(** The two methods side by side, on the current thread or a new one. *)
Lemma send_message_and_stream_current (content : str)
      (self : AzureAgentClient) :
  (exists e,
      send_message service content None self = (([], Raises e), self) /\
      send_message_streaming service content None self
      = (([], Raises e), self) /\
      current_thread self = None /\
      threads_create service = Raises e) \/
  (exists d chunk self',
      send_message service content None self = (([], Returns d), self') /\
      send_message_streaming service content None self
      = (([chunk], Returns tt), self') /\
      (endpoint self' = endpoint self /\ agent_id self' = agent_id self /\
       (forall thread, current_thread self = Some thread ->
                       current_thread self' = Some thread) /\
       (forall a, _agent self = Some a -> _agent self' = Some a) /\
       current_thread self' <> None) /\
      chunk <> [] /\
      ((d = success_reply chunk) \/
       (exists err response,
           d = error_reply err response /\
           In response Spec.failure_responses))).
Proof.
  rewrite send_message_cases, send_message_streaming_cases.
  destruct (current_thread self) as [thread|] eqn:Eth.
  - right.
    destruct (guarded_outcome content (id thread) self)
      as (d & chunk & self' & Hm & Hr & (He & Ha & Ht & Hag) & Hne & Hcase).
    exists d, chunk, self'. rewrite Ht, Eth.
    repeat split; auto. discriminate.
  - destruct (threads_create service) as [thread|e] eqn:Ec.
    + right. cbn zeta. destruct (id thread) as [|c tid] eqn:Eid.
      * do 3 eexists. split; [reflexivity|]. split; [reflexivity|].
        split; [repeat split; auto; discriminate|]. split; [discriminate|].
        right. do 2 eexists. split; [reflexivity|]. simpl. auto.
      * destruct (guarded_outcome content (c :: tid)
                    (mkClient (endpoint self) (agent_id self)
                              (Some thread) (_agent self)))
          as (d & chunk & self' & Hm & Hr & (He & Ha & Ht & Hag) & Hne & Hcase).
        exists d, chunk, self'. rewrite Ht.
        repeat split; auto; discriminate.
    + left. now exists e.
Qed.

(** The two methods side by side, for any thread argument. *)
Lemma send_message_and_stream (content : str) (thread_id : option str)
      (self : AzureAgentClient) :
  (exists e,
      send_message service content thread_id self = (([], Raises e), self) /\
      send_message_streaming service content thread_id self
      = (([], Raises e), self) /\
      Spec.history_thread thread_id self = None /\
      threads_create service = Raises e) \/
  (exists d chunk self',
      send_message service content thread_id self
      = (([], Returns d), self') /\
      send_message_streaming service content thread_id self
      = (([chunk], Returns tt), self') /\
      (endpoint self' = endpoint self /\ agent_id self' = agent_id self /\
       (forall thread, current_thread self = Some thread ->
                       current_thread self' = Some thread) /\
       (forall a, _agent self = Some a -> _agent self' = Some a) /\
       Spec.history_thread thread_id self' <> None) /\
      chunk <> [] /\
      ((d = success_reply chunk) \/
       (exists err response,
           d = error_reply err response /\
           In response Spec.failure_responses))).
Proof.
  assert (Hcurrent :
            forall thread_id,
              send_message service content thread_id self
              = send_message service content None self ->
              send_message_streaming service content thread_id self
              = send_message_streaming service content None self ->
              (forall s, Spec.history_thread thread_id s
                         = option_map id (current_thread s)) ->
              (exists e,
                  send_message service content thread_id self
                  = (([], Raises e), self) /\
                  send_message_streaming service content thread_id self
                  = (([], Raises e), self) /\
                  Spec.history_thread thread_id self = None /\
                  threads_create service = Raises e) \/
              (exists d chunk self',
                  send_message service content thread_id self
                  = (([], Returns d), self') /\
                  send_message_streaming service content thread_id self
                  = (([chunk], Returns tt), self') /\
                  (endpoint self' = endpoint self /\
                   agent_id self' = agent_id self /\
                   (forall thread, current_thread self = Some thread ->
                                   current_thread self' = Some thread) /\
                   (forall a, _agent self = Some a -> _agent self' = Some a) /\
                   Spec.history_thread thread_id self' <> None) /\
                  chunk <> [] /\
                  ((d = success_reply chunk) \/
                   (exists err response,
                       d = error_reply err response /\
                       In response Spec.failure_responses)))).
  { intros th -> -> Hth.
    destruct (send_message_and_stream_current content self)
      as [(e & Hm & Hs & Hnone & Hc)
         |(d & chunk & self' & Hm & Hs & (He & Ha & Ht & Hag & Hsome)
           & Hne & Hcase)].
    - left. exists e. rewrite Hth, Hnone. now repeat split.
    - right. exists d, chunk, self'. rewrite Hth.
      repeat split; auto.
      destruct (current_thread self'); [discriminate|contradiction]. }
  destruct thread_id as [[|c t]|]; [now apply Hcurrent| |now apply Hcurrent].
  right.
  destruct (guarded_outcome content (c :: t) self)
    as (d & chunk & self' & Hm & Hr & (He & Ha & Ht & Hag) & Hne & Hcase).
  exists d, chunk, self'.
  split; [exact Hm|]. split; [exact Hr|].
  rewrite Ht. repeat split; auto. discriminate.
Qed.

(** X14.  [send_message] raises only when there is no thread to use and
    the creation of one raises.  Otherwise it returns a dict that always
    has the keys [status] and [response], with a response that is never
    empty: with the status [success] there is no key [error]; with the
    status [error] there is one, and the response is one of three fixed
    texts, without any detail of the failure. *)
Theorem send_message_reply (content : str) (thread_id : option str)
        (self : AzureAgentClient) :
  (exists e,
      send_message service content thread_id self = (([], Raises e), self) /\
      Spec.history_thread thread_id self = None /\
      threads_create service = Raises e) \/
  (exists d self' response,
      send_message service content thread_id self
      = (([], Returns d), self') /\
      dict_get (lit "response") d = Some response /\
      response <> [] /\
      ((dict_get (lit "status") d = Some (lit "success") /\
        dict_get (lit "error") d = None) \/
       (dict_get (lit "status") d = Some (lit "error") /\
        dict_get (lit "error") d <> None /\
        In response Spec.failure_responses))).
Proof.
  destruct (send_message_and_stream content thread_id self)
    as [(e & Hm & _ & Hnone & Hc)
       |(d & chunk & self' & Hm & _ & _ & Hne & Hcase)].
  - left. now exists e.
  - right. destruct Hcase as [->|(err & response & -> & Hresp)].
    + exists (success_reply chunk), self', chunk.
      split; [exact Hm|]. split; [reflexivity|]. split; [exact Hne|].
      left. split; reflexivity.
    + exists (error_reply err response), self', response.
      split; [exact Hm|]. split; [reflexivity|].
      split; [now apply failure_responses_nonempty|].
      right. split; [reflexivity|]. split; [discriminate|exact Hresp].
Qed.

(** X15.  [send_message] and [send_message_streaming] fail and succeed
    together and leave the same client.  Both raise, with the same
    exception and without any change of the client, exactly when there is
    no thread to use and the creation of one raises; otherwise the one
    returns a dict and the other yields one chunk, never empty, and ends
    normally.  On success the response of the dict is the chunk; on failure
    the dict holds one of the three fixed texts, whatever the chunk
    tells. *)
Theorem send_message_agrees_with_stream (content : str)
        (thread_id : option str) (self : AzureAgentClient) :
  (exists e,
      Spec.history_thread thread_id self = None /\
      threads_create service = Raises e /\
      send_message service content thread_id self = (([], Raises e), self) /\
      send_message_streaming service content thread_id self
      = (([], Raises e), self)) \/
  (exists d chunk self',
      (Spec.history_thread thread_id self = None ->
       exists thread, threads_create service = Returns thread) /\
      send_message service content thread_id self
      = (([], Returns d), self') /\
      send_message_streaming service content thread_id self
      = (([chunk], Returns tt), self') /\
      chunk <> [] /\
      ((dict_get (lit "status") d = Some (lit "success") /\
        dict_get (lit "response") d = Some chunk) \/
       (dict_get (lit "status") d = Some (lit "error") /\
        exists response,
          dict_get (lit "response") d = Some response /\
          In response Spec.failure_responses))).
Proof.
  destruct (send_message_and_stream content thread_id self)
    as [(e & Hm & Hs & Hnone & Hc)
       |(d & chunk & self' & Hm & Hs & _ & Hne & Hcase)].
  - left. now exists e.
  - right. exists d, chunk, self'. split.
    + intros Hnone. destruct (threads_create service) as [thread|e] eqn:Ec;
        [now exists thread|].
      exfalso.
      assert (Hraise : send_message_streaming service content thread_id self
                       = (([], Raises e), self)).
      { destruct thread_id as [[|c t]|]; try discriminate Hnone;
          change (send_message_streaming service content None self
                  = (([], Raises e), self));
          rewrite send_message_streaming_cases;
          unfold Spec.history_thread in Hnone;
          (destruct (current_thread self); [discriminate Hnone|]);
          now rewrite Ec. }
      rewrite Hraise in Hs. discriminate Hs.
    + split; [exact Hm|]. split; [exact Hs|]. split; [exact Hne|].
      destruct Hcase as [->|(err & response & -> & Hresp)].
      * left. split; reflexivity.
      * right. split; [reflexivity|]. now exists response.
Qed.

(** X16.  Once a request has fetched the agent, the client keeps it: the
    requests that follow use this agent whatever the service would answer
    then, and never fetch one again. *)
Theorem agent_is_fetched_once (content t : str) (self : AzureAgentClient)
        (agent : Agent) :
  messages_create service t (lit "user") content = Returns tt ->
  Spec.agent_of service self = Returns agent ->
  forall later : Service,
    Spec.agent_of later (snd (guarded_request service content t self))
    = Returns agent.
Proof.
  intros Hm Ha later.
  destruct (guarded_message_and_request content t self)
    as (d & chunk & self' & _ & Hr & (_ & _ & _ & _ & Hag) & _).
  rewrite Hr. cbn [snd]. unfold Spec.agent_of.
  now rewrite (Hag agent Hm Ha).
Qed.

(** A method called through the module: the client is the one of the
    module variable, or a new one that is stored there. *)
Lemma with_client (A : Type) (m : Gen AzureAgentClient A)
      (_client : option AzureAgentClient) :
  (client <- get_azure_client service ;; on_client client m)%gen _client
  = match Spec.client_of service _client with
    | Raises e => (([], Raises e), _client)
    | Returns client =>
        match m client with (r, client') => (r, Some client') end
    end.
Proof.
  unfold Spec.client_of, get_azure_client.
  unfold bind at 1. unfold bind at 1, get at 1. cbn beta iota.
  destruct _client as [client|].
  - unfold ret, on_client. cbn beta iota.
    now destruct (m client) as [[ys r] s].
  - unfold bind, call, put, ret, on_client.
    destruct (project_client service DEFAULT_ENDPOINT) as [[]|e];
      cbn beta iota; [|reflexivity].
    match goal with
    | |- context [m ?c] => now destruct (m c) as [[ys r] s]
    end.
Qed.

(** The next call of the streaming interface on a client that has a
    thread is a request on this thread. *)
Lemma next_stream_on_thread (later : Service) (client : AzureAgentClient)
      (thread : Thread) (content : str) :
  current_thread client = Some thread ->
  Spec.agent_stream later (Some client) content
  = stream_of (guarded_request later content (id thread)) client.
Proof.
  intros Hth. rewrite agent_stream_cases. cbn [Spec.client_of].
  unfold stream_of. now rewrite send_message_streaming_cases, Hth.
Qed.

(** X17.  [send_message_to_agent_async] never fails on the key
    [response]: it returns a text that is not empty, the reply or one of
    the three fixed texts, and the module variable then holds the client.
    It raises only what the construction of the client or the creation of
    the thread raises. *)
Theorem send_message_to_agent_async_reply (content : str)
        (_client : option AzureAgentClient) :
  (exists e state',
      send_message_to_agent_async service content _client
      = (([], Raises e), state') /\
      Spec.raised_before_request service e) \/
  (exists response client',
      send_message_to_agent_async service content _client
      = (([], Returns response), Some client') /\
      response <> [] /\
      (Spec.agent_stream service _client content
       = Chat.mkStream [response] None \/
       In response Spec.failure_responses)).
Proof.
  unfold send_message_to_agent_async, Spec.raised_before_request.
  rewrite agent_stream_cases. unfold stream_of.
  unfold get_azure_client, Spec.client_of.
  unfold bind at 1. unfold bind at 1, get at 1. cbn beta iota.
  assert (Hclient :
            forall client : AzureAgentClient,
              (exists e state',
                  (let (p, s') :=
                     (result <- on_client client
                                  (send_message service content None) ;;
                      call (subscript result (lit "response")))%gen
                       (Some client) in
                   let (ys', r) := p in (([] : list str) ++ ys', r, s'))
                  = (([], Raises e), state') /\
                  threads_create service = Raises e) \/
              (exists response client',
                  (let (p, s') :=
                     (result <- on_client client
                                  (send_message service content None) ;;
                      call (subscript result (lit "response")))%gen
                       (Some client) in
                   let (ys', r) := p in (([] : list str) ++ ys', r, s'))
                  = (([], Returns response), Some client') /\
                  response <> [] /\
                  (match send_message_streaming service content None client with
                   | ((ys, Returns _), _) => Chat.mkStream ys None
                   | ((ys, Raises e), _) => Chat.mkStream ys (Some e)
                   end = Chat.mkStream [response] None \/
                   In response Spec.failure_responses))).
  { intros client. unfold bind, on_client, call.
    destruct (send_message_and_stream content None client)
      as [(e & Hm & Hs & _ & Hc)
         |(d & chunk & self' & Hm & Hs & _ & Hne & Hcase)];
      rewrite Hm, Hs.
    - left. now exists e, (Some client).
    - right. destruct Hcase as [->|(err & response & -> & Hresp)].
      + exists chunk, self'. split; [reflexivity|]. split; [exact Hne|].
        now left.
      + exists response, self'. split; [reflexivity|].
        split; [now apply failure_responses_nonempty|]. now right. }
  destruct _client as [client|].
  - unfold ret at 1. cbn beta iota.
    destruct (Hclient client)
      as [(e & state' & H & Hc)|(response & client' & H & Hne & Hcase)].
    + left. exists e, state'. split; [exact H|now right].
    + right. now exists response, client'.
  - unfold bind at 1, call at 1.
    destruct (project_client service DEFAULT_ENDPOINT) as [[]|e] eqn:Ep.
    + unfold bind at 1, put at 1, ret at 1. cbn beta iota.
      destruct (Hclient (mkClient DEFAULT_ENDPOINT DEFAULT_AGENT_ID None None))
        as [(e & state' & H & Hc)|(response & client' & H & Hne & Hcase)].
      * left. exists e, state'. split; [|now right].
        cbn [app] in H |- *. exact H.
      * right. exists response, client'. split; [|now split].
        cbn [app] in H |- *. exact H.
    + left. exists e, None. split; [reflexivity|now left].
Qed.

(** X18.  A call of the streaming interface keeps the conversation.  The
    client of the module variable keeps its endpoint, its agent id, its
    thread and the agent it has cached.  When the stream ends normally the
    client has a thread, and the next call is a request on this thread,
    whatever its id: a thread whose id is empty is reported once, by the
    text of the missing conversation, and is used from then on. *)
Theorem streaming_keeps_the_conversation (content : str)
        (_client : option AzureAgentClient) :
  (forall e,
      Spec.client_of service _client = Raises e ->
      snd (send_message_to_agent_streaming service content _client) = None) /\
  (forall client,
      Spec.client_of service _client = Returns client ->
      exists client',
        snd (send_message_to_agent_streaming service content _client)
        = Some client' /\
        endpoint client' = endpoint client /\
        agent_id client' = agent_id client /\
        (forall thread, current_thread client = Some thread ->
                        current_thread client' = Some thread) /\
        (forall agent, _agent client = Some agent ->
                       _agent client' = Some agent) /\
        (Chat.ending (Spec.agent_stream service _client content) = None ->
         exists thread,
           current_thread client' = Some thread /\
           forall (later : Service) (content' : str),
             Spec.agent_stream later (Some client') content'
             = stream_of (guarded_request later content' (id thread))
                         client')).
Proof.
  unfold send_message_to_agent_streaming. rewrite with_client.
  rewrite agent_stream_cases. unfold stream_of.
  split.
  - intros e He. rewrite He. cbn [snd].
    unfold Spec.client_of in He. destruct _client; [discriminate|reflexivity].
  - intros client ->.
    destruct (send_message_and_stream content None client)
      as [(e & _ & Hs & _ & _)
         |(d & chunk & self' & _ & Hs & (He & Ha & Ht & Hag & Hsome)
           & _ & _)];
      rewrite Hs; cbn [snd].
    + exists client. repeat split; auto. discriminate.
    + exists self'. repeat split; auto. intros _.
      unfold Spec.history_thread in Hsome.
      destruct (current_thread self') as [thread|] eqn:Eth;
        [|contradiction].
      exists thread. split; [reflexivity|].
      intros later content'. now apply next_stream_on_thread.
Qed.

(** X19.  [create_new_conversation_async] replaces the thread of the
    client by the new one and keeps the cached agent; it returns the id of
    the new thread, and the next call of the streaming interface is a
    request on it.  When the creation raises, the client keeps the thread
    it had. *)
Theorem new_conversation_switches_thread
        (_client : option AzureAgentClient) :
  (forall e,
      Spec.client_of service _client = Raises e ->
      create_new_conversation_async service _client
      = (([], Raises e), None)) /\
  (forall client e,
      Spec.client_of service _client = Returns client ->
      threads_create service = Raises e ->
      create_new_conversation_async service _client
      = (([], Raises e), Some client)) /\
  (forall client thread,
      Spec.client_of service _client = Returns client ->
      threads_create service = Returns thread ->
      exists client',
        create_new_conversation_async service _client
        = (([], Returns (id thread)), Some client') /\
        endpoint client' = endpoint client /\
        agent_id client' = agent_id client /\
        current_thread client' = Some thread /\
        _agent client' = _agent client /\
        forall (later : Service) (content : str),
          Spec.agent_stream later (Some client') content
          = stream_of (guarded_request later content (id thread)) client').
Proof.
  unfold create_new_conversation_async. rewrite with_client.
  split; [|split].
  - intros e He. rewrite He.
    unfold Spec.client_of in He. destruct _client; [discriminate|reflexivity].
  - intros client e -> He.
    unfold create_new_conversation, bind, call. now rewrite He.
  - intros client thread -> Hth.
    unfold create_new_conversation, bind, call, get, put, ret. rewrite Hth.
    cbn. eexists. split; [reflexivity|]. repeat split.
    intros later content. now apply next_stream_on_thread.
Qed.

End Replies.

(** ** A whole turn *)

Section Turns.
Import Chat Spec.

Variable score : str -> str -> Q.

(** The stream of the interface holds one chunk that is not empty, or
    raises before any chunk. *)
Lemma agent_stream_chunk (service : Azure.Service)
      (_client : option Azure.AzureAgentClient) (content : str) :
  (exists chunk,
      agent_stream service _client content = mkStream [chunk] None /\
      chunk <> []) \/
  (exists e, agent_stream service _client content = mkStream [] (Some e)).
Proof.
  rewrite agent_stream_cases.
  destruct (client_of service _client) as [client|e]; [|right; now exists e].
  unfold Azure.stream_of.
  destruct (send_message_and_stream service content None client)
    as [(e & _ & Hs & _)|(d & chunk & self' & _ & Hs & _ & Hne & _)];
    rewrite Hs.
  - right. now exists e.
  - left. now exists chunk.
Qed.

Lemma rewrite_pass_nonempty (fs : Fs.FileSystem) (message : str) :
  message <> [] -> rewrite_pass score fs message <> [].
Proof.
  intros Hne. unfold rewrite_pass.
  destruct (fst (extract_markdown_links score message fs)) as [[|l ls]|e];
    auto.
  unfold rewrite_message, cards_container. intros H.
  apply app_eq_nil in H as [_ H]. discriminate H.
Qed.

(** X20.  A turn fed by the streaming interface, on a history that ends
    with the entry of the user, never raises and publishes one or two
    histories.  The last one is the given history followed by an assistant
    entry whose content is never empty.  When the interface raises, this
    content is the fixed text of [bot], which does not hold the text of
    the exception; otherwise it is the chunk of the interface, rewritten or
    not. *)
Theorem turn_always_answers (service : Azure.Service)
        (_client : option Azure.AzureAgentClient) (fs : Fs.FileSystem)
        (history : History) (entry : Entry) :
  failure (turn score service _client fs (history ++ [entry])) = None /\
  1 <= length (published (turn score service _client fs (history ++ [entry])))
    <= 2 /\
  (exists c,
      last (published (turn score service _client fs (history ++ [entry]))) []
      = (history ++ [entry]) ++ [mkEntry (lit "assistant") c] /\
      c <> [] /\
      (forall e,
          ending (agent_stream service _client (content entry)) = Some e ->
          c = error_msg) /\
      (forall chunk,
          agent_stream service _client (content entry)
          = mkStream [chunk] None ->
          c = rewrite_pass score fs chunk)).
Proof.
  unfold turn.
  change (fun content0 : str =>
            Azure.stream_of
              (Azure.send_message_to_agent_streaming service content0) _client)
    with (agent_stream service _client).
  pose proof (last_content_snoc history entry) as Hlast.
  destruct (agent_stream_chunk service _client (content entry))
    as [(chunk & Hs & Hne)|(e & Hs)].
  - rewrite (bot_publishes_rewrite score (agent_stream service _client) fs
               (history ++ [entry]) (content entry) Hlast)
      by now rewrite Hs.
    rewrite Hs. cbn [chunks concat partial_turns]. rewrite app_nil_r.
    unfold partial_turns. cbn [length seq map firstn concat].
    rewrite app_nil_r. cbn [failure published].
    split; [reflexivity|].
    assert (Hpass : filter (fun m => negb (external m)) (Re.findall chunk) = []
                    -> rewrite_pass score fs chunk = chunk).
    { intros Hnone. unfold rewrite_pass.
      now rewrite extract_markdown_links_eq, Hnone. }
    destruct (filter (fun m => negb (external m)) (Re.findall chunk))
      as [|m ms].
    + split; [cbn; lia|]. exists chunk. cbn [app last].
      split; [reflexivity|]. split; [exact Hne|]. split; [discriminate|].
      intros chunk' [= <-]. now rewrite Hpass.
    + split; [cbn; lia|]. exists (rewrite_pass score fs chunk).
      cbn [app last]. split; [reflexivity|].
      split; [now apply rewrite_pass_nonempty|]. split; [discriminate|].
      now intros chunk' [= <-].
  - rewrite (bot_on_stream_error score (agent_stream service _client) fs
               (history ++ [entry]) (content entry) e Hlast)
      by now rewrite Hs.
    rewrite Hs. cbn [chunks]. unfold partial_turns.
    cbn [length seq map app failure published last].
    split; [reflexivity|]. split; [lia|].
    exists error_msg. split; [reflexivity|]. split; [discriminate|].
    split; [reflexivity|discriminate].
Qed.

End Turns.

(** ** The further properties on the sample inputs *)

Section FurtherRuns.
Import PathLib Chat.

(** X1 on the directory of the two reports. *)
Lemma scan_lists_regular_files_witness :
  Fs.fs_exists Sample.two_reports (Path (lit "public/files")) = Returns true /\
  snd (Fs.fs_rglob Sample.two_reports (Path (lit "public/files"))) = None /\
  scan_files_directory (lit "public/files") Sample.two_reports
  = (Returns (Some [Sample.report_a; Sample.report_b]), Sample.two_reports).
Proof.
  assert (H1 : Fs.fs_exists Sample.two_reports (Path (lit "public/files"))
               = Returns true) by reflexivity.
  assert (H2 : snd (Fs.fs_rglob Sample.two_reports (Path (lit "public/files")))
               = None) by reflexivity.
  assert (H3 : forall entry,
             In entry (fst (Fs.fs_rglob Sample.two_reports
                                        (Path (lit "public/files")))) ->
             exists b, Fs.fs_is_file Sample.two_reports (Path entry)
                       = Returns b).
  { intros entry _. eexists. reflexivity. }
  assert (H4 : forall entry,
             In entry (fst (Fs.fs_rglob Sample.two_reports
                                        (Path (lit "public/files")))) ->
             Spec.is_regular Sample.two_reports entry = true ->
             root (Path entry) = []).
  { intros entry [<-|[<-|[<-|[<-|[]]]]] _; vm_compute; reflexivity. }
  split; [exact H1|]. split; [exact H2|].
  exact (scan_lists_regular_files (lit "public/files") Sample.two_reports
                                  H1 H2 H3 H4).
Defined.

(** X2 on a walk that reports an absolute path. *)
Lemma scan_absolute_path_is_absent_witness :
  In (lit "/srv/files/report.pdf")
     (fst (Fs.fs_rglob Sample.absolute_walk (Path (lit "public/files")))) /\
  Fs.fs_is_file Sample.absolute_walk (Path (lit "/srv/files/report.pdf"))
  = Returns true /\
  startswith [c_slash] (lit "/srv/files/report.pdf") = true /\
  scan_files_directory (lit "public/files") Sample.absolute_walk
  = (Returns None, Sample.absolute_walk).
Proof.
  assert (H1 : In (lit "/srv/files/report.pdf")
                  (fst (Fs.fs_rglob Sample.absolute_walk
                                    (Path (lit "public/files")))))
    by (left; reflexivity).
  assert (H2 : Fs.fs_is_file Sample.absolute_walk
                             (Path (lit "/srv/files/report.pdf"))
               = Returns true) by reflexivity.
  assert (H3 : startswith [c_slash] (lit "/srv/files/report.pdf") = true)
    by reflexivity.
  split; [exact H1|]. split; [exact H2|]. split; [exact H3|].
  exact (scan_absolute_path_is_absent (lit "public/files")
           Sample.absolute_walk (lit "/srv/files/report.pdf") H1 H2 H3).
Defined.

(** X3 on the first record of the two reports. *)
Lemma scanned_record_is_consistent_witness :
  fst (scan_files_directory (lit "public/files") Sample.two_reports)
  = Returns (Some [Sample.report_a; Sample.report_b]) /\
  In Sample.report_a [Sample.report_a; Sample.report_b] /\
  root (Path (path Sample.report_a)) = [] /\
  name (Path (path Sample.report_a)) = full_name Sample.report_a /\
  stem (Path (path Sample.report_a)) = name_without_ext Sample.report_a.
Proof.
  assert (H1 : fst (scan_files_directory (lit "public/files")
                                         Sample.two_reports)
               = Returns (Some [Sample.report_a; Sample.report_b]))
    by (vm_compute; reflexivity).
  assert (H2 : In Sample.report_a [Sample.report_a; Sample.report_b])
    by (left; reflexivity).
  split; [exact H1|]. split; [exact H2|].
  exact (scanned_record_is_consistent (lit "public/files") Sample.two_reports
           [Sample.report_a; Sample.report_b] Sample.report_a H1 H2).
Defined.

(** The resolved name stays resolved when a summary is listed before the
    report and a second report after it. *)
Lemma find_best_match_survives_additions_witness :
  find_best_match Sample.exact_score (lit "report.pdf")
                  (Some [Sample.report_a])
  = Some (lit "public/files/a/report.pdf") /\
  exists p',
    find_best_match Sample.exact_score (lit "report.pdf")
                    (Some ([Sample.summary_a] ++ [Sample.report_a]
                           ++ [Sample.report_b]))
    = Some p'.
Proof.
  assert (H1 : find_best_match Sample.exact_score (lit "report.pdf")
                               (Some [Sample.report_a])
               = Some (lit "public/files/a/report.pdf"))
    by (vm_compute; reflexivity).
  split; [exact H1|].
  exact (find_best_match_survives_additions Sample.exact_score
           (lit "report.pdf") [Sample.report_a] [Sample.summary_a]
           [Sample.report_b] (lit "public/files/a/report.pdf") H1).
Defined.

(** The record of the link of the sample reply. *)
Lemma extracted_record_invariants_witness :
  fst (extract_markdown_links Sample.exact_score
         (lit "Check [this](report.pdf)") Sample.two_reports)
  = Returns [Sample.resolved_record] /\
  In Sample.resolved_record [Sample.resolved_record] /\
  (exists pre post,
      lit "Check [this](report.pdf)"
      = pre ++ original_link Sample.resolved_record ++ post) /\
  Chat.text Sample.resolved_record <> [] /\
  ~ In c_dot (filename Sample.resolved_record) /\
  (fuzzy_matched Sample.resolved_record = true ->
   exists files f,
     Spec.inventory_of Sample.two_reports = Some files /\ In f files /\
     url Sample.resolved_record = lit "/gradio_api/file=" ++ path f) /\
  (fuzzy_matched Sample.resolved_record = false ->
   original_link Sample.resolved_record
   = markdown_of (Chat.text Sample.resolved_record)
                 (url Sample.resolved_record)).
Proof.
  assert (H1 : fst (extract_markdown_links Sample.exact_score
                      (lit "Check [this](report.pdf)") Sample.two_reports)
               = Returns [Sample.resolved_record])
    by (vm_compute; reflexivity).
  assert (H2 : In Sample.resolved_record [Sample.resolved_record])
    by (left; reflexivity).
  split; [exact H1|]. split; [exact H2|].
  exact (extracted_record_invariants Sample.exact_score
           (lit "Check [this](report.pdf)") Sample.two_reports
           [Sample.resolved_record] Sample.resolved_record H1 H2).
Defined.

(** The agent fetched by the first request of a new client. *)
Lemma agent_is_fetched_once_witness :
  Azure.messages_create Sample.answering (lit "thread_1") (lit "user")
                        (lit "Where is the report?") = Returns tt /\
  Spec.agent_of Sample.answering Sample.new_client
  = Returns (Azure.mkAgent (lit "asst_1")) /\
  forall later : Azure.Service,
    Spec.agent_of later
      (snd (Azure.guarded_request Sample.answering
              (lit "Where is the report?") (lit "thread_1")
              Sample.new_client))
    = Returns (Azure.mkAgent (lit "asst_1")).
Proof.
  assert (H1 : Azure.messages_create Sample.answering (lit "thread_1")
                 (lit "user") (lit "Where is the report?") = Returns tt)
    by reflexivity.
  assert (H2 : Spec.agent_of Sample.answering Sample.new_client
               = Returns (Azure.mkAgent (lit "asst_1"))) by reflexivity.
  split; [exact H1|]. split; [exact H2|].
  exact (agent_is_fetched_once Sample.answering (lit "Where is the report?")
           (lit "thread_1") Sample.new_client (Azure.mkAgent (lit "asst_1"))
           H1 H2).
Defined.

End FurtherRuns.
